(** * PV_DEMICE: the mass-flow and reliability engine of [PV_DEMICE/main.py]

    A shallow embedding of [weibull_params], [weibull_cdf] and
    [Simulation.calculateMassFlow], with the properties of the cohort loop,
    the module end-of-life cascade and the material cascade.

    Numbers.  The program computes in IEEE binary64; this development reads
    every finite float as the real number it denotes and every arithmetic
    operation as the exact one.  The single non-finite value the claims need
    ([0.0 ** alpha] for a negative [alpha], which numpy evaluates to [inf]) is
    kept apart in [npfloat].  NaN is not represented, so [fillna(0)] and the
    [np.isnan] guard of the cohort loop are identities here.

    One effect of rounding reaches a branch of the program.  The cohort loop
    tests [cdf[age] == 0.0], and binary64 evaluates [1 - np.exp(-v)] to 0.0
    once [v] is below about 1.1e-16, so the CDF of a steep fit is 0.0 at
    small positive ages (t50 = 40, t90 = 44: the ages 1 and 2), where the
    exact CDF is positive.  The cohort loop is therefore embedded for an
    arbitrary closure [f], and the statements about it put their conditions
    on the values the closure returns ([cdf_at]), not on the keypoints.

    The embedding follows the program where the program's arithmetic stays
    finite.  A zero module or manufacturing efficiency (a division by zero,
    [inf] or NaN in numpy) and a non-positive reliability keypoint (the
    logarithm of a non-positive number) are outside it: Rocq's [/ 0] and [ln]
    of a non-positive number are 0.  The inputs of the statements below keep
    away from both. *)

From Stdlib Require Import String Ascii Bool DecimalString DecimalNat.
From Stdlib Require Import Reals Lra Lia ZArith List.
Import ListNotations.
Open Scope R_scope.

(** ** Complex numbers, as numpy's [complex128] read exactly *)

Module Cplx.

Record C : Type := mkC { re : R; im : R }.

Definition RtoC (x : R) : C := mkC x 0.
Definition Ci : C := mkC 0 1.

Definition add (z w : C) : C := mkC (re z + re w) (im z + im w).
Definition sub (z w : C) : C := mkC (re z - re w) (im z - im w).
Definition mul (z w : C) : C :=
  mkC (re z * re w - im z * im w) (re z * im w + im z * re w).
Definition div (z w : C) : C :=
  let d := re w * re w + im w * im w in
  mkC ((re z * re w + im z * im w) / d) ((im z * re w - re z * im w) / d).

Definition abs (z : C) : R := sqrt (re z * re z + im z * im z).

(** [atan2 y x], the argument in (-pi, pi] of the point (x, y). *)
Definition atan2 (y x : R) : R :=
  if Rlt_dec 0 x then atan (y / x)
  else if Rlt_dec x 0 then
         (if Rle_dec 0 y then atan (y / x) + PI else atan (y / x) - PI)
       else if Rlt_dec 0 y then PI / 2
            else if Rlt_dec y 0 then - (PI / 2) else 0.

(** Principal branch, [np.log] on a complex argument. *)
Definition log (z : C) : C := mkC (ln (abs z)) (atan2 (im z) (re z)).

Definition exp (z : C) : C :=
  mkC (Rtrigo_def.exp (re z) * cos (im z)) (Rtrigo_def.exp (re z) * sin (im z)).

End Cplx.

(** ** numpy's float power on a non-negative base *)

(** [x ** a] evaluates to [inf] when [x] is [0.0] and [a] is negative; the
    other results are finite.  For a positive base it is [Rpower].  The base
    [np.array(x)/beta] of [weibull_cdf] is never negative: [x] is a clipped
    age and [beta] an absolute value. *)
Inductive npfloat : Type :=
| Fin (r : R)
| PInf.

Definition np_power (x a : R) : npfloat :=
  if Req_dec_T x 0 then
    (if Rlt_dec 0 a then Fin 0
     else if Req_dec_T a 0 then Fin 1 else PInf)
  else Fin (Rpower x a).

(** [np.exp(-v)]: [exp(-inf)] is [0.0]. *)
Definition np_exp_neg (v : npfloat) : R :=
  match v with
  | Fin r => exp (- r)
  | PInf => 0
  end.

(** ** [weibull_params] and [weibull_cdf] *)

(** [np.log(np.log(1 - cdf) + 0j)] *)
Definition loglog (cdf : R) : Cplx.C := Cplx.log (Cplx.RtoC (ln (1 - cdf))).

(** The quotient whose real part [np.real_if_close] keeps. *)
Definition weibull_alpha_complex (t1 cdf1 t2 cdf2 : R) : Cplx.C :=
  Cplx.div (Cplx.sub (loglog cdf1) (loglog cdf2))
           (Cplx.RtoC (ln t1 - ln t2)).

Definition weibull_beta_exponent (t1 cdf1 t2 cdf2 : R) : Cplx.C :=
  Cplx.div
    (Cplx.add
       (Cplx.mul (Cplx.RtoC (ln t2))
          (Cplx.add (Cplx.mul Cplx.Ci (Cplx.RtoC PI)) (loglog cdf1)))
       (Cplx.mul (Cplx.RtoC (ln t1))
          (Cplx.sub (Cplx.mul (Cplx.mkC 0 (-1)) (Cplx.RtoC PI)) (loglog cdf2))))
    (Cplx.sub (loglog cdf1) (loglog cdf2)).

Record WeibullParams : Type := mkParams { alpha : R; beta : R }.

(** [keypoints] is the dict [{t1: cdf1, t2: cdf2}], in insertion order.
    [np.real_if_close] returns the real part when the imaginary part is
    within 100 machine epsilons of zero; [weibull_alpha_im] shows it is
    exactly zero for probabilities in (0,1), so [alpha] is that real part. *)
Definition weibull_params (t1 cdf1 t2 cdf2 : R) : WeibullParams :=
  {| alpha := Cplx.re (weibull_alpha_complex t1 cdf1 t2 cdf2);
     beta := Cplx.abs (Cplx.exp (weibull_beta_exponent t1 cdf1 t2 cdf2)) |}.

(** [1 - np.exp(-(np.array(x)/beta)**alpha)] *)
Definition weibull_cdf (p : WeibullParams) (x : R) : R :=
  1 - np_exp_neg (np_power (x / beta p) (alpha p)).

(** ** Lists as columns and matrices *)

Fixpoint zip_with {A B D : Type} (f : A -> B -> D) (l1 : list A) (l2 : list B) : list D :=
  match l1, l2 with
  | a :: t1, b :: t2 => f a b :: zip_with f t1 t2
  | _, _ => []
  end.

(** [l[i] = v] on a Python list; the index is in range wherever the program
    assigns ([fixinitialareacount_lt]). *)
Fixpoint list_set {A : Type} (l : list A) (i : nat) (v : A) : list A :=
  match l, i with
  | [], _ => []
  | _ :: t, O => v :: t
  | a :: t, S j => a :: list_set t j v
  end.

Definition vadd : list R -> list R -> list R := zip_with Rplus.
Definition vsub : list R -> list R -> list R := zip_with Rminus.
Definition vmul : list R -> list R -> list R := zip_with Rmult.
Definition vdiv : list R -> list R -> list R := zip_with Rdiv.
Definition vscale (k : R) (v : list R) : list R := map (fun e => e * k) v.
(** [1 - v], a scalar minus an array *)
Definition vcompl (v : list R) : list R := map (fun e => 1 - e) v.

(** A generation-by-year matrix: one inner list per generation (the frame's
    index), one entry per year (the columns [EOL_on_Year_y]). *)
Definition matrix : Type := list (list R).

(** [M.mul(values)] with a one-dimensional array: the array runs along the
    columns, entry (g, y) is multiplied by [values[y]]. *)
Definition mul_columns (M : matrix) (values : list R) : matrix :=
  map (fun row => vmul row values) M.

(** [M.multiply(series, axis=0)]: the series runs along the index, entry
    (g, y) is multiplied by [series[g]]. *)
Definition multiply_index (M : matrix) (series : list R) : matrix :=
  zip_with (fun row m => map (fun e => e * m) row) M series.

(** [list(M.sum())]: one sum per column, taken over the index. *)
Definition column_sums (ncols : nat) (M : matrix) : list R :=
  fold_right vadd (repeat 0 ncols) M.

(** Every generation has one entry per year. *)
Definition wf_matrix (ncols : nat) (M : matrix) : Prop :=
  Forall (fun row => length row = ncols) M.

(** ** The module baseline, one record per year *)

Definition irradiance_stc : R := 1000.

Record ModuleRow : Type := mkModuleRow {
  new_Installed_Capacity_MW : R;
  mod_eff : R;
  mod_reliability_t50 : R;
  mod_reliability_t90 : R;
  mod_lifetime : R;
  mod_degradation : R;
  mod_Repairing : R;
  mod_Repowering : R;
  mod_EOL_collection_eff : R;
  mod_EOL_collected_recycled : R
}.

Definition zero_row : ModuleRow := mkModuleRow 0 0 0 0 0 0 0 0 0 0.

(** [df.iloc[age]]; the loop only asks for ages below [len(df)]. *)
Definition iloc (df : list ModuleRow) (age : nat) : ModuleRow := nth age df zero_row.

(** [df['Area']], row by row *)
Definition Area (row : ModuleRow) : R :=
  new_Installed_Capacity_MW row * 1e6 / (mod_eff row * 0.01) / irradiance_stc.

(** [x = np.clip(df.index - generation, 0, np.inf)] on the index [0..n-1];
    the upper bound [inf] clips nothing. *)
Definition clipped_ages (n generation : nat) : list R :=
  map (fun i => Rmax (INR i - INR generation) 0) (seq 0 n).

(** ** The cohort loop of one generation *)

(** The variables the loop over [age] updates. *)
Record CohortState : Type := mkCohort {
  activearea : R;
  active : Z;
  activeareacount : list R;
  areadisposed_failure : list R;
  areadisposed_degradation : list R;
  areapowergen : list R
}.

Definition cohort_init (row : ModuleRow) : CohortState :=
  mkCohort (Area row) (-1) [] [] [] [].

(** One pass through the body of [for age in range(len(cdf))]. *)
Definition cohort_step (df : list ModuleRow) (generation : nat) (row : ModuleRow)
    (cdf : list R) (st : CohortState) (age : nat) : CohortState :=
  if Req_dec_T (nth age cdf 0) 0 then
    mkCohort (activearea st) (active st)
      (activeareacount st ++ [0])
      (areadisposed_failure st ++ [0])
      (areadisposed_degradation st ++ [0])
      (areapowergen st ++ [0])
  else
    let active' := (active st + 1)%Z in
    let activeareaprev := activearea st in
    let activearea1 :=
      activeareaprev * (1 - nth age cdf 0 * (1 - mod_Repairing (iloc df age))) in
    let failure := activeareaprev - activearea1 in
    let repower := Req_dec_T (INR age) (mod_lifetime row + INR generation) in
    let activearea2 :=
      if repower then 0 + activearea1 * mod_Repowering (iloc df age) else activearea1 in
    let disposed_degradation := if repower then activearea1 - activearea2 else 0 in
    mkCohort activearea2 active'
      (activeareacount st ++ [activearea2])
      (areadisposed_failure st ++ [failure])
      (areadisposed_degradation st ++ [disposed_degradation])
      (areapowergen st ++
         [activearea2 * mod_eff row * 0.01 * irradiance_stc
          * powerRZ (1 - mod_degradation row / 100) active']).

(** The state after the first [k] ages. *)
Definition cohort_loop (df : list ModuleRow) (generation : nat) (row : ModuleRow)
    (cdf : list R) (k : nat) : CohortState :=
  fold_left (cohort_step df generation row cdf) (seq 0 k) (cohort_init row).

(** [next((i for i, e in enumerate(x) if e), None)] *)
Fixpoint first_truthy (x : list R) (i : nat) : option nat :=
  match x with
  | [] => None
  | e :: t => if Req_dec_T e 0 then first_truthy t (S i) else Some i
  end.

Definition finished_message : string :=
  "Finished Area+Power Generation Calculations".

(** What one generation leaves behind: the four sequences and the lines it
    printed. *)
Record Trajectory : Type := mkTrajectory {
  traj_active : list R;
  traj_failure : list R;
  traj_degradation : list R;
  traj_power : list R;
  traj_printed : list string
}.

(** The index that receives the initial area, and whether the [except]
    branch chose it.  [None - 1] raises in the [try] branch when no clipped
    age is truthy; the first truthy index is never 0 since [x[0]] is 0, so the
    subtraction stays a valid index. *)
Definition fixinitialareacount (x cdf : list R) : nat * bool :=
  match first_truthy x 0 with
  | Some i => ((i - 1)%nat, false)
  | None => ((length cdf - 1)%nat, true)
  end.

(** The body of [for generation, row in df.iterrows()], with the closure [f]
    of the generation as an argument. *)
Definition generation_trajectory (f : R -> R) (df : list ModuleRow)
    (generation : nat) (row : ModuleRow) : Trajectory :=
  let x := clipped_ages (length df) generation in
  let cdf := map f x in
  let st := cohort_loop df generation row cdf (length cdf) in
  let '(fix_, excepted) := fixinitialareacount x cdf in
  let activeareacount' :=
    list_set (activeareacount st) fix_ (nth fix_ (activeareacount st) 0 + Area row) in
  let areapowergen' :=
    list_set (areapowergen st) fix_
      (nth fix_ activeareacount' 0 + Area row * mod_eff row * 0.01 * irradiance_stc) in
  mkTrajectory activeareacount' (areadisposed_failure st)
    (areadisposed_degradation st) areapowergen'
    (if excepted then [finished_message] else []).

(** The closure [f]: [weibull_cdf] applied to the parameters that
    [weibull_params] fits to the keypoints [{t50: 0.50, t90: 0.90}], read in
    exact arithmetic.  A row with [t50 = t90] builds a one-key dict and the
    unpacking in [weibull_params] raises, and a row with a non-positive
    keypoint gives NaN; such rows are outside this function.  At small
    positive ages of a steep fit the binary64 value is 0.0 where this one is
    positive (see [steep_cdf]). *)
Definition row_cdf (row : ModuleRow) : R -> R :=
  weibull_cdf (weibull_params (mod_reliability_t50 row) 0.50
                              (mod_reliability_t90 row) 0.90).

(** ** The yearly aggregation and the module end-of-life cascade *)

Section Aggregation.

(** The closure each generation evaluates its ages with; [row_cdf] in the
    program. *)
Variable F : ModuleRow -> R -> R.

Fixpoint trajectories_from (df : list ModuleRow) (generation : nat)
    (rows : list ModuleRow) : list Trajectory :=
  match rows with
  | [] => []
  | row :: rest =>
      generation_trajectory (F row) df generation row
      :: trajectories_from df (S generation) rest
  end.

(** One trajectory per row of [df.iterrows()]. *)
Definition trajectories (df : list ModuleRow) : list Trajectory :=
  trajectories_from df 0 df.

(** A cumulative column: zeros, then [+=] the sequence of every generation. *)
Definition cumulative (n : nat) (seqs : list (list R)) : list R :=
  fold_left vadd seqs (repeat 0 n).

Definition Generation_Disposed_byYear (df : list ModuleRow) : matrix :=
  map (fun t => zip_with Rplus (traj_failure t) (traj_degradation t))
      (trajectories df).

Definition Generation_Active_byYear (df : list ModuleRow) : matrix :=
  map traj_active (trajectories df).

Definition Generation_Power_byYear (df : list ModuleRow) : matrix :=
  map traj_power (trajectories df).

(** The columns the module part of [calculateMassFlow] computes, and the
    four matrices the material loop reads. *)
Record ModuleFlow : Type := mkModuleFlow {
  col_Area : list R;
  Cumulative_Area_disposedby_Failure : list R;
  Cumulative_Area_disposedby_Degradation : list R;
  Cumulative_Area_disposed : list R;
  Cumulative_Active_Area : list R;
  Cumulative_Power_W : list R;
  EOL : matrix;
  EOL_Collected : matrix;
  landfill_Collection : matrix;
  EOL_Recycled : matrix;
  EOL_NotRecycled_Landfilled : matrix;
  EoL_Collected : list R;
  EoL_NotCollected : list R;
  EoL_Recycled : list R;
  EoL_NotRecycled_Landfilled : list R;
  module_printed : list string
}.

Definition module_flow (df : list ModuleRow) : ModuleFlow :=
  let n := length df in
  let ts := trajectories df in
  let eol := Generation_Disposed_byYear df in
  let collection := vscale 0.01 (map mod_EOL_collection_eff df) in
  let recycled := vscale 0.01 (map mod_EOL_collected_recycled df) in
  let eol_collected := mul_columns eol collection in
  let landfill := mul_columns eol (vcompl collection) in
  let eol_recycled := mul_columns eol_collected recycled in
  let eol_notrecycled := mul_columns eol_collected (vcompl recycled) in
  mkModuleFlow
    (map Area df)
    (cumulative n (map traj_failure ts))
    (cumulative n (map traj_degradation ts))
    (fold_left (fun acc t => vadd (vadd acc (traj_failure t)) (traj_degradation t))
       ts (repeat 0 n))
    (cumulative n (map traj_active ts))
    (cumulative n (map traj_power ts))
    eol eol_collected landfill eol_recycled eol_notrecycled
    (column_sums n eol_collected)
    (column_sums n landfill)
    (column_sums n eol_recycled)
    (column_sums n eol_notrecycled)
    (concat (map traj_printed ts)).

End Aggregation.

(** ** The material cascade *)

Record MaterialRow : Type := mkMaterialRow {
  mat_massperm2 : R;
  mat_EOL_collected_Recycled : R;
  mat_EOL_Recycled_into_HQ : R;
  mat_EOL_RecycledHQ_Reused4MFG : R;
  material_MFG_eff : R;
  mat_MFG_scrap_recycled : R;
  mat_MFG_scrap_recycling_eff : R;
  mat_MFG_scrap_Recycled_into_HQ : R;
  mat_MFG_scrap_Recycled_into_HQ_Reused4MFG : R
}.

Definition zero_material_row : MaterialRow := mkMaterialRow 0 0 0 0 0 0 0 0 0.

(** The columns the material loop assigns to [dm], in the order of the
    assignments. *)
Record MaterialFlow : Type := mkMaterialFlow {
  mat_modules_NotRecycled : list R;
  mat_modules_NotCollected : list R;
  mat_EOL_sento_Recycling : list R;
  mat_EOL_NotRecycled_Landfilled : list R;
  mat_EOL_Recycled : list R;
  mat_EOL_Recycled_Losses_Landfilled : list R;
  mat_EoL_Recycled_into_HQ : list R;
  mat_EoL_Recycled_into_OQ : list R;
  mat_EoL_Recycled_HQ_into_MFG : list R;
  mat_EOL_Recycled_HQ_into_OU : list R;
  mat_Manufactured : list R;
  mat_Manufacturing_Input : list R;
  mat_MFG_Scrap : list R;
  mat_MFG_Scrap_Sentto_Recycling : list R;
  mat_MFG_Scrap_Landfilled : list R;
  mat_MFG_Scrap_Recycled : list R;
  mat_MFG_Scrap_Recycled_Losses_Landfilled : list R;
  mat_MFG_Recycled_into_HQ : list R;
  mat_MFG_Recycled_into_OQ : list R;
  mat_MFG_Recycled_HQ_into_MFG : list R;
  mat_MFG_Recycled_HQ_into_OU : list R;
  mat_Virgin_Stock : list R;
  mat_Total_EoL_Landfilled : list R;
  mat_Total_MFG_Landfilled : list R;
  mat_Total_Landfilled : list R;
  mat_Total_Recycled_OU : list R
}.

(** The body of [for mat in self.scenario[scen].material], on the matrices and
    the [Area] column the module part left.  [dm] has one row per row of [df];
    the source raises on the first assignment otherwise. *)
Definition material_flow (mf : ModuleFlow) (dm : list MaterialRow) : MaterialFlow :=
  let n := length (col_Area mf) in
  let massperm2 := map mat_massperm2 dm in
  let collected_Recycled := vscale 0.01 (map mat_EOL_collected_Recycled dm) in
  let into_HQ := vscale 0.01 (map mat_EOL_Recycled_into_HQ dm) in
  let reused4MFG := vscale 0.01 (map mat_EOL_RecycledHQ_Reused4MFG dm) in
  let mat_modules_EOL_sentoRecycling := multiply_index (EOL_Recycled mf) massperm2 in
  let modules_NotRecycled :=
    column_sums n (multiply_index (EOL_NotRecycled_Landfilled mf) massperm2) in
  let modules_NotCollected :=
    column_sums n (multiply_index (landfill_Collection mf) massperm2) in
  let m_sento_Recycling := mul_columns mat_modules_EOL_sentoRecycling collected_Recycled in
  let m_NotRecycled_Landfilled :=
    mul_columns mat_modules_EOL_sentoRecycling (vcompl collected_Recycled) in
  let m_Recycled_Succesfully := mul_columns m_sento_Recycling collected_Recycled in
  let m_Recyled_Losses_Landfilled :=
    mul_columns m_sento_Recycling (vcompl collected_Recycled) in
  let m_Recycled_HQ := mul_columns m_Recycled_Succesfully into_HQ in
  let m_Recycled_OQ := mul_columns m_Recycled_Succesfully (vcompl into_HQ) in
  let m_Recycled_HQ_into_MFG := mul_columns m_Recycled_HQ reused4MFG in
  let m_Recycled_HQ_into_OU := mul_columns m_Recycled_HQ (vcompl reused4MFG) in
  let EOL_sento_Recycling := column_sums n m_sento_Recycling in
  let EOL_NotRecycled := column_sums n m_NotRecycled_Landfilled in
  let EOL_Recycled_ := column_sums n m_Recycled_Succesfully in
  let EOL_Recycled_Losses := column_sums n m_Recyled_Losses_Landfilled in
  let EoL_into_HQ := column_sums n m_Recycled_HQ in
  let EoL_into_OQ := column_sums n m_Recycled_OQ in
  let EoL_HQ_into_MFG := column_sums n m_Recycled_HQ_into_MFG in
  let EOL_HQ_into_OU := column_sums n m_Recycled_HQ_into_OU in
  let Manufactured := vmul (col_Area mf) massperm2 in
  let Manufacturing_Input :=
    vdiv Manufactured (vscale 0.01 (map material_MFG_eff dm)) in
  let MFG_Scrap := vsub Manufactured Manufacturing_Input in
  let Scrap_Sentto_Recycling :=
    vscale 0.01 (vmul MFG_Scrap (map mat_MFG_scrap_recycled dm)) in
  let Scrap_Landfilled := vsub MFG_Scrap Scrap_Sentto_Recycling in
  let Scrap_Recycled :=
    vscale 0.01 (vmul Scrap_Sentto_Recycling (map mat_MFG_scrap_recycling_eff dm)) in
  let Scrap_Recycled_Losses := vsub Scrap_Sentto_Recycling Scrap_Recycled in
  let MFG_into_HQ :=
    vscale 0.01 (vmul Scrap_Recycled (map mat_MFG_scrap_Recycled_into_HQ dm)) in
  let MFG_into_OQ := vsub Scrap_Recycled MFG_into_HQ in
  let MFG_HQ_into_MFG :=
    vscale 0.01 (vmul MFG_into_HQ (map mat_MFG_scrap_Recycled_into_HQ_Reused4MFG dm)) in
  let MFG_HQ_into_OU := vsub MFG_into_HQ MFG_HQ_into_MFG in
  let Virgin_Stock := vsub (vsub Manufacturing_Input EoL_HQ_into_MFG) MFG_HQ_into_MFG in
  let Total_EoL_Landfilled :=
    vadd (vadd (vadd modules_NotCollected modules_NotRecycled) EOL_NotRecycled)
         EOL_Recycled_Losses in
  let Total_MFG_Landfilled := vadd Scrap_Landfilled Scrap_Recycled_Losses in
  let Total_Landfilled := vadd Total_EoL_Landfilled Total_MFG_Landfilled in
  let Total_Recycled_OU :=
    vadd (vadd (vadd EoL_into_OQ EOL_HQ_into_OU) MFG_into_OQ) MFG_HQ_into_OU in
  mkMaterialFlow modules_NotRecycled modules_NotCollected
    EOL_sento_Recycling EOL_NotRecycled EOL_Recycled_ EOL_Recycled_Losses
    EoL_into_HQ EoL_into_OQ EoL_HQ_into_MFG EOL_HQ_into_OU
    Manufactured Manufacturing_Input MFG_Scrap Scrap_Sentto_Recycling
    Scrap_Landfilled Scrap_Recycled Scrap_Recycled_Losses
    MFG_into_HQ MFG_into_OQ MFG_HQ_into_MFG MFG_HQ_into_OU Virgin_Stock
    Total_EoL_Landfilled Total_MFG_Landfilled Total_Landfilled Total_Recycled_OU.

(** The program: every generation uses the Weibull fit of its own row. *)
Definition calculate_module (df : list ModuleRow) : ModuleFlow :=
  module_flow row_cdf df.

Definition calculate_material (df : list ModuleRow) (dm : list MaterialRow) : MaterialFlow :=
  material_flow (calculate_module df) dm.

(** The mass of material in the modules disposed in each year: the disposal
    matrix weighted by the mass per area of each generation. *)
Definition disposed_mass (mf : ModuleFlow) (dm : list MaterialRow) : list R :=
  column_sums (length (col_Area mf)) (multiply_index (EOL mf) (map mat_massperm2 dm)).

(** The mass of material in the modules sent to recycling in each year. *)
Definition recycled_module_mass (mf : ModuleFlow) (dm : list MaterialRow) : list R :=
  column_sums (length (col_Area mf))
    (multiply_index (EOL_Recycled mf) (map mat_massperm2 dm)).


(** ** The tables of a simulation, as objects in a store *)

(** A pandas frame: the length of its index and its columns in order.  In a
    frame every column has [nrows] entries. *)
Record DataFrame : Type := mkFrame {
  nrows : nat;
  columns : list (string * list R)
}.

(** [df[c]]; [None] is the KeyError of a missing column. *)
Fixpoint getitem (cols : list (string * list R)) (c : string) : option (list R) :=
  match cols with
  | [] => None
  | (k, v) :: t => if String.eqb k c then Some v else getitem t c
  end.

(** [df[c] = v]: an existing column is replaced where it stands, a new one is
    appended. *)
Fixpoint setitem_columns (cols : list (string * list R)) (c : string) (v : list R)
  : list (string * list R) :=
  match cols with
  | [] => [(c, v)]
  | (k, w) :: t =>
      if String.eqb k c then (k, v) :: t else (k, w) :: setitem_columns t c v
  end.

Definition setitem (df : DataFrame) (c : string) (v : list R) : DataFrame :=
  mkFrame (nrows df) (setitem_columns (columns df) c v).

(** A run of column assignments on one frame object. *)
Definition assign_all (assignments : list (string * list R)) (df : DataFrame) : DataFrame :=
  fold_left (fun d cv => setitem d (fst cv) (snd cv)) assignments df.

(** [re.search(pattern, name)] for a pattern without metacharacters. *)
Fixpoint contains (pattern name : string) : bool :=
  prefix pattern name
  || match name with
     | EmptyString => false
     | String _ rest => contains pattern rest
     end.

(** [df[df.columns.drop(list(df.filter(regex='EOL_on_Year_')))]], a new frame *)
Definition drop_EOL_columns (df : DataFrame) : DataFrame :=
  mkFrame (nrows df)
    (filter (fun kv => negb (contains "EOL_on_Year_" (fst kv))) (columns df)).

Definition string_of_nat (i : nat) : string :=
  NilEmpty.string_of_uint (Nat.to_uint i).

(** The frame [FailuredisposalbyYear]: the column of year [y] holds what every
    generation disposed in that year. *)
Definition FailuredisposalbyYear (n : nat) (M : matrix) : list (string * list R) :=
  map (fun y => (append "EOL_on_Year_" (string_of_nat y), map (fun row => nth y row 0) M))
      (seq 0 n).

(** [df.join(other)], a new frame.  The columns cannot overlap here: every
    name that contains [EOL_on_Year_] has just been dropped. *)
Definition join (df : DataFrame) (other : list (string * list R)) : DataFrame :=
  mkFrame (nrows df) (columns df ++ other).

Definition cell (cols : list (string * list R)) (c : string) (i : nat) : R :=
  match getitem cols c with
  | Some v => nth i v 0
  | None => 0
  end.

Definition has_columns (cols : list (string * list R)) (names : list string) : bool :=
  forallb (fun c => match getitem cols c with Some _ => true | None => false end) names.

Definition module_input_columns : list string :=
  ["new_Installed_Capacity_[MW]"; "mod_reliability_t50"; "mod_reliability_t90";
   "mod_eff"; "mod_lifetime"; "mod_degradation"; "mod_Repairing"; "mod_Repowering";
   "mod_EOL_collection_eff"; "mod_EOL_collected_recycled"]%string.

Definition material_input_columns : list string :=
  ["mat_massperm2"; "mat_EOL_collected_Recycled"; "mat_EOL_Recycled_into_HQ";
   "mat_EOL_RecycledHQ_Reused4MFG"; "material_MFG_eff"; "mat_MFG_scrap_recycled";
   "mat_MFG_scrap_recycling_eff"; "mat_MFG_scrap_Recycled_into_HQ";
   "mat_MFG_scrap_Recycled_into_HQ_Reused4MFG"]%string.

(** The rows [df.iterrows()] and [df.iloc] hand to the module part; a frame
    that lacks a baseline column raises KeyError when the column is read.  The
    source reads [mod_lifetime], [mod_degradation], [mod_Repairing] and
    [mod_Repowering] from inside the cohort loop only; a table without one of
    them is refused here whether or not a pass would have read it. *)
Definition read_module (df : DataFrame) : option (list ModuleRow) :=
  if has_columns (columns df) module_input_columns then
    Some (map (fun i =>
                 let at_ c := cell (columns df) c i in
                 mkModuleRow (at_ "new_Installed_Capacity_[MW]") (at_ "mod_eff")
                   (at_ "mod_reliability_t50") (at_ "mod_reliability_t90")
                   (at_ "mod_lifetime") (at_ "mod_degradation")
                   (at_ "mod_Repairing") (at_ "mod_Repowering")
                   (at_ "mod_EOL_collection_eff") (at_ "mod_EOL_collected_recycled"))%string
              (seq 0 (nrows df)))
  else None.

Definition read_material (dm : DataFrame) : option (list MaterialRow) :=
  if has_columns (columns dm) material_input_columns then
    Some (map (fun i =>
                 let at_ c := cell (columns dm) c i in
                 mkMaterialRow (at_ "mat_massperm2") (at_ "mat_EOL_collected_Recycled")
                   (at_ "mat_EOL_Recycled_into_HQ") (at_ "mat_EOL_RecycledHQ_Reused4MFG")
                   (at_ "material_MFG_eff") (at_ "mat_MFG_scrap_recycled")
                   (at_ "mat_MFG_scrap_recycling_eff")
                   (at_ "mat_MFG_scrap_Recycled_into_HQ")
                   (at_ "mat_MFG_scrap_Recycled_into_HQ_Reused4MFG"))%string
              (seq 0 (nrows dm)))
  else None.

(** The columns lines 146-232 assign to the frame [self.scenario[scen].data]
    refers to, with their final values. *)
Definition module_assignments (rows : list ModuleRow) (mf : ModuleFlow)
  : list (string * list R) :=
  [("new_Installed_Capacity_[W]", map (fun r => new_Installed_Capacity_MW r * 1e6) rows);
   ("t50", map mod_reliability_t50 rows);
   ("t90", map mod_reliability_t90 rows);
   ("Area", col_Area mf);
   ("Cumulative_Area_disposedby_Failure", Cumulative_Area_disposedby_Failure mf);
   ("Cumulative_Area_disposedby_Degradation", Cumulative_Area_disposedby_Degradation mf);
   ("Cumulative_Area_disposed", Cumulative_Area_disposed mf);
   ("Cumulative_Active_Area", Cumulative_Active_Area mf);
   ("Cumulative_Power_[W]", Cumulative_Power_W mf)]%string.

(** The columns lines 272-279 assign to the joined frame. *)
Definition eol_assignments (mf : ModuleFlow) : list (string * list R) :=
  [("EoL_Collected", EoL_Collected mf);
   ("EoL_NotCollected", EoL_NotCollected mf);
   ("EoL_Recycled", EoL_Recycled mf);
   ("EoL_NotRecycled_Landfilled", EoL_NotRecycled_Landfilled mf)]%string.

(** The columns the material loop assigns to [materialdata]. *)
Definition material_assignments (m : MaterialFlow) : list (string * list R) :=
  [("mat_modules_NotRecycled", mat_modules_NotRecycled m);
   ("mat_modules_NotCollected", mat_modules_NotCollected m);
   ("mat_EOL_sento_Recycling", mat_EOL_sento_Recycling m);
   ("mat_EOL_NotRecycled_Landfilled", mat_EOL_NotRecycled_Landfilled m);
   ("mat_EOL_Recycled", mat_EOL_Recycled m);
   ("mat_EOL_Recycled_Losses_Landfilled", mat_EOL_Recycled_Losses_Landfilled m);
   ("mat_EoL_Recycled_into_HQ", mat_EoL_Recycled_into_HQ m);
   ("mat_EoL_Recycled_into_OQ", mat_EoL_Recycled_into_OQ m);
   ("mat_EoL_Recycled_HQ_into_MFG", mat_EoL_Recycled_HQ_into_MFG m);
   ("mat_EOL_Recycled_HQ_into_OU", mat_EOL_Recycled_HQ_into_OU m);
   ("mat_Manufactured", mat_Manufactured m);
   ("mat_Manufacturing_Input", mat_Manufacturing_Input m);
   ("mat_MFG_Scrap", mat_MFG_Scrap m);
   ("mat_MFG_Scrap_Sentto_Recycling", mat_MFG_Scrap_Sentto_Recycling m);
   ("mat_MFG_Scrap_Landfilled", mat_MFG_Scrap_Landfilled m);
   ("mat_MFG_Scrap_Recycled", mat_MFG_Scrap_Recycled m);
   ("mat_MFG_Scrap_Recycled_Losses_Landfilled", mat_MFG_Scrap_Recycled_Losses_Landfilled m);
   ("mat_MFG_Recycled_into_HQ", mat_MFG_Recycled_into_HQ m);
   ("mat_MFG_Recycled_into_OQ", mat_MFG_Recycled_into_OQ m);
   ("mat_MFG_Recycled_HQ_into_MFG", mat_MFG_Recycled_HQ_into_MFG m);
   ("mat_MFG_Recycled_HQ_into_OU", mat_MFG_Recycled_HQ_into_OU m);
   ("mat_Virgin_Stock", mat_Virgin_Stock m);
   ("mat_Total_EoL_Landfilled", mat_Total_EoL_Landfilled m);
   ("mat_Total_MFG_Landfilled", mat_Total_MFG_Landfilled m);
   ("mat_Total_Landfilled", mat_Total_Landfilled m);
   ("mat_Total_Recycled_OU", mat_Total_Recycled_OU m)]%string.

(** The names of the columns an invocation assigns in place: nine on the
    module table, twenty-six on a material table. *)
Definition module_computed_columns : list string :=
  map fst (module_assignments [] (calculate_module [])).

Definition material_computed_columns : list string :=
  map fst (material_assignments (calculate_material [] [])).

Definition computed_columns : list string :=
  module_computed_columns ++ material_computed_columns.

(** The store: frame objects by address, and the lines printed so far. *)
Record World : Type := mkWorld {
  heap : list DataFrame;
  stdout : list string
}.

(** A [Scenario] object: the address [data] refers to and, per material in
    insertion order, the address [materialdata] refers to. *)
Record ScenarioObj : Type := mkScenario {
  scen_data : nat;
  scen_material : list (string * nat)
}.

(** One pass of the material loop: [dm] is the object [materialdata] refers
    to and is assigned in place.  A table with another number of rows than
    the module table makes the first assignment raise. *)
Definition material_pass (mf : ModuleFlow) (w : World) (mat : string * nat)
  : option World :=
  match nth_error (heap w) (snd mat) with
  | None => None
  | Some dm =>
      match read_material dm with
      | None => None
      | Some mrows =>
          if (nrows dm =? length (col_Area mf))%nat then
            Some (mkWorld
                    (list_set (heap w) (snd mat)
                       (assign_all (material_assignments (material_flow mf mrows)) dm))
                    (stdout w ++ [append "==> Working on Material :  " (fst mat)]))
          else None
      end
  end.

Fixpoint material_loop (mf : ModuleFlow) (w : World) (mats : list (string * nat))
  : option World :=
  match mats with
  | [] => Some w
  | mat :: rest =>
      match material_pass mf w mat with
      | None => None
      | Some w' => material_loop mf w' rest
      end
  end.

(** One pass of [for scen in self.scenario].  [df] first names the object
    [data] refers to, which lines 146-232 assign in place; lines 241 and 246
    bind [df] to new frames, the second of which gets the four end-of-life
    columns and becomes [data]. *)
Definition scenario_pass (w : World) (scen : string * ScenarioObj)
  : option (World * (string * ScenarioObj)) :=
  let sc := snd scen in
  match nth_error (heap w) (scen_data sc) with
  | None => None
  | Some df =>
      match read_module df with
      | None => None
      | Some rows =>
          let mf := calculate_module rows in
          let df_in_place := assign_all (module_assignments rows mf) df in
          let df_joined :=
            join (drop_EOL_columns df_in_place)
                 (FailuredisposalbyYear (nrows df) (EOL mf)) in
          let df_new := assign_all (eol_assignments mf) df_joined in
          let heap1 := list_set (heap w) (scen_data sc) df_in_place in
          let w1 :=
            mkWorld (heap1 ++ [df_new])
              (stdout w
               ++ [append "Working on Scenario:  " (fst scen); "********************"]%string
               ++ module_printed mf) in
          match material_loop mf w1 (scen_material sc) with
          | None => None
          | Some w2 =>
              Some (w2, (fst scen, mkScenario (length heap1) (scen_material sc)))
          end
      end
  end.

(** [Simulation.calculateMassFlow]: [self.scenario] in insertion order.  The
    method returns nothing; its results are the state it leaves. *)
Fixpoint calculateMassFlow (w : World) (scenario : list (string * ScenarioObj))
  : option (World * list (string * ScenarioObj)) :=
  match scenario with
  | [] => Some (w, [])
  | scen :: rest =>
      match scenario_pass w scen with
      | None => None
      | Some (w1, scen') =>
          match calculateMassFlow w1 rest with
          | None => None
          | Some (w2, rest') => Some (w2, scen' :: rest')
          end
      end
  end.

(** What an invocation leaves of the frame objects of the store [h] in the
    store [h']: every object is still at its address with the same number of
    rows, keeps the values of every column whose name is not in [names], and
    loses no column. *)
Definition preserved (names : list string) (h h' : list DataFrame) : Prop :=
  forall (l : nat) (df : DataFrame),
    nth_error h l = Some df ->
    exists df',
      nth_error h' l = Some df' /\
      nrows df' = nrows df /\
      (forall c, ~ In c names -> getitem (columns df') c = getitem (columns df) c) /\
      (forall c, getitem (columns df) c <> None -> getitem (columns df') c <> None).

(** ** Sample baselines *)

(** One year of a module baseline: 1 MW installed at 20 % efficiency,
    t50 = 10 and t90 = 20 years, a lifetime of 25 years, 0.5 % degradation a
    year, no repair, no repowering, full collection and no recycling. *)
Definition sample_row : ModuleRow := mkModuleRow 1 20 10 20 25 0.5 0 0 100 0.

Definition sample_df : list ModuleRow := [sample_row; sample_row; sample_row].

(** The same year with the two reliability keypoints exchanged, t50 = 20
    and t90 = 10. *)
Definition inverted_row : ModuleRow := mkModuleRow 1 20 20 10 25 0.5 0 0 100 0.

Definition inverted_df : list ModuleRow := [inverted_row; inverted_row; inverted_row].



(** One year of a material baseline: 2 kg per m2, every rate at 50 %. *)
Definition sample_material_row : MaterialRow := mkMaterialRow 2 50 50 50 50 50 50 50 50.

Definition sample_dm : list MaterialRow :=
  [sample_material_row; sample_material_row; sample_material_row].

(** Two years of a baseline that sends half of the collected modules to
    recycling. *)
Definition recycling_row : ModuleRow := mkModuleRow 1 20 10 20 25 0.5 0 0 100 50.

Definition recycling_df : list ModuleRow := [recycling_row; recycling_row].

Definition recycling_dm : list MaterialRow := [sample_material_row; sample_material_row].

(** A store with one module table and one material table of two years, and a
    simulation with one scenario and one material that refer to them. *)
Definition sample_module_frame : DataFrame :=
  mkFrame 2
    [("year", [2020; 2021]);
     ("new_Installed_Capacity_[MW]", [1; 1]);
     ("mod_eff", [20; 20]);
     ("mod_reliability_t50", [10; 10]);
     ("mod_reliability_t90", [20; 20]);
     ("mod_degradation", [0.5; 0.5]);
     ("mod_lifetime", [25; 25]);
     ("mod_EOL_collection_eff", [100; 100]);
     ("mod_EOL_collected_recycled", [50; 50]);
     ("mod_Repowering", [0; 0]);
     ("mod_Repairing", [0; 0])]%string.

Definition sample_material_frame : DataFrame :=
  mkFrame 2
    [("year", [2020; 2021]);
     ("mat_massperm2", [2; 2]);
     ("material_MFG_eff", [50; 50]);
     ("mat_MFG_scrap_recycled", [50; 50]);
     ("mat_MFG_scrap_recycling_eff", [50; 50]);
     ("mat_MFG_scrap_Recycled_into_HQ", [50; 50]);
     ("mat_MFG_scrap_Recycled_into_HQ_Reused4MFG", [50; 50]);
     ("mat_EOL_collected_Recycled", [50; 50]);
     ("mat_EOL_Recycled_into_HQ", [50; 50]);
     ("mat_EOL_RecycledHQ_Reused4MFG", [50; 50])]%string.

Definition sample_world : World :=
  mkWorld [sample_module_frame; sample_material_frame] [].

Definition sample_scenario : list (string * ScenarioObj) :=
  [("standard", mkScenario 0 [("glass", 1%nat)])]%string.




(** ** Sums and products over the years *)

Definition Rsum (l : list R) : R := fold_right Rplus 0 l.

(** The share of a cohort that survives, without an end-of-life event, from
    its install year [g] to the year [g + m]: every later year [k] keeps the
    share [1 - F(k - g) * (1 - repair(k))] of what the year before left. *)
Fixpoint survival (f : R -> R) (df : list ModuleRow) (g m : nat) : R :=
  match m with
  | O => 1
  | S m' =>
      survival f df g m'
      * (1 - f (INR (g + m) - INR g) * (1 - mod_Repairing (iloc df (g + m))))
  end.

(** [cdf[k]], the value the cohort loop of generation [g] tests in the pass
    of year [k]. *)
Definition cdf_at (f : R -> R) (df : list ModuleRow) (g k : nat) : R :=
  nth k (map f (clipped_ages (length df) g)) 0.

(** The number of passes before the pass of year [y] that took the branch of
    a nonzero CDF value: the counter [active] of the loop, plus one. *)
Definition live_passes (f : R -> R) (df : list ModuleRow) (g y : nat) : nat :=
  length (filter (fun k => if Req_dec_T (cdf_at f df g k) 0 then false else true)
            (seq 0 y)).

(** Three years of a baseline whose modules reach their end of life one year
    after installation and are repowered by half. *)
Definition eol_row : ModuleRow := mkModuleRow 1 20 10 20 1 0.5 0 0.5 100 0.

Definition eol_df : list ModuleRow := [eol_row; eol_row; eol_row].

(** ** [weibull_pdf] *)

(** [(alpha/np.array(x)) * ((np.array(x)/beta)**alpha)
      * (np.exp(-(np.array(x)/beta)**alpha))].
    At [x = 0] the first factor divides by zero and numpy's product is not a
    number, whatever the parameters: [inf * 0.0] for a positive shape,
    [0.0/0.0] for the shape 0, [-inf * inf * 0.0] for a negative one.  [None]
    stands for that value. *)
Definition weibull_pdf (p : WeibullParams) (x : R) : option R :=
  if Req_dec_T x 0 then None
  else
    match np_power (x / beta p) (alpha p) with
    | Fin v => Some (alpha p / x * v * exp (- v))
    | PInf => None
    end.

(** ** [_modDict] and [calculateLCA] *)

(** A Python dict with string keys: its items in insertion order, no key
    twice. *)
Definition dict (V : Type) : Type := list (string * V).

(** [d[k]]; [None] is the KeyError of a missing key. *)
Fixpoint dict_get {V : Type} (d : dict V) (k : string) : option V :=
  match d with
  | [] => None
  | (k', v) :: t => if String.eqb k' k then Some v else dict_get t k
  end.

(** [d[k] = v]: the value of an existing key is replaced where it stands, a
    new key is added at the end. *)
Fixpoint dict_set {V : Type} (d : dict V) (k : string) (v : V) : dict V :=
  match d with
  | [] => [(k, v)]
  | (k', w) :: t =>
      if String.eqb k' k then (k', v) :: t else (k', w) :: dict_set t k v
  end.

(** [k in d] *)
Definition has_key {V : Type} (d : dict V) (k : string) : bool :=
  existsb (String.eqb k) (map fst d).

(** [for key in moddict: originaldict[key] = moddict[key]].  The assignment
    to an item of a dict does not raise, so the handler of the [try] never
    runs and nothing is printed; the dict returned is [originaldict] itself,
    updated in place. *)
Definition _modDict {V : Type} (originaldict moddict : dict V) : dict V :=
  fold_left (fun d kv => dict_set d (fst kv) (snd kv)) moddict originaldict.

(** An entry of the impacts table.  The entries a caller passes in
    [modified_impacts] are taken to have the same three items, with a number
    under ['Result']. *)
Record Impact : Type := mkImpact {
  UUID : string;
  Result : R;
  Unit : string
}.

Definition impacts : dict Impact :=
  [("Acidification",
    mkImpact "75d0c8a2-e466-3bd7-813b-5beef2209330" 1.29374135667815 "kg SO2");
   ("Carcinogenics",
    mkImpact "a6e5e5d8-a1e5-3c77-8170-586c4fe37514" 0.0000231966690476102 "CTUh");
   ("Ecotoxicity",
    mkImpact "338e9370-ceb0-3d18-9d87-5f91feb7829c" 5933.77859696668 "CTUe");
   ("Eutrophication",
    mkImpact "45b8cd56-498a-3c6f-9488-134e951d8c02" 1.34026194777363 "kg N eq");
   ("Fossil fuel depletion",
    mkImpact "0e45786f-67fa-3b8a-b8a3-73a7c316434c" 249.642261689385 "MJ surplus");
   ("Global warming",
    mkImpact "31967441-d687-313d-9910-13da3a584ab7" 268.548841324818 "kg CO2 eq");
   ("Non carcinogenics",
    mkImpact "d4827ae3-c873-3ea4-85fb-860b7f3f2dee" 0.000135331806321799 "CTUh");
   ("Ozone depletion",
    mkImpact "6c05dad1-6661-35f2-82aa-6e8e6a498aec" 0.0000310937628622019 "kg CFC-11 eq");
   ("Respiratory effects",
    mkImpact "e0916d62-7fbd-3d0a-a4a5-52659b0ac9c1" 0.373415542664206 "kg PM2.5 eq");
   ("Smog",
    mkImpact "7a149078-e2fd-3e07-a5a3-79035c60e7c3" 15.35483065 "kg O3 eq")]%string.

(** The tuple [calculateLCA] returns, in its order. *)
Record LCA : Type := mkLCA {
  acidification : R;
  carcinogenics : R;
  ecotoxicity : R;
  eutrophication : R;
  fossil_fuel_depletion : R;
  global_warming : R;
  non_carcinogenics : R;
  ozone_depletion : R;
  respiratory_effects : R;
  smog : R
}.

Definition lca_values (r : LCA) : list R :=
  [acidification r; carcinogenics r; ecotoxicity r; eutrophication r;
   fossil_fuel_depletion r; global_warming r; non_carcinogenics r;
   ozone_depletion r; respiratory_effects r; smog r].

(** [impacts[category]['Result']*PVarea] *)
Definition impact_of (table : dict Impact) (category : string) (PVarea : R) : option R :=
  match dict_get table category with
  | Some i => Some (Result i * PVarea)
  | None => None
  end.

(** [calculateLCA(PVarea, modified_impacts)]; [None] is a KeyError.  With
    [printflag] the function also prints a report of the same products; the
    values returned do not depend on it, and the report is left out here. *)
Definition calculateLCA (PVarea : R) (modified_impacts : option (dict Impact))
  : option LCA :=
  let table :=
    match modified_impacts with
    | Some m => _modDict impacts m
    | None => impacts
    end in
  match impact_of table "Acidification" PVarea,
        impact_of table "Carcinogenics" PVarea,
        impact_of table "Ecotoxicity" PVarea,
        impact_of table "Eutrophication" PVarea,
        impact_of table "Fossil fuel depletion" PVarea,
        impact_of table "Global warming" PVarea,
        impact_of table "Non carcinogenics" PVarea,
        impact_of table "Ozone depletion" PVarea,
        impact_of table "Respiratory effects" PVarea,
        impact_of table "Smog" PVarea
  with
  | Some a, Some c, Some e, Some u, Some f, Some g, Some n, Some o, Some r, Some s =>
      Some (mkLCA a c e u f g n o r s)
  | _, _, _, _, _, _, _, _, _, _ => None
  end.

(** ** [sens_StageImprovement] and [sens_StageEfficiency] *)

(** A frame together with the labels of its index, the years. *)
Record IndexedFrame : Type := mkIndexed {
  df_index : list Z;
  table : DataFrame
}.

(** [start_year = int(datetime.datetime.now().year)] when no start year is
    given; [now] is the year the clock shows. *)
Definition start_year_or_now (now : Z) (start_year : option Z) : Z :=
  match start_year with
  | Some s => s
  | None => now
  end.

(** [df.loc[df.index > start_year, stage] =
       df[df.index > start_year][stage].apply(lambda x: x*improvement)] *)
Definition improve (start_year : Z) (improvement : R) (year : Z) (x : R) : R :=
  if (start_year <? year)%Z then x * improvement else x.

(** [sens_StageImprovement(df, stage, improvement, start_year)]; [None] is the
    KeyError of a stage that is not a column.  The frame returned is [df]
    itself, modified in place. *)
Definition sens_StageImprovement (now : Z) (df : IndexedFrame) (stage : string)
    (improvement : R) (start_year : option Z) : option IndexedFrame :=
  let start_year := start_year_or_now now start_year in
  match getitem (columns (table df)) stage with
  | None => None
  | Some col =>
      Some (mkIndexed (df_index df)
              (setitem (table df) stage
                 (zip_with (improve start_year improvement) (df_index df) col)))
  end.

(** [Series.interpolate()] with its defaults: linear, over positions that
    count as equally spaced whatever the index, filling forward.  A run of
    NaN between two numbers is filled on the line between them, a run at the
    end repeats the last number, a run at the start stays NaN. *)
Fixpoint next_valid (l : list (option R)) : option (nat * R) :=
  match l with
  | [] => None
  | Some v :: _ => Some (O, v)
  | None :: t =>
      match next_valid t with
      | Some (k, v) => Some (S k, v)
      | None => None
      end
  end.

(** [prev] is the last number seen and the distance to its position. *)
Fixpoint interpolate_from (prev : option (R * nat)) (l : list (option R))
  : list (option R) :=
  match l with
  | [] => []
  | Some v :: t => Some v :: interpolate_from (Some (v, 1%nat)) t
  | None :: t =>
      match prev with
      | None => None :: interpolate_from None t
      | Some (a, d) =>
          match next_valid t with
          | Some (k, b) => Some (a + (b - a) * INR d / INR (d + k + 1))
          | None => Some a
          end :: interpolate_from (Some (a, S d)) t
      end
  end.

Definition interpolate (l : list (option R)) : list (option R) :=
  interpolate_from None l.

(** The two masked assignments to [df2]:
    [df2.loc[(df2.index < goal_year) & (df2.index > start_year), stage] = np.nan]
    and [df2.loc[df2.index >= goal_year, stage] = target_eff]. *)
Definition mask_stage (start_year goal_year : Z) (target_eff : R) (year : Z) (x : R)
  : option R :=
  if ((year <? goal_year) && (start_year <? year))%Z then None
  else if (goal_year <=? year)%Z then Some target_eff
  else Some x.

(** [if 0 < abs(target_eff) < 1: target_eff = target_eff*100] *)
Definition scale_target (target_eff : R) : R :=
  if Rlt_dec 0 (Rabs target_eff) then
    (if Rlt_dec (Rabs target_eff) 1 then target_eff * 100 else target_eff)
  else target_eff.

(** The frame [df2], a copy whose cells may be NaN ([None]). *)
Record NaFrame : Type := mkNaFrame {
  na_index : list Z;
  na_nrows : nat;
  na_columns : dict (list (option R))
}.

Definition na_copy (df : IndexedFrame) : NaFrame :=
  mkNaFrame (df_index df) (nrows (table df))
    (map (fun kv => (fst kv, map Some (snd kv))) (columns (table df))).

(** [sens_StageEfficiency(df, stage, target_eff, start_year, goal_year)]: the
    value returned ([None] is Python's None) and the lines printed.  The plot
    drawn with [plotflag] is left out. *)
Definition sens_StageEfficiency (now : Z) (df : IndexedFrame) (stage : string)
    (target_eff : R) (start_year : option Z) (goal_year : Z)
  : option NaFrame * list string :=
  let start_year := start_year_or_now now start_year in
  if (goal_year <? start_year)%Z then
    (None, ["Error. Goal Year is before start year"]%string)
  else
    let scaled := scale_target target_eff in
    let warned :=
      if Rlt_dec 0 (Rabs target_eff) then
        (if Rlt_dec (Rabs target_eff) 1 then
           ["Warning: target_eff value is between 0 and 1; it has beenmultiplied by 100% assuming it was a percentage in decimal form."]%string
         else [])
      else [] in
    if Rlt_dec 100 scaled then
      (None, warned ++ ["Warning: target_eff is out of range. Input value between0 and 100"]%string)
    else if Rlt_dec scaled 0 then
      (None, warned ++ ["Warning: target_eff is out of range. Input value between0 and 100"]%string)
    else
      match getitem (columns (table df)) stage with
      | Some col =>
          let df2 := na_copy df in
          (Some (mkNaFrame (na_index df2) (na_nrows df2)
                   (dict_set (na_columns df2) stage
                      (interpolate
                         (zip_with (mask_stage start_year goal_year scaled)
                            (df_index df) col)))),
           warned)
      | None => (None, warned ++ ["Stage name incorrect."]%string)
      end.

Definition sample_original : dict nat := [("x", 1%nat); ("y", 2%nat)]%string.
Definition sample_moddict : dict nat := [("z", 5%nat); ("x", 7%nat)]%string.
Definition sample_modified_impacts : dict Impact :=
  [("Smog", mkImpact "" 10 "kg O3 eq")]%string.

(** A table of five years, 2020 to 2024, with one stage. *)
Definition sample_indexed : IndexedFrame :=
  mkIndexed [2020; 2021; 2022; 2023; 2024]%Z
    (mkFrame 5 [("mod_eff"%string, [10; 10; 10; 10; 10])]).

(** The invariant of a pandas frame: every column has one entry per row.  An
    assignment [df[c] = v] of a list of another length raises ValueError. *)
Definition wf_frame (df : DataFrame) : Prop :=
  Forall (fun kv => length (snd kv) = nrows df) (columns df).

(** * Properties *)

(** ** The Weibull fit *)

Lemma cabs_neg_real (x : R) : x < 0 -> Cplx.abs (Cplx.RtoC x) = - x.
Proof.
  intros Hx. unfold Cplx.abs, Cplx.RtoC. simpl.
  replace (x * x + 0 * 0) with (Rsqr (- x)) by (unfold Rsqr; ring).
  apply sqrt_Rsqr. lra.
Qed.

Lemma atan2_neg_real (x : R) : x < 0 -> Cplx.atan2 0 x = PI.
Proof.
  intros Hx. unfold Cplx.atan2.
  destruct (Rlt_dec 0 x) as [H|_]; [lra|].
  destruct (Rlt_dec x 0) as [_|H]; [|lra].
  destruct (Rle_dec 0 0) as [_|H]; [|lra].
  replace (0 / x) with 0 by (unfold Rdiv; ring).
  rewrite atan_0. ring.
Qed.

Lemma ln_neg_of_prob (c : R) : 0 < c < 1 -> ln (1 - c) < 0.
Proof.
  intros [H0 H1]. rewrite <- ln_1. apply ln_increasing; lra.
Qed.

(** For a probability in (0,1) the inner logarithm is negative, so the
    complex logarithm has real part [ln (- ln (1 - c))] and argument pi. *)
Lemma loglog_prob (c : R) :
  0 < c < 1 -> loglog c = Cplx.mkC (ln (- ln (1 - c))) PI.
Proof.
  intros Hc. pose proof (ln_neg_of_prob c Hc) as Hneg.
  unfold loglog, Cplx.log.
  rewrite cabs_neg_real by exact Hneg.
  unfold Cplx.RtoC. simpl.
  rewrite atan2_neg_real by exact Hneg. reflexivity.
Qed.

Lemma cabs_cexp (z : Cplx.C) : Cplx.abs (Cplx.exp z) = exp (Cplx.re z).
Proof.
  unfold Cplx.abs, Cplx.exp. simpl.
  replace (exp (Cplx.re z) * cos (Cplx.im z) * (exp (Cplx.re z) * cos (Cplx.im z)) +
           exp (Cplx.re z) * sin (Cplx.im z) * (exp (Cplx.re z) * sin (Cplx.im z)))
    with (Rsqr (exp (Cplx.re z)) * (Rsqr (sin (Cplx.im z)) + Rsqr (cos (Cplx.im z))))
    by (unfold Rsqr; ring).
  rewrite sin2_cos2, Rmult_1_r.
  apply sqrt_Rsqr. left. apply exp_pos.
Qed.

Lemma weibull_beta_exp (t1 c1 t2 c2 : R) :
  beta (weibull_params t1 c1 t2 c2)
  = exp (Cplx.re (weibull_beta_exponent t1 c1 t2 c2)).
Proof.
  unfold weibull_params. cbn [beta]. apply cabs_cexp.
Qed.

Lemma weibull_beta_pos (t1 c1 t2 c2 : R) : 0 < beta (weibull_params t1 c1 t2 c2).
Proof. rewrite weibull_beta_exp. apply exp_pos. Qed.

(** The imaginary part that [np.real_if_close] tests is exactly zero. *)
Lemma weibull_alpha_im (t1 c1 t2 c2 : R) :
  0 < c1 < 1 -> 0 < c2 < 1 ->
  Cplx.im (weibull_alpha_complex t1 c1 t2 c2) = 0.
Proof.
  intros H1 H2. unfold weibull_alpha_complex.
  rewrite (loglog_prob c1 H1), (loglog_prob c2 H2).
  unfold Cplx.div, Cplx.sub, Cplx.RtoC. simpl.
  unfold Rdiv. ring.
Qed.

Section Fit.

Variables t1 c1 t2 c2 : R.
Hypothesis Hc1 : 0 < c1 < 1.
Hypothesis Hc2 : 0 < c2 < 1.

Let a1 := ln (- ln (1 - c1)).
Let a2 := ln (- ln (1 - c2)).

Lemma weibull_alpha_value :
  ln t1 <> ln t2 ->
  alpha (weibull_params t1 c1 t2 c2) = (a1 - a2) / (ln t1 - ln t2).
Proof.
  intros Ht. unfold weibull_params, weibull_alpha_complex. cbn [alpha].
  rewrite (loglog_prob c1 Hc1), (loglog_prob c2 Hc2).
  unfold Cplx.div, Cplx.sub, Cplx.RtoC. simpl.
  fold a1 a2. field. lra.
Qed.

Lemma weibull_beta_value :
  a1 <> a2 ->
  beta (weibull_params t1 c1 t2 c2)
  = exp ((ln t2 * a1 - ln t1 * a2) / (a1 - a2)).
Proof.
  intros Ha. rewrite weibull_beta_exp. f_equal.
  unfold weibull_beta_exponent.
  rewrite (loglog_prob c1 Hc1), (loglog_prob c2 Hc2).
  unfold Cplx.div, Cplx.add, Cplx.sub, Cplx.mul, Cplx.RtoC, Cplx.Ci. simpl.
  fold a1 a2. replace (PI - PI) with 0 by ring. field. lra.
Qed.

Lemma exp_loglog (c : R) : 0 < c < 1 -> exp (- exp (ln (- ln (1 - c)))) = 1 - c.
Proof.
  intros Hc. pose proof (ln_neg_of_prob c Hc) as Hneg.
  rewrite exp_ln by lra.
  replace (- - ln (1 - c)) with (ln (1 - c)) by ring.
  apply exp_ln. lra.
Qed.

(** The fitted CDF at a positive age. *)
Lemma weibull_cdf_pos_age (x : R) :
  0 < x ->
  weibull_cdf (weibull_params t1 c1 t2 c2) x
  = 1 - exp (- exp (alpha (weibull_params t1 c1 t2 c2)
                    * (ln x - ln (beta (weibull_params t1 c1 t2 c2))))).
Proof.
  intros Hx. unfold weibull_cdf, np_power.
  pose proof (weibull_beta_pos t1 c1 t2 c2) as Hb.
  assert (Hq : 0 < x / beta (weibull_params t1 c1 t2 c2))
    by (apply Rdiv_lt_0_compat; assumption).
  destruct (Req_dec_T _ 0) as [H0|_]; [lra|].
  cbn [np_exp_neg]. unfold Rpower, Rdiv.
  rewrite ln_mult by (try apply Rinv_0_lt_compat; assumption).
  rewrite ln_Rinv by assumption. reflexivity.
Qed.

Lemma fit_through_keypoints :
  t1 <> t2 -> 0 < t1 -> 0 < t2 -> c1 <> c2 ->
  weibull_cdf (weibull_params t1 c1 t2 c2) t1 = c1 /\
  weibull_cdf (weibull_params t1 c1 t2 c2) t2 = c2.
Proof.
  intros Hne Ht1 Ht2 Hc.
  assert (Hln : ln t1 <> ln t2) by (intros E; apply Hne; apply ln_inv; assumption).
  assert (Ha : a1 <> a2).
  { intros E. unfold a1, a2 in E.
    pose proof (ln_neg_of_prob c1 Hc1). pose proof (ln_neg_of_prob c2 Hc2).
    apply ln_inv in E; try lra.
    assert (E' : ln (1 - c1) = ln (1 - c2)) by lra.
    apply ln_inv in E'; lra. }
  rewrite !weibull_cdf_pos_age by assumption.
  rewrite weibull_alpha_value by assumption.
  rewrite weibull_beta_value by assumption.
  rewrite ln_exp.
  replace ((a1 - a2) / (ln t1 - ln t2)
           * (ln t1 - (ln t2 * a1 - ln t1 * a2) / (a1 - a2))) with a1
    by (field; lra).
  replace ((a1 - a2) / (ln t1 - ln t2)
           * (ln t2 - (ln t2 * a1 - ln t1 * a2) / (a1 - a2))) with a2
    by (field; lra).
  unfold a1, a2. rewrite !exp_loglog by assumption. split; ring.
Qed.

End Fit.

(** C3 as stated fails when the two probabilities coincide: the fit through
    (1, 1/2) and (2, 1/2) has shape 0, its CDF is the constant [1 - exp (-1)]
    on positive ages, and that is above 1/2. *)
Lemma weibull_equal_cdf_counterexample :
  (1 <> 2 /\ 0 < 1 /\ 0 < 2 /\ 0 < 1/2 < 1) /\
  weibull_cdf (weibull_params 1 (1/2) 2 (1/2)) 1 <> 1/2.
Proof.
  split; [lra|].
  assert (Hal : alpha (weibull_params 1 (1/2) 2 (1/2)) = 0).
  { unfold weibull_params, weibull_alpha_complex, Cplx.div, Cplx.sub. simpl.
    unfold Rdiv. ring. }
  unfold weibull_cdf, np_power. rewrite Hal.
  pose proof (weibull_beta_pos 1 (1/2) 2 (1/2)) as Hb.
  assert (Hq : 0 < 1 / beta (weibull_params 1 (1/2) 2 (1/2)))
    by (apply Rdiv_lt_0_compat; lra).
  destruct (Req_dec_T _ 0) as [H0|_]; [lra|].
  simpl. unfold Rpower. rewrite Rmult_0_l, exp_0.
  assert (He : 2 < exp 1) by (pose proof (exp_ineq1 1); lra).
  rewrite exp_Ropp.
  assert (Hi : / exp 1 < / 2) by (apply Rinv_lt_contravar; lra).
  lra.
Qed.

(** C3, amended: with distinct probabilities the fitted CDF passes through
    both keypoints exactly; for the keypoints (t1, 0.5) and (t2, 0.9) the
    round trip is therefore within 1e-6 of 0.5 and 0.9. *)
Theorem weibull_round_trip :
  (forall t1 c1 t2 c2 : R,
      t1 <> t2 -> 0 < t1 -> 0 < t2 -> 0 < c1 < 1 -> 0 < c2 < 1 -> c1 <> c2 ->
      weibull_cdf (weibull_params t1 c1 t2 c2) t1 = c1 /\
      weibull_cdf (weibull_params t1 c1 t2 c2) t2 = c2) /\
  (forall t1 t2 : R,
      t1 <> t2 -> 0 < t1 -> 0 < t2 ->
      Rabs (weibull_cdf (weibull_params t1 0.5 t2 0.9) t1 - 0.5) <= 1e-6 /\
      Rabs (weibull_cdf (weibull_params t1 0.5 t2 0.9) t2 - 0.9) <= 1e-6).
Proof.
  split.
  - intros t1 c1 t2 c2 Hne H1 H2 Hc1 Hc2 Hc.
    apply fit_through_keypoints; assumption.
  - intros t1 t2 Hne H1 H2.
    destruct (fit_through_keypoints t1 0.5 t2 0.9) as [E1 E2]; try lra; try assumption.
    rewrite E1, E2.
    replace (0.5 - 0.5) with 0 by lra. replace (0.9 - 0.9) with 0 by lra.
    rewrite Rabs_R0. lra.
Qed.

Lemma weibull_round_trip_witness :
  weibull_cdf (weibull_params 10 0.5 20 0.9) 10 = 0.5 /\
  weibull_cdf (weibull_params 10 0.5 20 0.9) 20 = 0.9.
Proof.
  apply (proj1 weibull_round_trip 10 0.5 20 0.9); lra.
Defined.

(** The fit of a row with valid keypoints, 0 < t50 < t90. *)
Lemma row_alpha_pos (row : ModuleRow) :
  0 < mod_reliability_t50 row < mod_reliability_t90 row ->
  0 < alpha (weibull_params (mod_reliability_t50 row) 0.50
                            (mod_reliability_t90 row) 0.90).
Proof.
  intros [H50 H90].
  assert (Hln : ln (mod_reliability_t50 row) < ln (mod_reliability_t90 row))
    by (apply ln_increasing; lra).
  rewrite weibull_alpha_value by lra.
  assert (Hl1 : ln (1 - 0.50) < 0) by (apply ln_neg_of_prob; lra).
  assert (Hl2 : ln (1 - 0.90) < ln (1 - 0.50)) by (apply ln_increasing; lra).
  assert (Ha : ln (- ln (1 - 0.50)) < ln (- ln (1 - 0.90)))
    by (apply ln_increasing; lra).
  replace ((ln (- ln (1 - 0.50)) - ln (- ln (1 - 0.90)))
           / (ln (mod_reliability_t50 row) - ln (mod_reliability_t90 row)))
    with ((ln (- ln (1 - 0.90)) - ln (- ln (1 - 0.50)))
          / (ln (mod_reliability_t90 row) - ln (mod_reliability_t50 row)))
    by (field; lra).
  apply Rdiv_lt_0_compat; lra.
Qed.

Lemma row_cdf_zero (row : ModuleRow) :
  0 < mod_reliability_t50 row < mod_reliability_t90 row ->
  row_cdf row 0 = 0.
Proof.
  intros H. pose proof (row_alpha_pos row H) as Ha.
  unfold row_cdf, weibull_cdf, np_power.
  replace (0 / _) with 0 by (unfold Rdiv; ring).
  destruct (Req_dec_T 0 0) as [_|N]; [|lra].
  destruct (Rlt_dec 0 _) as [_|N]; [|lra].
  cbn [np_exp_neg]. rewrite Ropp_0, exp_0. ring.
Qed.

(** With the keypoints exchanged the fitted shape is negative, [0.0 ** alpha]
    is [inf] and the CDF is 1 at the clipped age 0. *)
Lemma row_alpha_neg (row : ModuleRow) :
  0 < mod_reliability_t90 row < mod_reliability_t50 row ->
  alpha (weibull_params (mod_reliability_t50 row) 0.50
                        (mod_reliability_t90 row) 0.90) < 0.
Proof.
  intros [H90 H50].
  assert (Hln : ln (mod_reliability_t90 row) < ln (mod_reliability_t50 row))
    by (apply ln_increasing; lra).
  rewrite weibull_alpha_value by lra.
  assert (Hl1 : ln (1 - 0.50) < 0) by (apply ln_neg_of_prob; lra).
  assert (Hl2 : ln (1 - 0.90) < ln (1 - 0.50)) by (apply ln_increasing; lra).
  assert (Ha : ln (- ln (1 - 0.50)) < ln (- ln (1 - 0.90)))
    by (apply ln_increasing; lra).
  replace ((ln (- ln (1 - 0.50)) - ln (- ln (1 - 0.90)))
           / (ln (mod_reliability_t50 row) - ln (mod_reliability_t90 row)))
    with (- ((ln (- ln (1 - 0.90)) - ln (- ln (1 - 0.50)))
             / (ln (mod_reliability_t50 row) - ln (mod_reliability_t90 row))))
    by (field; lra).
  apply Ropp_lt_gt_0_contravar. apply Rdiv_lt_0_compat; lra.
Qed.

Lemma row_cdf_zero_age_inverted (row : ModuleRow) :
  0 < mod_reliability_t90 row < mod_reliability_t50 row ->
  row_cdf row 0 = 1.
Proof.
  intros H. pose proof (row_alpha_neg row H) as Ha.
  unfold row_cdf, weibull_cdf, np_power.
  replace (0 / _) with 0 by (unfold Rdiv; ring).
  destruct (Req_dec_T 0 0) as [_|N]; [|lra].
  destruct (Rlt_dec 0 _) as [P|_]; [lra|].
  destruct (Req_dec_T _ 0) as [E|_]; [lra|].
  cbn [np_exp_neg]. ring.
Qed.

Lemma row_cdf_live (row : ModuleRow) (x : R) :
  0 < x -> 0 < row_cdf row x < 1.
Proof.
  intros Hx. unfold row_cdf. rewrite weibull_cdf_pos_age by assumption.
  match goal with |- 0 < 1 - exp (- exp ?e) < 1 => set (u := exp e) end.
  assert (Hu : 0 < u) by apply exp_pos.
  assert (H1 : exp (- u) < 1) by (rewrite <- exp_0; apply exp_increasing; lra).
  pose proof (exp_pos (- u)). lra.
Qed.

(** ** List and matrix lemmas *)

Lemma zip_with_length {A B D : Type} (f : A -> B -> D) (l1 : list A) (l2 : list B) :
  length (zip_with f l1 l2) = Nat.min (length l1) (length l2).
Proof.
  revert l2. induction l1 as [|a t IH]; intros [|b l2]; simpl; auto.
Qed.

Lemma zip_with_nth (f : R -> R -> R) (l1 l2 : list R) (i : nat) :
  (i < length l1)%nat -> (i < length l2)%nat ->
  nth i (zip_with f l1 l2) 0 = f (nth i l1 0) (nth i l2 0).
Proof.
  revert l2 i. induction l1 as [|a t IH]; intros [|b l2] i H1 H2; simpl in *; try lia.
  destruct i; [reflexivity|]. apply IH; lia.
Qed.

Lemma list_set_length {A : Type} (l : list A) (i : nat) (v : A) :
  length (list_set l i v) = length l.
Proof.
  revert i. induction l as [|a t IH]; intros [|i]; simpl; auto.
Qed.

Lemma list_set_nth_same {A : Type} (l : list A) (i : nat) (v d : A) :
  (i < length l)%nat -> nth i (list_set l i v) d = v.
Proof.
  revert i. induction l as [|a t IH]; intros [|i] H; simpl in *; try lia; auto.
  apply IH. lia.
Qed.

Lemma list_set_nth_other {A : Type} (l : list A) (i j : nat) (v d : A) :
  i <> j -> nth j (list_set l i v) d = nth j l d.
Proof.
  revert i j. induction l as [|a t IH]; intros [|i] [|j] H; simpl; auto; try lia.
Qed.

(** ** The clipped ages of a generation *)

Lemma clipped_age_before (i g : nat) : (i <= g)%nat -> Rmax (INR i - INR g) 0 = 0.
Proof.
  intros H. apply le_INR in H. apply Rmax_right. lra.
Qed.

Lemma clipped_age_after (i g : nat) :
  (g < i)%nat -> Rmax (INR i - INR g) 0 = INR i - INR g /\ 0 < INR i - INR g.
Proof.
  intros H. apply lt_INR in H. split; [apply Rmax_left|]; lra.
Qed.

Lemma clipped_ages_length (n g : nat) : length (clipped_ages n g) = n.
Proof. unfold clipped_ages. rewrite length_map, length_seq. reflexivity. Qed.

Lemma clipped_ages_nth (n g i : nat) :
  (i < n)%nat -> nth i (clipped_ages n g) 0 = Rmax (INR i - INR g) 0.
Proof.
  intros H. unfold clipped_ages.
  rewrite (nth_indep _ 0 (Rmax (INR 0 - INR g) 0))
    by (rewrite length_map, length_seq; exact H).
  rewrite (map_nth (fun i => Rmax (INR i - INR g) 0)), seq_nth by exact H.
  reflexivity.
Qed.

Lemma first_truthy_clipped (g len s : nat) :
  (s <= g + 1)%nat ->
  first_truthy (map (fun i => Rmax (INR i - INR g) 0) (seq s len)) s
  = if (g + 1 <? s + len)%nat then Some (g + 1)%nat else None.
Proof.
  revert s. induction len as [|len IH]; intros s Hs; simpl.
  - destruct (Nat.ltb_spec (g + 1) (s + 0)); [lia|reflexivity].
  - destruct (Req_dec_T (Rmax (INR s - INR g) 0) 0) as [E|N].
    + assert (Hle : (s <= g)%nat).
      { destruct (Nat.le_gt_cases s g) as [L|L]; [exact L|].
        destruct (clipped_age_after s g L) as [E1 E2]. lra. }
      rewrite IH by lia.
      replace (S s + len)%nat with (s + S len)%nat by lia. reflexivity.
    + assert (Hgt : (g < s)%nat).
      { destruct (Nat.le_gt_cases s g) as [L|L]; [|exact L].
        rewrite clipped_age_before in N by exact L. lra. }
      assert (s = g + 1)%nat by lia. subst s.
      destruct (Nat.ltb_spec (g + 1) (g + 1 + S len)); [reflexivity|lia].
Qed.

(** The index that receives the initial area is the install index of every
    generation of the frame; the [except] branch chooses it exactly for the
    generation installed in the last year. *)
Lemma fixinitialareacount_clipped (n g : nat) (cdf : list R) :
  (g < n)%nat -> length cdf = n ->
  fixinitialareacount (clipped_ages n g) cdf = (g, (n =? g + 1)%nat).
Proof.
  intros Hg Hlen. unfold fixinitialareacount, clipped_ages.
  rewrite first_truthy_clipped by lia. simpl.
  destruct (Nat.ltb_spec (g + 1) n) as [L|L].
  - replace (g + 1 - 1)%nat with g by lia.
    destruct (Nat.eqb_spec n (g + 1)); [lia|reflexivity].
  - rewrite Hlen. replace (n - 1)%nat with g by lia.
    destruct (Nat.eqb_spec n (g + 1)); [reflexivity|lia].
Qed.

Lemma fixinitialareacount_lt (n g : nat) (cdf : list R) :
  (g < n)%nat -> length cdf = n ->
  (fst (fixinitialareacount (clipped_ages n g) cdf) < length cdf)%nat.
Proof.
  intros Hg Hlen. rewrite fixinitialareacount_clipped by assumption.
  simpl. lia.
Qed.

(** ** The cohort loop *)

Section CohortLoop.

Variable df : list ModuleRow.
Variable generation : nat.
Variable row : ModuleRow.
Variable cdf : list R.

Local Abbreviation loop := (cohort_loop df generation row cdf).
Local Abbreviation step := (cohort_step df generation row cdf).

Lemma cohort_loop_S (k : nat) : loop (S k) = step (loop k) k.
Proof.
  unfold cohort_loop. rewrite seq_S, fold_left_app. reflexivity.
Qed.

(** Every pass appends one entry to each of the four sequences. *)
Lemma cohort_step_appends (st : CohortState) (age : nat) :
  exists a b c d,
    activeareacount (step st age) = activeareacount st ++ [a] /\
    areadisposed_failure (step st age) = areadisposed_failure st ++ [b] /\
    areadisposed_degradation (step st age) = areadisposed_degradation st ++ [c] /\
    areapowergen (step st age) = areapowergen st ++ [d].
Proof.
  unfold cohort_step. destruct (Req_dec_T (nth age cdf 0) 0); simpl; eauto 8.
Qed.

Lemma cohort_loop_length (k : nat) :
  length (activeareacount (loop k)) = k /\
  length (areadisposed_failure (loop k)) = k /\
  length (areadisposed_degradation (loop k)) = k /\
  length (areapowergen (loop k)) = k.
Proof.
  induction k as [|k IH].
  - unfold cohort_loop. simpl. auto.
  - rewrite cohort_loop_S.
    destruct (cohort_step_appends (loop k) k) as (a & b & c & d & Ha & Hb & Hc & Hd).
    rewrite Ha, Hb, Hc, Hd, !length_app. simpl. lia.
Qed.

(** Entries are never rewritten by later passes. *)
Lemma cohort_loop_stable (j k : nat) :
  (j < k)%nat ->
  nth j (activeareacount (loop k)) 0 = nth j (activeareacount (loop (S j))) 0 /\
  nth j (areadisposed_failure (loop k)) 0 = nth j (areadisposed_failure (loop (S j))) 0 /\
  nth j (areadisposed_degradation (loop k)) 0
    = nth j (areadisposed_degradation (loop (S j))) 0 /\
  nth j (areapowergen (loop k)) 0 = nth j (areapowergen (loop (S j))) 0.
Proof.
  induction k as [|k IH]; intros Hj; [lia|].
  destruct (Nat.eq_dec j k) as [->|Hne]; [auto|].
  destruct IH as (I1 & I2 & I3 & I4); [lia|].
  rewrite cohort_loop_S.
  destruct (cohort_step_appends (loop k) k) as (a & b & c & d & Ha & Hb & Hc & Hd).
  destruct (cohort_loop_length k) as (L1 & L2 & L3 & L4).
  rewrite Ha, Hb, Hc, Hd, !app_nth1 by lia. auto.
Qed.

(** A pass at an age whose CDF value is zero. *)
Lemma cohort_step_idle (k : nat) :
  nth k cdf 0 = 0 ->
  activearea (loop (S k)) = activearea (loop k) /\
  active (loop (S k)) = active (loop k) /\
  nth k (activeareacount (loop (S k))) 0 = 0 /\
  nth k (areadisposed_failure (loop (S k))) 0 = 0 /\
  nth k (areadisposed_degradation (loop (S k))) 0 = 0 /\
  nth k (areapowergen (loop (S k))) 0 = 0.
Proof.
  intros Hz. rewrite cohort_loop_S. unfold cohort_step.
  destruct (Req_dec_T (nth k cdf 0) 0) as [_|N]; [|contradiction].
  destruct (cohort_loop_length k) as (L1 & L2 & L3 & L4). simpl.
  repeat split; try reflexivity;
    match goal with
    | |- nth k (?l ++ _) 0 = _ =>
        replace k with (length l) at 1 by assumption; apply nth_middle
    end.
Qed.

(** A pass at an age whose CDF value is not zero: the area written is the
    running area, and the two disposals are what the running area lost. *)
Lemma cohort_step_live (k : nat) :
  nth k cdf 0 <> 0 ->
  nth k (activeareacount (loop (S k))) 0 = activearea (loop (S k)) /\
  nth k (areadisposed_failure (loop (S k))) 0
  + nth k (areadisposed_degradation (loop (S k))) 0
  + activearea (loop (S k)) = activearea (loop k) /\
  nth k (areadisposed_failure (loop (S k))) 0
  = activearea (loop k) * (nth k cdf 0 * (1 - mod_Repairing (iloc df k))) /\
  (activearea (loop (S k))
   = activearea (loop k) * (1 - nth k cdf 0 * (1 - mod_Repairing (iloc df k)))
   \/ activearea (loop (S k))
      = activearea (loop k) * (1 - nth k cdf 0 * (1 - mod_Repairing (iloc df k)))
        * mod_Repowering (iloc df k)) /\
  (INR k <> mod_lifetime row + INR generation ->
   nth k (areadisposed_degradation (loop (S k))) 0 = 0).
Proof.
  intros Hz. rewrite cohort_loop_S. unfold cohort_step.
  destruct (Req_dec_T (nth k cdf 0) 0) as [E|_]; [contradiction|].
  destruct (cohort_loop_length k) as (L1 & L2 & L3 & L4). simpl.
  replace (nth k (activeareacount (loop k) ++ _) 0)
    with (nth (length (activeareacount (loop k))) (activeareacount (loop k) ++
           [if Req_dec_T (INR k) (mod_lifetime row + INR generation)
            then 0 + activearea (loop k)
                     * (1 - nth k cdf 0 * (1 - mod_Repairing (iloc df k)))
                     * mod_Repowering (iloc df k)
            else activearea (loop k)
                 * (1 - nth k cdf 0 * (1 - mod_Repairing (iloc df k)))]) 0)
    by (rewrite L1; reflexivity).
  rewrite nth_middle.
  match goal with
  | |- _ /\ nth k (?l ++ [?v]) 0 + _ + _ = _ /\ _ =>
      replace (nth k (l ++ [v]) 0) with v
        by (symmetry; replace k with (length l) at 1 by assumption; apply nth_middle)
  end.
  match goal with
  | |- _ /\ _ + nth k (?l ++ [?v]) 0 + _ = _ /\ _ =>
      replace (nth k (l ++ [v]) 0) with v
        by (symmetry; replace k with (length l) at 1 by assumption; apply nth_middle)
  end.
  destruct (Req_dec_T (INR k) (mod_lifetime row + INR generation)).
  - split; [reflexivity|]. split; [ring|]. split; [ring|].
    split; [right; ring | intros N; contradiction].
  - split; [reflexivity|]. split; [ring|]. split; [ring|].
    split; [left; ring | intros _; reflexivity].
Qed.

End CohortLoop.

(** ** The trajectory of one generation *)

Section Trajectory.

Variable f : R -> R.
Variable df : list ModuleRow.
Variable generation : nat.
Variable row : ModuleRow.
Hypothesis Hgen : (generation < length df)%nat.

Local Abbreviation n := (length df).
Local Abbreviation cdf := (map f (clipped_ages (length df) generation)).
Local Abbreviation final := (cohort_loop df generation row cdf (length df)).
Local Abbreviation T := (generation_trajectory f df generation row).

Lemma cdf_length : length cdf = n.
Proof. rewrite length_map. apply clipped_ages_length. Qed.

Lemma cdf_nth (k : nat) :
  (k < n)%nat -> nth k cdf 0 = f (Rmax (INR k - INR generation) 0).
Proof.
  intros Hk. rewrite (nth_indep _ 0 (f 0)) by (rewrite cdf_length; exact Hk).
  rewrite map_nth, clipped_ages_nth by exact Hk. reflexivity.
Qed.

Lemma cdf_nth_before (k : nat) :
  (k < n)%nat -> (k <= generation)%nat -> nth k cdf 0 = f 0.
Proof.
  intros Hk Hle. rewrite cdf_nth, clipped_age_before by assumption. reflexivity.
Qed.

Lemma cdf_nth_after (k : nat) :
  (k < n)%nat -> (generation < k)%nat ->
  nth k cdf 0 = f (INR k - INR generation) /\ 0 < INR k - INR generation.
Proof.
  intros Hk Hlt. destruct (clipped_age_after k generation Hlt) as [E P].
  rewrite cdf_nth, E by assumption. auto.
Qed.

(** The trajectory, with the index of the initial-area fix resolved. *)
Lemma generation_trajectory_eq :
  T = mkTrajectory
        (list_set (activeareacount final) generation
           (nth generation (activeareacount final) 0 + Area row))
        (areadisposed_failure final)
        (areadisposed_degradation final)
        (list_set (areapowergen final) generation
           (nth generation
              (list_set (activeareacount final) generation
                 (nth generation (activeareacount final) 0 + Area row)) 0
            + Area row * mod_eff row * 0.01 * irradiance_stc))
        (if (n =? generation + 1)%nat then [finished_message] else []).
Proof.
  unfold generation_trajectory.
  rewrite (fixinitialareacount_clipped n generation cdf Hgen cdf_length).
  rewrite cdf_length. reflexivity.
Qed.

Lemma traj_lengths :
  length (traj_active T) = n /\ length (traj_failure T) = n /\
  length (traj_degradation T) = n /\ length (traj_power T) = n.
Proof.
  rewrite generation_trajectory_eq. simpl. rewrite !list_set_length.
  apply cohort_loop_length.
Qed.

(** The initial-area fix: the install index receives the full initial area on
    top of what the loop wrote there, and the power entry at that index is
    overwritten with that active area plus the power of the initial area. *)
Lemma traj_install_fix :
  nth generation (traj_active T) 0
  = nth generation (activeareacount final) 0 + Area row /\
  nth generation (traj_power T) 0
  = nth generation (activeareacount final) 0 + Area row
    + Area row * mod_eff row * 0.01 * irradiance_stc.
Proof.
  destruct (cohort_loop_length df generation row cdf n) as (L1 & _ & _ & L4).
  rewrite generation_trajectory_eq. simpl.
  rewrite !list_set_nth_same by lia. auto.
Qed.

Lemma traj_active_other (y : nat) :
  y <> generation -> nth y (traj_active T) 0 = nth y (activeareacount final) 0.
Proof.
  intros Hy. rewrite generation_trajectory_eq. simpl.
  apply list_set_nth_other. auto.
Qed.

Lemma traj_power_other (y : nat) :
  y <> generation -> nth y (traj_power T) 0 = nth y (areapowergen final) 0.
Proof.
  intros Hy. rewrite generation_trajectory_eq. simpl.
  apply list_set_nth_other. auto.
Qed.

Lemma traj_failure_eq : traj_failure T = areadisposed_failure final.
Proof. rewrite generation_trajectory_eq. reflexivity. Qed.

Lemma traj_degradation_eq : traj_degradation T = areadisposed_degradation final.
Proof. rewrite generation_trajectory_eq. reflexivity. Qed.

(** *** Up to the install year *)

Hypothesis Hf0 : f 0 = 0.

(** Until the first age after installation the loop leaves its running
    variables alone. *)
Lemma loop_before_install (k : nat) :
  (k <= generation + 1)%nat -> (k <= n)%nat ->
  activearea (cohort_loop df generation row cdf k) = Area row /\
  active (cohort_loop df generation row cdf k) = (-1)%Z.
Proof.
  induction k as [|k IH]; intros H1 H2.
  - unfold cohort_loop. simpl. auto.
  - destruct IH as [IA IB]; try lia.
    assert (Hz : nth k cdf 0 = 0) by (rewrite cdf_nth_before by lia; exact Hf0).
    destruct (cohort_step_idle df generation row cdf k Hz) as (E1 & E2 & _).
    rewrite E1, E2. auto.
Qed.

Lemma final_before_install (y : nat) :
  (y <= generation)%nat ->
  nth y (activeareacount final) 0 = 0 /\
  nth y (areadisposed_failure final) 0 = 0 /\
  nth y (areadisposed_degradation final) 0 = 0 /\
  nth y (areapowergen final) 0 = 0.
Proof.
  intros Hy.
  assert (Hz : nth y cdf 0 = 0) by (rewrite cdf_nth_before by lia; exact Hf0).
  destruct (cohort_loop_stable df generation row cdf y n) as (S1 & S2 & S3 & S4); [lia|].
  destruct (cohort_step_idle df generation row cdf y Hz) as (_ & _ & Z1 & Z2 & Z3 & Z4).
  rewrite S1, S2, S3, S4. auto.
Qed.

(** *** Bounds of the running area *)

Hypothesis Hcdf : forall x : R, 0 <= x -> 0 <= f x <= 1.
Hypothesis Hrates : forall r : ModuleRow,
    In r df -> 0 <= mod_Repairing r <= 1 /\ 0 <= mod_Repowering r <= 1.
Hypothesis Harea : 0 <= Area row.

Lemma loop_step_bounds (k : nat) :
  (k < n)%nat ->
  0 <= activearea (cohort_loop df generation row cdf k) ->
  0 <= activearea (cohort_loop df generation row cdf (S k))
  <= activearea (cohort_loop df generation row cdf k).
Proof.
  intros Hk Hpos.
  destruct (Req_dec_T (nth k cdf 0) 0) as [Hz|Hnz].
  - destruct (cohort_step_idle df generation row cdf k Hz) as (E & _).
    rewrite E. lra.
  - destruct (cohort_step_live df generation row cdf k Hnz) as (_ & _ & _ & Hor & _).
    assert (Hin : In (iloc df k) df) by (apply nth_In; exact Hk).
    destruct (Hrates _ Hin) as [Hrep Hpow].
    assert (Hc : 0 <= nth k cdf 0 <= 1)
      by (rewrite cdf_nth by exact Hk; apply Hcdf; apply Rmax_r).
    set (a := activearea (cohort_loop df generation row cdf k)) in *.
    set (c := nth k cdf 0) in *.
    set (rp := mod_Repairing (iloc df k)) in *.
    set (rw := mod_Repowering (iloc df k)) in *.
    assert (Hq : 0 <= 1 - c * (1 - rp) <= 1) by nra.
    assert (Ha1 : 0 <= a * (1 - c * (1 - rp)) <= a) by nra.
    destruct Hor as [-> | ->]; [exact Ha1|]. nra.
Qed.

Lemma loop_nonneg (k : nat) :
  (k <= n)%nat -> 0 <= activearea (cohort_loop df generation row cdf k).
Proof.
  induction k as [|k IH]; intros Hk.
  - unfold cohort_loop. simpl. exact Harea.
  - apply loop_step_bounds; [lia|]. apply IH. lia.
Qed.

End Trajectory.

(** ** Sums over a sequence *)

Lemma Rsum_app (l1 l2 : list R) : Rsum (l1 ++ l2) = Rsum l1 + Rsum l2.
Proof.
  unfold Rsum. induction l1 as [|a t IH]; simpl; [ring|]. rewrite IH. ring.
Qed.

Lemma Rsum_zip_plus (a b : list R) :
  length a = length b -> Rsum (zip_with Rplus a b) = Rsum a + Rsum b.
Proof.
  unfold Rsum. revert b. induction a as [|x t IH]; intros [|y b] H; simpl in *;
    try discriminate; [ring|].
  rewrite IH by lia. ring.
Qed.

(** ** Passes with a zero and with a nonzero CDF value *)

Section LoopBalance.

Variable df : list ModuleRow.
Variable generation : nat.
Variable row : ModuleRow.
Variable cdf : list R.

Local Abbreviation loop := (cohort_loop df generation row cdf).

(** Whatever the CDF values: what the passes so far recorded as disposed and
    the running area add up to the initial area. *)
Lemma loop_balance (k : nat) :
  Rsum (areadisposed_failure (loop k)) + Rsum (areadisposed_degradation (loop k))
  + activearea (loop k) = Area row.
Proof.
  induction k as [|k IH].
  - unfold cohort_loop, Rsum. simpl. ring.
  - rewrite cohort_loop_S. unfold cohort_step.
    destruct (Req_dec_T (nth k cdf 0) 0); cbn [areadisposed_failure
      areadisposed_degradation activearea]; rewrite !Rsum_app; unfold Rsum at 2 4;
      simpl fold_right.
    + rewrite <- IH. ring.
    + rewrite <- IH.
      destruct (Req_dec_T (INR k) (mod_lifetime row + INR generation)); ring.
Qed.

(** The degradation disposal of a pass is zero unless the age is the
    end-of-life age of the generation. *)
Lemma loop_degradation_zero (k : nat) :
  INR k <> mod_lifetime row + INR generation ->
  nth k (areadisposed_degradation (loop (S k))) 0 = 0.
Proof.
  intros Hne. destruct (Req_dec_T (nth k cdf 0) 0) as [Hz|Hnz].
  - destruct (cohort_step_idle df generation row cdf k Hz) as (_ & _ & _ & _ & Z & _).
    exact Z.
  - destruct (cohort_step_live df generation row cdf k Hnz) as (_ & _ & _ & _ & Z).
    apply Z, Hne.
Qed.

(** A live pass at the end-of-life age: repowering keeps the share
    [mod_Repowering] of what failure left and disposes of the rest. *)
Lemma loop_end_of_life (k : nat) :
  nth k cdf 0 <> 0 ->
  INR k = mod_lifetime row + INR generation ->
  let survived := activearea (loop k) - nth k (areadisposed_failure (loop (S k))) 0 in
  activearea (loop (S k)) = survived * mod_Repowering (iloc df k) /\
  nth k (areadisposed_degradation (loop (S k))) 0
  = survived * (1 - mod_Repowering (iloc df k)).
Proof.
  intros Hnz Heol. rewrite cohort_loop_S. unfold cohort_step.
  destruct (Req_dec_T (nth k cdf 0) 0) as [E|_]; [contradiction|].
  destruct (Req_dec_T (INR k) (mod_lifetime row + INR generation)) as [_|N];
    [|contradiction].
  destruct (cohort_loop_length df generation row cdf k) as (_ & L2 & L3 & _).
  cbn [areadisposed_failure areadisposed_degradation activearea].
  replace (nth k (areadisposed_failure (loop k) ++ _) 0)
    with (activearea (loop k)
          - activearea (loop k)
            * (1 - nth k cdf 0 * (1 - mod_Repairing (iloc df k)))).
  2:{ symmetry. rewrite <- L2 at 1. apply nth_middle. }
  match goal with
  | |- _ /\ nth k (?l ++ [?v]) 0 = _ =>
      replace (nth k (l ++ [v]) 0) with v
        by (symmetry; rewrite <- L3 at 1; apply nth_middle)
  end.
  split; ring.
Qed.

(** A live pass: the counter of live passes grows by one and the power
    written is the area written, times efficiency and irradiance, degraded
    once per earlier live pass. *)
Lemma loop_live_power (k : nat) :
  nth k cdf 0 <> 0 ->
  active (loop (S k)) = (active (loop k) + 1)%Z /\
  nth k (areapowergen (loop (S k))) 0
  = activearea (loop (S k)) * mod_eff row * 0.01 * irradiance_stc
    * powerRZ (1 - mod_degradation row / 100) (active (loop k) + 1).
Proof.
  intros Hnz. rewrite cohort_loop_S. unfold cohort_step.
  destruct (Req_dec_T (nth k cdf 0) 0) as [E|_]; [contradiction|].
  destruct (cohort_loop_length df generation row cdf k) as (_ & _ & _ & L4).
  cbn [active areapowergen activearea].
  split; [reflexivity|].
  rewrite <- L4 at 1. apply nth_middle.
Qed.

End LoopBalance.

Section Bounds.

Variable f : R -> R.
Variable df : list ModuleRow.
Variable generation : nat.
Variable row : ModuleRow.
Hypothesis Hgen : (generation < length df)%nat.
Hypothesis Hcdf : forall x : R, 0 <= x -> 0 <= f x <= 1.
Hypothesis Hrates : forall r : ModuleRow,
    In r df -> 0 <= mod_Repairing r <= 1 /\ 0 <= mod_Repowering r <= 1.
Hypothesis Harea : 0 <= Area row.

Local Abbreviation n := (length df).
Local Abbreviation cdf := (map f (clipped_ages (length df) generation)).
Local Abbreviation loop := (cohort_loop df generation row cdf).
Local Abbreviation T := (generation_trajectory f df generation row).

Lemma loop_le_area (k : nat) : (k <= n)%nat -> activearea (loop k) <= Area row.
Proof.
  induction k as [|k IH]; intros Hk.
  - unfold cohort_loop. simpl. lra.
  - destruct (loop_step_bounds f df generation row Hcdf Hrates k) as [_ B]; [lia| |].
    + apply (loop_nonneg f df generation row Hgen Hcdf Hrates Harea). lia.
    + specialize (IH ltac:(lia)). lra.
Qed.

(** What a pass writes is never negative, and never more than the initial
    area is disposed of in one year. *)
Lemma loop_entries_nonneg (y : nat) :
  (y < n)%nat ->
  0 <= nth y (activeareacount (loop (S y))) 0 /\
  0 <= nth y (areadisposed_failure (loop (S y))) 0 /\
  0 <= nth y (areadisposed_degradation (loop (S y))) 0 /\
  nth y (areadisposed_failure (loop (S y))) 0
  + nth y (areadisposed_degradation (loop (S y))) 0 <= Area row.
Proof.
  intros Hy.
  pose proof (loop_nonneg f df generation row Hgen Hcdf Hrates Harea y ltac:(lia)) as P0.
  pose proof (loop_le_area y ltac:(lia)) as P1.
  destruct (loop_step_bounds f df generation row Hcdf Hrates y Hy P0) as [Q0 Q1].
  destruct (Req_dec_T (nth y cdf 0) 0) as [Hz|Hnz].
  - destruct (cohort_step_idle df generation row cdf y Hz) as (_ & _ & Z1 & Z2 & Z3 & _).
    rewrite Z1, Z2, Z3. lra.
  - destruct (cohort_step_live df generation row cdf y Hnz) as (L1 & L2 & L3 & _ & Hd).
    assert (Hin : In (iloc df y) df) by (apply nth_In; exact Hy).
    destruct (Hrates _ Hin) as [Hrep Hpow].
    assert (Hc : 0 <= nth y cdf 0 <= 1)
      by (rewrite (cdf_nth f df generation y Hy); apply Hcdf, Rmax_r).
    assert (Hfail : 0 <= nth y (areadisposed_failure (loop (S y))) 0
                    <= activearea (loop y)).
    { rewrite L3.
      set (a := activearea (loop y)) in *. set (c := nth y cdf 0) in *.
      set (rp := mod_Repairing (iloc df y)) in *.
      assert (0 <= c * (1 - rp) <= 1) by nra. nra. }
    assert (Hdeg : 0 <= nth y (areadisposed_degradation (loop (S y))) 0).
    { destruct (Req_dec_T (INR y) (mod_lifetime row + INR generation)) as [E|N].
      - destruct (loop_end_of_life df generation row cdf y Hnz E) as [_ D].
        rewrite D. apply Rmult_le_pos; lra.
      - rewrite (Hd N). lra. }
    rewrite L1. repeat split; lra.
Qed.

Lemma traj_entries_nonneg (y : nat) :
  (y < n)%nat ->
  0 <= nth y (traj_active T) 0 /\
  0 <= nth y (traj_failure T) 0 /\
  0 <= nth y (traj_degradation T) 0 /\
  nth y (traj_failure T) 0 + nth y (traj_degradation T) 0 <= Area row.
Proof.
  intros Hy.
  destruct (loop_entries_nonneg y Hy) as (N1 & N2 & N3 & N4).
  destruct (cohort_loop_stable df generation row cdf y n) as (S1 & S2 & S3 & _); [lia|].
  rewrite (traj_failure_eq f df generation row Hgen).
  rewrite (traj_degradation_eq f df generation row Hgen).
  rewrite S2, S3. split; [|auto].
  destruct (Nat.eq_dec y generation) as [->|Hne].
  - destruct (traj_install_fix f df generation row Hgen) as [Fx _].
    rewrite Fx, S1. lra.
  - rewrite (traj_active_other f df generation row Hgen) by exact Hne.
    rewrite S1. exact N1.
Qed.

End Bounds.

(** The trajectory of a generation whose closure is 0 at the clipped age 0,
    with the years after the install year told apart by the branch their
    pass takes.  In exact arithmetic the CDF of a fit with a positive shape
    is nonzero at every positive age; in binary64 [1 - np.exp(-v)] is 0.0
    once [v] is below about 1.1e-16, so the pass of a year after the install
    year can take the branch of [cdf[age] == 0.0] as well. *)
Section LiveYears.

Variable f : R -> R.
Variable df : list ModuleRow.
Variable generation : nat.
Variable row : ModuleRow.
Hypothesis Hgen : (generation < length df)%nat.

Local Abbreviation n := (length df).
Local Abbreviation cdf := (map f (clipped_ages (length df) generation)).
Local Abbreviation loop := (cohort_loop df generation row cdf).
Local Abbreviation T := (generation_trajectory f df generation row).

Lemma cdf_at_after (k : nat) :
  (generation < k)%nat -> (k < n)%nat ->
  cdf_at f df generation k = f (INR k - INR generation).
Proof.
  intros Hg Hk. unfold cdf_at.
  destruct (cdf_nth_after f df generation k Hk Hg) as [E _]. exact E.
Qed.

(** A year other than the install year whose pass finds the CDF value 0:
    the four sequences hold 0. *)
Lemma recorded_idle (y : nat) :
  (y < n)%nat -> y <> generation -> cdf_at f df generation y = 0 ->
  nth y (traj_active T) 0 = 0 /\ nth y (traj_failure T) 0 = 0 /\
  nth y (traj_degradation T) 0 = 0 /\ nth y (traj_power T) 0 = 0.
Proof.
  intros Hy Hne Hz. unfold cdf_at in Hz.
  rewrite (traj_active_other f df generation row Hgen y Hne).
  rewrite (traj_power_other f df generation row Hgen y Hne).
  rewrite (traj_failure_eq f df generation row Hgen).
  rewrite (traj_degradation_eq f df generation row Hgen).
  destruct (cohort_loop_stable df generation row cdf y n) as (S1 & S2 & S3 & S4); [lia|].
  destruct (cohort_step_idle df generation row cdf y Hz) as (_ & _ & Z1 & Z2 & Z3 & Z4).
  rewrite S1, S2, S3, S4. auto.
Qed.

(** A year other than the install year whose pass finds a nonzero CDF
    value: the area recorded is the running area the pass leaves. *)
Lemma recorded_live (y : nat) :
  (y < n)%nat -> y <> generation -> cdf_at f df generation y <> 0 ->
  nth y (traj_active T) 0 = activearea (loop (S y)).
Proof.
  intros Hy Hne Hnz. unfold cdf_at in Hnz.
  rewrite (traj_active_other f df generation row Hgen y Hne).
  destruct (cohort_loop_stable df generation row cdf y n) as (S1 & _); [lia|].
  destruct (cohort_step_live df generation row cdf y Hnz) as (L1 & _).
  rewrite S1. exact L1.
Qed.

(** *** The counter of live passes *)

Lemma live_passes_S (k : nat) :
  live_passes f df generation (S k)
  = (live_passes f df generation k
     + if Req_dec_T (cdf_at f df generation k) 0 then 0 else 1)%nat.
Proof.
  unfold live_passes. rewrite seq_S, filter_app, length_app. simpl.
  destruct (Req_dec_T (cdf_at f df generation k) 0); reflexivity.
Qed.

Lemma loop_counter (k : nat) :
  active (loop k) = (Z.of_nat (live_passes f df generation k) - 1)%Z.
Proof.
  induction k as [|k IH]; [reflexivity|].
  rewrite live_passes_S.
  destruct (Req_dec_T (cdf_at f df generation k) 0) as [Hz|Hnz]; unfold cdf_at in *.
  - destruct (cohort_step_idle df generation row cdf k Hz) as (_ & A & _).
    rewrite A, IH. lia.
  - destruct (loop_live_power df generation row cdf k Hnz) as [A _].
    rewrite A, IH. lia.
Qed.

Lemma live_power (y : nat) :
  (y < n)%nat -> y <> generation -> cdf_at f df generation y <> 0 ->
  nth y (traj_power T) 0
  = nth y (traj_active T) 0 * mod_eff row * 0.01 * irradiance_stc
    * (1 - mod_degradation row / 100) ^ live_passes f df generation y.
Proof.
  intros Hy Hne Hnz.
  rewrite recorded_live by assumption.
  rewrite (traj_power_other f df generation row Hgen y Hne).
  unfold cdf_at in Hnz.
  destruct (cohort_loop_stable df generation row cdf y n) as (_ & _ & _ & S4); [lia|].
  destruct (loop_live_power df generation row cdf y Hnz) as [_ P].
  rewrite S4, P, loop_counter.
  replace (Z.of_nat (live_passes f df generation y) - 1 + 1)%Z
    with (Z.of_nat (live_passes f df generation y)) by lia.
  rewrite <- pow_powerRZ. reflexivity.
Qed.

(** *** A closure that is 0 at the clipped age 0 *)

Hypothesis Hf0 : f 0 = 0.

Lemma cdf_at_before (k : nat) :
  (k <= generation)%nat -> cdf_at f df generation k = 0.
Proof.
  intros Hk. unfold cdf_at. rewrite (cdf_nth_before f df generation k) by lia.
  exact Hf0.
Qed.

(** The area recorded at the install year is the running area the first pass
    after it starts from. *)
Lemma recorded_install :
  nth generation (traj_active T) 0 = Area row /\
  activearea (loop (S generation)) = Area row.
Proof.
  destruct (traj_install_fix f df generation row Hgen) as [Fx _].
  destruct (final_before_install f df generation row Hgen Hf0 generation) as (Z & _);
    [lia|].
  destruct (loop_before_install f df generation row Hgen Hf0 (S generation)) as [A _];
    try lia.
  rewrite Fx, Z, A. split; [ring|reflexivity].
Qed.

(** The area recorded at the year before [y] is the running area the pass of
    [y] starts from, when that year is the install year or its pass found a
    nonzero CDF value. *)
Lemma recorded_prev (y : nat) :
  (generation < y)%nat -> (y < n)%nat ->
  (y = generation + 1)%nat \/ cdf_at f df generation (y - 1) <> 0 ->
  nth (y - 1) (traj_active T) 0 = activearea (loop y).
Proof.
  intros Hg Hy Hprev.
  destruct (Nat.eq_dec y (generation + 1)) as [E|N].
  - subst y. replace (generation + 1 - 1)%nat with generation by lia.
    destruct recorded_install as [A B].
    rewrite A. replace (generation + 1)%nat with (S generation) by lia.
    symmetry. exact B.
  - destruct Hprev as [E|Hnz]; [contradiction|].
    rewrite recorded_live by (lia || exact Hnz).
    replace (S (y - 1)) with y by lia. reflexivity.
Qed.



(** *** The end-of-life year *)

Lemma live_end_of_life (y : nat) :
  (generation < y)%nat -> (y < n)%nat ->
  INR y = mod_lifetime row + INR generation ->
  cdf_at f df generation y <> 0 ->
  (y = generation + 1)%nat \/ cdf_at f df generation (y - 1) <> 0 ->
  let survived := nth (y - 1) (traj_active T) 0 - nth y (traj_failure T) 0 in
  nth y (traj_active T) 0 = survived * mod_Repowering (iloc df y) /\
  nth y (traj_degradation T) 0 = survived * (1 - mod_Repowering (iloc df y)).
Proof.
  intros Hg Hy Heol Hnz Hprev survived. unfold survived.
  rewrite recorded_prev by assumption.
  rewrite recorded_live by (lia || exact Hnz).
  rewrite (traj_failure_eq f df generation row Hgen).
  rewrite (traj_degradation_eq f df generation row Hgen).
  destruct (cohort_loop_stable df generation row cdf y n) as (_ & S2 & S3 & _); [lia|].
  destruct (loop_end_of_life df generation row cdf y Hnz Heol) as [E1 E2].
  rewrite S2, S3. auto.
Qed.

(** *** The whole horizon *)

Lemma live_horizon_balance :
  (n - 1)%nat = generation \/ cdf_at f df generation (n - 1) <> 0 ->
  Rsum (zip_with Rplus (traj_failure T) (traj_degradation T))
  + nth (n - 1) (traj_active T) 0 = Area row.
Proof.
  intros Hlast.
  destruct (cohort_loop_length df generation row cdf n) as (_ & L2 & L3 & _).
  rewrite (traj_failure_eq f df generation row Hgen).
  rewrite (traj_degradation_eq f df generation row Hgen).
  rewrite Rsum_zip_plus by congruence.
  rewrite <- (loop_balance df generation row cdf n). f_equal.
  destruct (Nat.eq_dec (n - 1) generation) as [E|N].
  - rewrite E. destruct recorded_install as [A _]. rewrite A.
    destruct (loop_before_install f df generation row Hgen Hf0 n) as [B _]; try lia.
    symmetry. exact B.
  - destruct Hlast as [E|Hnz]; [contradiction|].
    rewrite recorded_live by (lia || exact Hnz).
    replace (S (n - 1)) with n by lia. reflexivity.
Qed.

Lemma live_passes_before_install (k : nat) :
  (k <= generation + 1)%nat -> live_passes f df generation k = 0%nat.
Proof.
  induction k as [|k IH]; intros Hk; [reflexivity|].
  rewrite live_passes_S, IH by lia.
  destruct (Req_dec_T (cdf_at f df generation k) 0) as [_|N]; [reflexivity|].
  exfalso. apply N. apply cdf_at_before. lia.
Qed.

Lemma live_passes_all (y : nat) :
  (generation < y)%nat ->
  (forall k, (generation < k < y)%nat -> cdf_at f df generation k <> 0) ->
  live_passes f df generation y = (y - generation - 1)%nat.
Proof.
  induction y as [|y IH]; intros Hg Hall; [lia|].
  destruct (Nat.eq_dec y generation) as [->|Hne].
  - rewrite live_passes_before_install by lia. lia.
  - rewrite live_passes_S, IH by (try lia; intros k Hk; apply Hall; lia).
    destruct (Req_dec_T (cdf_at f df generation y) 0) as [Hz|_].
    + exfalso. apply (Hall y); [lia|exact Hz].
    + lia.
Qed.

(** *** The surviving share *)

(** A pass with the CDF value 0 leaves the running area alone, as the factor
    [1 - 0 * (1 - repair)] does. *)
Lemma loop_survival (m : nat) :
  (generation + m < n)%nat ->
  (forall k, (generation < k <= generation + m)%nat ->
             INR k <> mod_lifetime row + INR generation) ->
  activearea (loop (S (generation + m))) = Area row * survival f df generation m.
Proof.
  induction m as [|m IH]; intros Hm Hno.
  - rewrite Nat.add_0_r. destruct recorded_install as [_ A]. rewrite A. simpl. ring.
  - cbn [survival]. rewrite <- (cdf_at_after (generation + S m)) by lia.
    rewrite Nat.add_succ_r in *.
    specialize (IH ltac:(lia) ltac:(intros k Hk; apply Hno; lia)).
    destruct (Req_dec_T (cdf_at f df generation (S (generation + m))) 0) as [Hz|Hnz].
    + rewrite Hz. unfold cdf_at in Hz.
      destruct (cohort_step_idle df generation row cdf (S (generation + m)) Hz)
        as (A & _).
      rewrite A, IH. ring.
    + unfold cdf_at in *.
      destruct (cohort_step_live df generation row cdf (S (generation + m)) Hnz)
        as (_ & L2 & L3 & _ & Hd).
      rewrite Hd in L2 by (apply Hno; lia).
      rewrite IH in L2, L3. lra.
Qed.

(** *** Monotonicity *)

Hypothesis Hcdf : forall x : R, 0 <= x -> 0 <= f x <= 1.
Hypothesis Hrates : forall r : ModuleRow,
    In r df -> 0 <= mod_Repairing r <= 1 /\ 0 <= mod_Repowering r <= 1.
Hypothesis Harea : 0 <= Area row.


End LiveYears.

(** ** The generations of a frame *)

Lemma trajectories_from_length (F : ModuleRow -> R -> R) (df rows : list ModuleRow) (g0 : nat) :
  length (trajectories_from F df g0 rows) = length rows.
Proof.
  revert g0. induction rows as [|r rest IH]; intros g0; simpl; auto.
Qed.

Lemma trajectories_from_nth (F : ModuleRow -> R -> R) (df rows : list ModuleRow)
    (g0 g : nat) (d : Trajectory) :
  (g < length rows)%nat ->
  nth g (trajectories_from F df g0 rows) d
  = generation_trajectory (F (nth g rows zero_row)) df (g0 + g) (nth g rows zero_row).
Proof.
  revert g0 g. induction rows as [|r rest IH]; intros g0 g Hg; simpl in *; [lia|].
  destruct g as [|g].
  - rewrite Nat.add_0_r. reflexivity.
  - rewrite IH by lia. replace (S g0 + g)%nat with (g0 + S g)%nat by lia. reflexivity.
Qed.

(** The trajectory the aggregation keeps for generation [g] is the one the
    loop body computes from row [g]. *)
Lemma trajectories_nth (F : ModuleRow -> R -> R) (df : list ModuleRow) (g : nat)
    (d : Trajectory) :
  (g < length df)%nat ->
  nth g (trajectories F df) d
  = generation_trajectory (F (iloc df g)) df g (iloc df g).
Proof.
  intros Hg. unfold trajectories. rewrite trajectories_from_nth by exact Hg.
  reflexivity.
Qed.

Lemma disposed_entry (F : ModuleRow -> R -> R) (df : list ModuleRow) (g y : nat) :
  (g < length df)%nat -> (y < length df)%nat ->
  nth y (nth g (Generation_Disposed_byYear F df) []) 0
  = nth y (traj_failure (generation_trajectory (F (iloc df g)) df g (iloc df g))) 0
    + nth y (traj_degradation (generation_trajectory (F (iloc df g)) df g (iloc df g))) 0.
Proof.
  intros Hg Hy. unfold Generation_Disposed_byYear.
  set (h := fun t => zip_with Rplus (traj_failure t) (traj_degradation t)).
  rewrite (nth_indep _ [] (h (mkTrajectory [] [] [] [] [])))
    by (rewrite length_map; unfold trajectories;
        rewrite trajectories_from_length; exact Hg).
  rewrite map_nth, trajectories_nth by exact Hg. unfold h.
  destruct (traj_lengths (F (iloc df g)) df g (iloc df g) Hg) as (_ & L2 & L3 & _).
  apply zip_with_nth; lia.
Qed.

Lemma inverted_area : Area inverted_row = 5000.
Proof.
  unfold Area, irradiance_stc, inverted_row.
  cbn [new_Installed_Capacity_MW mod_eff]. lra.
Qed.

Lemma inverted_cdf_one : row_cdf inverted_row 0 = 1.
Proof. apply row_cdf_zero_age_inverted. simpl. lra. Qed.

(** The loop of a generation of [inverted_df]: the CDF is 1 at the clipped
    age 0, so the first pass disposes of the whole initial area as failed and
    the running area is 0 from then on. *)
Lemma inverted_loop (g : nat) :
  (g < 3)%nat ->
  let cdf := map (row_cdf inverted_row) (clipped_ages 3 g) in
  (0 < g)%nat ->
  nth 0 (areadisposed_failure (cohort_loop inverted_df g inverted_row cdf 3)) 0 = 5000 /\
  nth 0 (areadisposed_degradation (cohort_loop inverted_df g inverted_row cdf 3)) 0 = 0 /\
  activearea (cohort_loop inverted_df g inverted_row cdf 1) = 0.
Proof.
  intros Hg cdf Hpos.
  assert (Hg' : (g < length inverted_df)%nat) by (simpl; lia).
  assert (Hc0 : nth 0 cdf 0 = 1).
  { unfold cdf.
    pose proof (cdf_nth_before (row_cdf inverted_row) inverted_df g 0) as E.
    change (length inverted_df) with 3%nat in E.
    rewrite E by lia. apply inverted_cdf_one. }
  assert (Hnz : nth 0 cdf 0 <> 0) by (rewrite Hc0; lra).
  destruct (cohort_step_live inverted_df g inverted_row cdf 0 Hnz)
    as (_ & L2 & L3 & Hor & Hd).
  destruct (cohort_loop_stable inverted_df g inverted_row cdf 0 3)
    as (_ & S2 & S3 & _); [lia|].
  assert (A0 : activearea (cohort_loop inverted_df g inverted_row cdf 0) = 5000)
    by (unfold cohort_loop; simpl; apply inverted_area).
  assert (Hrep : mod_Repairing (iloc inverted_df 0) = 0) by reflexivity.
  rewrite Hc0, Hrep, A0 in L3, Hor.
  split; [rewrite S2, L3; lra|]. split.
  - rewrite S3. apply Hd. unfold inverted_row. cbn [mod_lifetime].
    pose proof (pos_INR g). simpl. lra.
  - destruct Hor as [-> | ->]; lra.
Qed.

(** C5 as stated fails for a generation whose keypoints are exchanged: in
    [inverted_df] (t50 = 20, t90 = 10) the fitted CDF is 1 at the clipped
    age 0, and generation 1 disposes of its 5000 m2 in year 0, before its
    install year. *)
Lemma disposal_before_install_counterexample :
  (0 < 1)%nat /\
  row_cdf (iloc inverted_df 1) 0 = 1 /\
  nth 0 (nth 1 (EOL (calculate_module inverted_df)) []) 0 = 5000.
Proof.
  split; [lia|]. split; [apply inverted_cdf_one|].
  assert (Hg : (1 < length inverted_df)%nat) by (simpl; lia).
  unfold calculate_module, module_flow. cbn [EOL].
  rewrite disposed_entry by (simpl; lia).
  rewrite traj_failure_eq, traj_degradation_eq by exact Hg.
  destruct (inverted_loop 1) as (F0 & D0 & _); try lia.
  change (iloc inverted_df 1) with inverted_row.
  change (length inverted_df) with 3%nat.
  rewrite F0, D0. ring.
Qed.

(** C5, amended.  For every generation [g] whose reliability keypoints
    satisfy 0 < t50 < t90 and every year [y < g], the entry of the disposal
    cohort matrix at (year y, generation g), the sum of the failure-disposed
    and the degradation-disposed area, is exactly 0: the ages before
    installation are clipped to 0, where the fitted Weibull CDF, of positive
    shape, evaluates to 0. *)
Theorem disposal_matrix_upper_triangular :
  forall (df : list ModuleRow) (g y : nat),
    (g < length df)%nat -> (y < g)%nat ->
    0 < mod_reliability_t50 (iloc df g) < mod_reliability_t90 (iloc df g) ->
    nth y (nth g (EOL (calculate_module df)) []) 0 = 0.
Proof.
  intros df g y Hg Hy Hkey.
  pose proof (row_cdf_zero (iloc df g) Hkey) as Hz.
  unfold calculate_module, module_flow. cbn [EOL].
  rewrite disposed_entry by lia.
  rewrite traj_failure_eq, traj_degradation_eq by exact Hg.
  destruct (final_before_install (row_cdf (iloc df g)) df g (iloc df g) Hg Hz y)
    as (_ & Z1 & Z2 & _); [lia|].
  rewrite Z1, Z2. ring.
Qed.

Lemma disposal_matrix_upper_triangular_witness :
  nth 0 (nth 1 (EOL (calculate_module sample_df)) []) 0 = 0.
Proof.
  apply (disposal_matrix_upper_triangular sample_df 1 0).
  - simpl. lia.
  - lia.
  - simpl. lra.
Defined.





(** ** The initial-area fix *)


Lemma sample_area : Area sample_row = 5000.
Proof.
  unfold Area, irradiance_stc, sample_row.
  cbn [new_Installed_Capacity_MW mod_eff]. lra.
Qed.

Lemma sample_cdf_zero : row_cdf sample_row 0 = 0.
Proof. apply row_cdf_zero. simpl. lra. Qed.

(** C7 at the first generation of [sample_df] (1 MW at 20 %, so 5000 m2 and
    1 000 000 W): the CDF is nonzero one year after installation, the loop
    wrote area 0 and power 0 at the install index, the active area there
    becomes 5000, and the power entry becomes 1 005 000: the active area in
    m2 added to the 1 000 000 W of the initial area, where the claim has
    0 + 1 000 000. *)
Theorem install_power_adds_area :
  let cdf := map (row_cdf sample_row) (clipped_ages 3 0) in
  let st := cohort_loop sample_df 0 sample_row cdf 3 in
  let T := generation_trajectory (row_cdf sample_row) sample_df 0 sample_row in
  nth 1 cdf 0 <> 0 /\
  nth 0 (activeareacount st) 0 = 0 /\
  nth 0 (areapowergen st) 0 = 0 /\
  Area sample_row * mod_eff sample_row * 0.01 * irradiance_stc = 1000000 /\
  nth 0 (traj_active T) 0 = 0 + 5000 /\
  nth 0 (traj_power T) 0 = 1005000 /\
  nth 0 (traj_power T) 0 <> 0 + 1000000.
Proof.
  intros cdf st T.
  assert (Hg : (0 < length sample_df)%nat) by (simpl; lia).
  destruct (final_before_install (row_cdf sample_row) sample_df 0 sample_row
              Hg sample_cdf_zero 0) as (Z1 & _ & _ & Z4); [lia|].
  destruct (traj_install_fix (row_cdf sample_row) sample_df 0 sample_row Hg) as [A P].
  assert (Hp : Area sample_row * mod_eff sample_row * 0.01 * irradiance_stc = 1000000).
  { rewrite sample_area. unfold irradiance_stc, sample_row. cbn [mod_eff]. lra. }
  assert (Hc : nth 1 cdf 0 <> 0).
  { unfold cdf.
    destruct (cdf_nth_after (row_cdf sample_row) sample_df 0 1) as [E Q];
      try (simpl; lia).
    change (length sample_df) with 3%nat in E. rewrite E.
    pose proof (row_cdf_live sample_row _ Q). lra. }
  change (length sample_df) with 3%nat in Z1, Z4, A, P.
  fold cdf in Z1, Z4, A, P. fold st in Z1, Z4, A, P. fold T in A, P.
  rewrite Z1 in A, P. rewrite sample_area in A. rewrite Hp, sample_area in P.
  repeat split; try assumption; lra.
Qed.




(** ** Columns and matrices *)

Lemma vadd_nth (a b : list R) (y : nat) :
  (y < length a)%nat -> (y < length b)%nat ->
  nth y (vadd a b) 0 = nth y a 0 + nth y b 0.
Proof. apply zip_with_nth. Qed.

Lemma vsub_nth (a b : list R) (y : nat) :
  (y < length a)%nat -> (y < length b)%nat ->
  nth y (vsub a b) 0 = nth y a 0 - nth y b 0.
Proof. apply zip_with_nth. Qed.

Lemma vmul_nth (a b : list R) (y : nat) :
  (y < length a)%nat -> (y < length b)%nat ->
  nth y (vmul a b) 0 = nth y a 0 * nth y b 0.
Proof. apply zip_with_nth. Qed.

Lemma vdiv_nth (a b : list R) (y : nat) :
  (y < length a)%nat -> (y < length b)%nat ->
  nth y (vdiv a b) 0 = nth y a 0 / nth y b 0.
Proof. apply zip_with_nth. Qed.

Lemma vscale_nth (k : R) (v : list R) (y : nat) :
  nth y (vscale k v) 0 = nth y v 0 * k.
Proof.
  unfold vscale. revert y. induction v as [|e t IH]; intros [|y]; simpl; try ring; auto.
Qed.

Lemma vcompl_nth (v : list R) (y : nat) :
  (y < length v)%nat -> nth y (vcompl v) 0 = 1 - nth y v 0.
Proof.
  unfold vcompl. revert y. induction v as [|e t IH]; intros [|y] H; simpl in *;
    try lia; auto. apply IH. lia.
Qed.

Lemma column_nth {A : Type} (fld : A -> R) (rows : list A) (d : A) (y : nat) :
  (y < length rows)%nat -> nth y (map fld rows) 0 = fld (nth y rows d).
Proof.
  intros H. rewrite (nth_indep _ 0 (fld d)) by (rewrite length_map; exact H).
  apply map_nth.
Qed.

Lemma vadd_length (a b : list R) (n : nat) :
  length a = n -> length b = n -> length (vadd a b) = n.
Proof. intros <- Hb. unfold vadd. rewrite zip_with_length, Hb. apply Nat.min_id. Qed.

Lemma vsub_length (a b : list R) (n : nat) :
  length a = n -> length b = n -> length (vsub a b) = n.
Proof. intros <- Hb. unfold vsub. rewrite zip_with_length, Hb. apply Nat.min_id. Qed.

Lemma vmul_length (a b : list R) (n : nat) :
  length a = n -> length b = n -> length (vmul a b) = n.
Proof. intros <- Hb. unfold vmul. rewrite zip_with_length, Hb. apply Nat.min_id. Qed.

Lemma vdiv_length (a b : list R) (n : nat) :
  length a = n -> length b = n -> length (vdiv a b) = n.
Proof. intros <- Hb. unfold vdiv. rewrite zip_with_length, Hb. apply Nat.min_id. Qed.

Lemma vscale_length (k : R) (v : list R) (n : nat) :
  length v = n -> length (vscale k v) = n.
Proof. intros <-. apply length_map. Qed.

Lemma vcompl_length (v : list R) (n : nat) :
  length v = n -> length (vcompl v) = n.
Proof. intros <-. apply length_map. Qed.

Lemma column_length {A : Type} (fld : A -> R) (rows : list A) (n : nat) :
  length rows = n -> length (map fld rows) = n.
Proof. intros <-. apply length_map. Qed.

Create HintDb cols.
#[local] Hint Resolve vadd_length vsub_length vmul_length vdiv_length
  vscale_length vcompl_length column_length : cols.

Lemma column_sums_length (n : nat) (M : matrix) :
  wf_matrix n M -> length (column_sums n M) = n.
Proof.
  unfold column_sums. induction 1 as [|r M Hr HM IH]; simpl.
  - apply repeat_length.
  - auto with cols.
Qed.
#[local] Hint Resolve column_sums_length : cols.

Lemma mul_columns_wf (n : nat) (M : matrix) (v : list R) :
  wf_matrix n M -> length v = n -> wf_matrix n (mul_columns M v).
Proof.
  intros HM Hv. unfold mul_columns, wf_matrix. rewrite Forall_map.
  eapply Forall_impl; [|exact HM]. intros r Hr. simpl. auto with cols.
Qed.

Lemma multiply_index_wf (n : nat) (M : matrix) (s : list R) :
  wf_matrix n M -> wf_matrix n (multiply_index M s).
Proof.
  intros HM. revert s. unfold multiply_index.
  induction HM as [|r M Hr HM IH]; intros [|m s]; simpl; constructor.
  - rewrite length_map. exact Hr.
  - apply IH.
Qed.
#[local] Hint Resolve mul_columns_wf multiply_index_wf : cols.

(** A yearly rate comes out of the column sums. *)
Lemma column_sums_mul_columns (n : nat) (M : matrix) (v : list R) (y : nat) :
  wf_matrix n M -> length v = n -> (y < n)%nat ->
  nth y (column_sums n (mul_columns M v)) 0 = nth y (column_sums n M) 0 * nth y v 0.
Proof.
  intros HM Hv Hy. unfold column_sums.
  induction HM as [|r M Hr HM IH]; simpl.
  - rewrite nth_repeat. ring.
  - assert (L1 : length (fold_right vadd (repeat 0 n) (mul_columns M v)) = n)
      by (apply (column_sums_length n); auto with cols).
    assert (L2 : length (fold_right vadd (repeat 0 n) M) = n)
      by (apply (column_sums_length n); exact HM).
    rewrite !vadd_nth, vmul_nth, IH; try ring; try lia.
    rewrite (vmul_length r v n); auto; lia.
Qed.

(** Weighting the generations and scaling the years commute. *)
Lemma multiply_index_mul_columns (M : matrix) (v s : list R) :
  multiply_index (mul_columns M v) s = mul_columns (multiply_index M s) v.
Proof.
  unfold multiply_index, mul_columns. revert s.
  induction M as [|r M IH]; intros [|m s]; simpl; auto.
  f_equal; [|apply IH].
  clear. unfold vmul. revert v. induction r as [|e r IH]; intros [|w v]; simpl; auto.
  f_equal; [ring|apply IH].
Qed.

(** ** The module end-of-life cascade *)

Section ModuleCascade.

Variable F : ModuleRow -> R -> R.
Variable df : list ModuleRow.

Local Abbreviation n := (length df).
Local Abbreviation mf := (module_flow F df).

Lemma trajectories_length : length (trajectories F df) = n.
Proof. unfold trajectories. apply trajectories_from_length. Qed.

Lemma trajectories_wf (t : Trajectory) :
  In t (trajectories F df) ->
  length (traj_active t) = n /\ length (traj_failure t) = n /\
  length (traj_degradation t) = n /\ length (traj_power t) = n.
Proof.
  intros Hin. apply (In_nth _ _ (mkTrajectory [] [] [] [] [])) in Hin.
  destruct Hin as (g & Hg & <-). rewrite trajectories_length in Hg.
  rewrite trajectories_nth by exact Hg. apply traj_lengths. exact Hg.
Qed.

Lemma EOL_wf : wf_matrix n (EOL mf).
Proof.
  cbn [EOL module_flow]. unfold Generation_Disposed_byYear, wf_matrix.
  rewrite Forall_map. apply Forall_forall. intros t Hin.
  destruct (trajectories_wf t Hin) as (_ & L2 & L3 & _).
  rewrite zip_with_length, L2, L3. apply Nat.min_id.
Qed.

Lemma collection_length : length (vscale 0.01 (map mod_EOL_collection_eff df)) = n.
Proof. auto with cols. Qed.

Lemma recycled_length : length (vscale 0.01 (map mod_EOL_collected_recycled df)) = n.
Proof. auto with cols. Qed.

Lemma EOL_Collected_wf : wf_matrix n (EOL_Collected mf).
Proof. cbn [EOL_Collected module_flow]. apply mul_columns_wf; [apply EOL_wf|auto with cols]. Qed.

Lemma landfill_Collection_wf : wf_matrix n (landfill_Collection mf).
Proof.
  cbn [landfill_Collection module_flow].
  apply mul_columns_wf; [apply EOL_wf|auto with cols].
Qed.

Lemma EOL_Recycled_wf : wf_matrix n (EOL_Recycled mf).
Proof.
  cbn [EOL_Recycled module_flow].
  apply mul_columns_wf; [apply EOL_Collected_wf|auto with cols].
Qed.

Lemma EOL_NotRecycled_Landfilled_wf : wf_matrix n (EOL_NotRecycled_Landfilled mf).
Proof.
  cbn [EOL_NotRecycled_Landfilled module_flow].
  apply mul_columns_wf; [apply EOL_Collected_wf|auto with cols].
Qed.

Lemma collection_nth (y : nat) :
  (y < n)%nat ->
  nth y (vscale 0.01 (map mod_EOL_collection_eff df)) 0
  = mod_EOL_collection_eff (iloc df y) * 0.01.
Proof.
  intros Hy. rewrite vscale_nth, (column_nth _ _ zero_row) by exact Hy. reflexivity.
Qed.

Lemma recycled_nth (y : nat) :
  (y < n)%nat ->
  nth y (vscale 0.01 (map mod_EOL_collected_recycled df)) 0
  = mod_EOL_collected_recycled (iloc df y) * 0.01.
Proof.
  intros Hy. rewrite vscale_nth, (column_nth _ _ zero_row) by exact Hy. reflexivity.
Qed.

(** The four yearly columns in terms of the yearly disposal. *)
Lemma module_cascade_columns (y : nat) :
  (y < n)%nat ->
  let Disposal := nth y (column_sums n (EOL mf)) 0 in
  let ce := mod_EOL_collection_eff (iloc df y) * 0.01 in
  let rr := mod_EOL_collected_recycled (iloc df y) * 0.01 in
  nth y (EoL_Collected mf) 0 = Disposal * ce /\
  nth y (EoL_NotCollected mf) 0 = Disposal * (1 - ce) /\
  nth y (EoL_Recycled mf) 0 = Disposal * ce * rr /\
  nth y (EoL_NotRecycled_Landfilled mf) 0 = Disposal * ce * (1 - rr).
Proof.
  intros Hy Disposal ce rr.
  pose proof EOL_wf as W. pose proof EOL_Collected_wf as WC.
  cbn [EOL EOL_Collected module_flow] in W, WC.
  cbn [EoL_Collected EoL_NotCollected EoL_Recycled EoL_NotRecycled_Landfilled
       module_flow].
  rewrite !column_sums_mul_columns; auto with cols.
  rewrite !vcompl_nth by (rewrite ?collection_length, ?recycled_length; exact Hy).
  rewrite collection_nth, recycled_nth by exact Hy.
  unfold Disposal. cbn [EOL module_flow]. auto.
Qed.

(** The yearly disposal is the column [Cumulative_Area_disposed]. *)
Lemma column_sums_nth (M : matrix) (y : nat) :
  wf_matrix n M -> (y < n)%nat ->
  nth y (column_sums n M) 0 = fold_right (fun r acc => nth y r 0 + acc) 0 M.
Proof.
  intros HM Hy. unfold column_sums. induction HM as [|r M Hr HM IH]; simpl.
  - apply nth_repeat.
  - pose proof (column_sums_length n M HM) as L. unfold column_sums in L.
    rewrite vadd_nth, IH; try lia; auto.
Qed.

Lemma cumulative_disposed_nth (ts : list Trajectory) (init : list R) (y : nat) :
  (forall t, In t ts -> length (traj_failure t) = n /\ length (traj_degradation t) = n) ->
  length init = n -> (y < n)%nat ->
  nth y (fold_left (fun acc t => vadd (vadd acc (traj_failure t)) (traj_degradation t))
           ts init) 0
  = nth y init 0
    + fold_right (fun r acc => nth y r 0 + acc) 0
        (map (fun t => zip_with Rplus (traj_failure t) (traj_degradation t)) ts).
Proof.
  revert init. induction ts as [|t ts IH]; intros init Hts Hinit Hy; simpl.
  - ring.
  - destruct (Hts t (or_introl eq_refl)) as [L1 L2].
    rewrite IH; auto with cols.
    + assert (L3 : length (vadd init (traj_failure t)) = n) by auto with cols.
      rewrite (vadd_nth (vadd init (traj_failure t))), (vadd_nth init) by lia.
      rewrite (zip_with_nth Rplus (traj_failure t)) by lia. ring.
    + intros t' Hin. apply Hts. right. exact Hin.
Qed.

Lemma disposal_is_cumulative (y : nat) :
  (y < n)%nat ->
  nth y (column_sums n (EOL mf)) 0 = nth y (Cumulative_Area_disposed mf) 0.
Proof.
  intros Hy. rewrite column_sums_nth by (apply EOL_wf || exact Hy).
  cbn [EOL Cumulative_Area_disposed module_flow].
  rewrite cumulative_disposed_nth; try exact Hy.
  - rewrite nth_repeat. unfold Generation_Disposed_byYear. ring.
  - intros t Hin. destruct (trajectories_wf t Hin) as (_ & L2 & L3 & _). auto.
  - apply repeat_length.
Qed.

End ModuleCascade.

(** C6. For every year of the module end-of-life cascade, with Disposal the
    yearly disposed area (the column sums of the disposal matrix, which is the
    column Cumulative_Area_disposed): Collected = Disposal * collectionEff and
    NotCollected = Disposal * (1 - collectionEff), so they add up to Disposal;
    Recycled = Collected * recycledRate and NotRecycled = Collected *
    (1 - recycledRate), so they add up to Collected; both exactly, hence
    within the relative tolerance 1e-9.  With a collection efficiency of 100
    and a recycled rate of 0, Collected = Disposal, Recycled = 0 and all of it
    is in EoL_NotRecycled_Landfilled. *)
Theorem module_eol_cascade :
  forall (df : list ModuleRow) (y : nat),
    (y < length df)%nat ->
    let mf := calculate_module df in
    let Disposal := nth y (Cumulative_Area_disposed mf) 0 in
    let collectionEff := mod_EOL_collection_eff (iloc df y) * 0.01 in
    let recycledRate := mod_EOL_collected_recycled (iloc df y) * 0.01 in
    let Collected := nth y (EoL_Collected mf) 0 in
    let NotCollected := nth y (EoL_NotCollected mf) 0 in
    let Recycled := nth y (EoL_Recycled mf) 0 in
    let NotRecycled := nth y (EoL_NotRecycled_Landfilled mf) 0 in
    Disposal = nth y (column_sums (length df) (EOL mf)) 0 /\
    Collected = Disposal * collectionEff /\
    NotCollected = Disposal * (1 - collectionEff) /\
    Collected + NotCollected = Disposal /\
    Rabs (Collected + NotCollected - Disposal) <= 1e-9 * Rabs Disposal /\
    Recycled = Collected * recycledRate /\
    NotRecycled = Collected * (1 - recycledRate) /\
    Recycled + NotRecycled = Collected /\
    Rabs (Recycled + NotRecycled - Collected) <= 1e-9 * Rabs Collected /\
    (mod_EOL_collection_eff (iloc df y) = 100 ->
     mod_EOL_collected_recycled (iloc df y) = 0 ->
     Collected = Disposal /\ NotCollected = 0 /\ Recycled = 0 /\
     NotRecycled = Disposal).
Proof.
  intros df y Hy mf Disposal collectionEff recycledRate
         Collected NotCollected Recycled NotRecycled.
  destruct (module_cascade_columns row_cdf df y Hy) as (E1 & E2 & E3 & E4).
  pose proof (disposal_is_cumulative row_cdf df y Hy) as ED.
  fold (calculate_module df) in E1, E2, E3, E4, ED. fold mf in E1, E2, E3, E4, ED.
  fold Disposal in ED. rewrite ED in E1, E2, E3, E4.
  fold Collected in E1. fold NotCollected in E2. fold Recycled in E3.
  fold NotRecycled in E4. fold collectionEff in E1, E2, E3, E4.
  fold recycledRate in E3, E4.
  assert (S1 : Collected + NotCollected = Disposal) by (rewrite E1, E2; ring).
  assert (S2 : Recycled + NotRecycled = Collected) by (rewrite E1, E3, E4; ring).
  split; [symmetry; exact ED|].
  split; [exact E1|]. split; [exact E2|]. split; [exact S1|].
  split.
  { rewrite S1. replace (Disposal - Disposal) with 0 by ring. rewrite Rabs_R0.
    pose proof (Rabs_pos Disposal). lra. }
  split; [rewrite E3, E1; reflexivity|].
  split; [rewrite E4, E1; reflexivity|].
  split; [exact S2|].
  split.
  { rewrite S2. replace (Collected - Collected) with 0 by ring. rewrite Rabs_R0.
    pose proof (Rabs_pos Collected). lra. }
  intros Hfull Hnone.
  rewrite E1, E2, E3, E4. unfold collectionEff, recycledRate.
  rewrite Hfull, Hnone. repeat apply conj; lra.
Qed.

Lemma module_eol_cascade_witness :
  let mf := calculate_module sample_df in
  nth 1 (EoL_Collected mf) 0 = nth 1 (Cumulative_Area_disposed mf) 0 /\
  nth 1 (EoL_Recycled mf) 0 = 0 /\
  nth 1 (EoL_NotRecycled_Landfilled mf) 0 = nth 1 (Cumulative_Area_disposed mf) 0.
Proof.
  assert (Hy : (1 < length sample_df)%nat) by (simpl; lia).
  destruct (module_eol_cascade sample_df 1 Hy)
    as (_ & _ & _ & _ & _ & _ & _ & _ & _ & Hfull).
  destruct Hfull as (C & _ & Rz & NR); try reflexivity.
  repeat split; assumption.
Defined.

(** ** The material cascade *)

Section MaterialCascade.

Variable F : ModuleRow -> R -> R.
Variable df : list ModuleRow.
Variable dm : list MaterialRow.
Hypothesis Hlen : length dm = length df.

Local Abbreviation n := (length df).
Local Abbreviation mf := (module_flow F df).
Local Abbreviation mat := (material_flow (module_flow F df) dm).

Variable y : nat.
Hypothesis Hy : (y < length df)%nat.

Local Abbreviation mrow := (nth y dm zero_material_row).

Lemma col_Area_length : length (col_Area mf) = n.
Proof. cbn [col_Area module_flow]. apply length_map. Qed.

Lemma material_rate_length (fld : MaterialRow -> R) :
  length (vscale 0.01 (map fld dm)) = n.
Proof. auto with cols. Qed.

Lemma material_rate_nth (fld : MaterialRow -> R) :
  nth y (vscale 0.01 (map fld dm)) 0 = fld mrow * 0.01.
Proof.
  rewrite vscale_nth, (column_nth _ _ zero_material_row) by (rewrite Hlen; exact Hy).
  reflexivity.
Qed.

Lemma material_compl_nth (fld : MaterialRow -> R) :
  nth y (vcompl (vscale 0.01 (map fld dm))) 0 = 1 - fld mrow * 0.01.
Proof.
  rewrite vcompl_nth by (rewrite material_rate_length; exact Hy).
  rewrite material_rate_nth. reflexivity.
Qed.

Lemma material_column_nth (fld : MaterialRow -> R) :
  nth y (map fld dm) 0 = fld mrow.
Proof. apply column_nth. rewrite Hlen. exact Hy. Qed.

(** The mass matrices are the disposed-mass matrix scaled year by year. *)
Lemma recycled_mass_eq :
  nth y (recycled_module_mass mf dm) 0
  = nth y (disposed_mass mf dm) 0
    * (mod_EOL_collection_eff (iloc df y) * 0.01)
    * (mod_EOL_collected_recycled (iloc df y) * 0.01).
Proof.
  unfold recycled_module_mass, disposed_mass. rewrite col_Area_length.
  cbn [EOL_Recycled EOL module_flow].
  rewrite !multiply_index_mul_columns.
  pose proof (EOL_wf F df) as W. cbn [EOL module_flow] in W.
  rewrite !column_sums_mul_columns; auto with cols.
  rewrite collection_nth, recycled_nth by exact Hy. reflexivity.
Qed.

Lemma modules_NotCollected_eq :
  nth y (mat_modules_NotCollected mat) 0
  = nth y (disposed_mass mf dm) 0 * (1 - mod_EOL_collection_eff (iloc df y) * 0.01).
Proof.
  unfold material_flow, disposed_mass. cbn [mat_modules_NotCollected].
  rewrite col_Area_length. cbn [landfill_Collection EOL module_flow].
  rewrite !multiply_index_mul_columns.
  pose proof (EOL_wf F df) as W. cbn [EOL module_flow] in W.
  rewrite !column_sums_mul_columns; auto with cols.
  rewrite vcompl_nth by (rewrite collection_length; exact Hy).
  rewrite collection_nth by exact Hy. reflexivity.
Qed.

Lemma modules_NotRecycled_eq :
  nth y (mat_modules_NotRecycled mat) 0
  = nth y (disposed_mass mf dm) 0
    * (mod_EOL_collection_eff (iloc df y) * 0.01)
    * (1 - mod_EOL_collected_recycled (iloc df y) * 0.01).
Proof.
  unfold material_flow, disposed_mass. cbn [mat_modules_NotRecycled].
  rewrite col_Area_length.
  cbn [EOL_NotRecycled_Landfilled EOL module_flow].
  rewrite !multiply_index_mul_columns.
  pose proof (EOL_wf F df) as W. cbn [EOL module_flow] in W.
  rewrite !column_sums_mul_columns; auto with cols.
  rewrite vcompl_nth by (rewrite recycled_length; exact Hy).
  rewrite collection_nth, recycled_nth by exact Hy. reflexivity.
Qed.

Lemma recycled_mass_wf :
  wf_matrix n (multiply_index (EOL_Recycled mf) (map mat_massperm2 dm)).
Proof. apply multiply_index_wf, EOL_Recycled_wf. Qed.

(** The end-of-life network of the material, year [y]. *)
Lemma eol_network_columns :
  let R := nth y (recycled_module_mass mf dm) 0 in
  let p := mat_EOL_collected_Recycled mrow * 0.01 in
  let h := mat_EOL_Recycled_into_HQ mrow * 0.01 in
  let u := mat_EOL_RecycledHQ_Reused4MFG mrow * 0.01 in
  nth y (mat_EOL_sento_Recycling mat) 0 = R * p /\
  nth y (mat_EOL_NotRecycled_Landfilled mat) 0 = R * (1 - p) /\
  nth y (mat_EOL_Recycled mat) 0 = R * p * p /\
  nth y (mat_EOL_Recycled_Losses_Landfilled mat) 0 = R * p * (1 - p) /\
  nth y (mat_EoL_Recycled_into_HQ mat) 0 = R * p * p * h /\
  nth y (mat_EoL_Recycled_into_OQ mat) 0 = R * p * p * (1 - h) /\
  nth y (mat_EoL_Recycled_HQ_into_MFG mat) 0 = R * p * p * h * u /\
  nth y (mat_EOL_Recycled_HQ_into_OU mat) 0 = R * p * p * h * (1 - u).
Proof.
  intros R p h u. unfold R, p, h, u, recycled_module_mass, material_flow.
  cbn [mat_EOL_sento_Recycling mat_EOL_NotRecycled_Landfilled mat_EOL_Recycled
       mat_EOL_Recycled_Losses_Landfilled mat_EoL_Recycled_into_HQ
       mat_EoL_Recycled_into_OQ mat_EoL_Recycled_HQ_into_MFG
       mat_EOL_Recycled_HQ_into_OU].
  rewrite col_Area_length.
  pose proof recycled_mass_wf as W.
  pose proof material_rate_length as L.
  repeat split;
    rewrite !column_sums_mul_columns; auto 8 with cols;
    rewrite ?material_compl_nth, ?material_rate_nth; reflexivity.
Qed.

(** The manufacturing-scrap network of the material, year [y], as the
    program computes it. *)
Lemma mfg_network_columns :
  let Manufactured := Area (iloc df y) * mat_massperm2 mrow in
  let Input := Manufactured / (material_MFG_eff mrow * 0.01) in
  let Scrap := Manufactured - Input in
  let Sent := Scrap * mat_MFG_scrap_recycled mrow * 0.01 in
  let Recycled := Sent * mat_MFG_scrap_recycling_eff mrow * 0.01 in
  let HQ := Recycled * mat_MFG_scrap_Recycled_into_HQ mrow * 0.01 in
  let HQ_MFG := HQ * mat_MFG_scrap_Recycled_into_HQ_Reused4MFG mrow * 0.01 in
  nth y (mat_Manufactured mat) 0 = Manufactured /\
  nth y (mat_Manufacturing_Input mat) 0 = Input /\
  nth y (mat_MFG_Scrap mat) 0 = Scrap /\
  nth y (mat_MFG_Scrap_Sentto_Recycling mat) 0 = Sent /\
  nth y (mat_MFG_Scrap_Landfilled mat) 0 = Scrap - Sent /\
  nth y (mat_MFG_Scrap_Recycled mat) 0 = Recycled /\
  nth y (mat_MFG_Scrap_Recycled_Losses_Landfilled mat) 0 = Sent - Recycled /\
  nth y (mat_MFG_Recycled_into_HQ mat) 0 = HQ /\
  nth y (mat_MFG_Recycled_into_OQ mat) 0 = Recycled - HQ /\
  nth y (mat_MFG_Recycled_HQ_into_MFG mat) 0 = HQ_MFG /\
  nth y (mat_MFG_Recycled_HQ_into_OU mat) 0 = HQ - HQ_MFG.
Proof.
  intros Manufactured Input Scrap Sent Recycled HQ HQ_MFG.
  unfold material_flow.
  cbn [mat_Manufactured mat_Manufacturing_Input mat_MFG_Scrap
       mat_MFG_Scrap_Sentto_Recycling mat_MFG_Scrap_Landfilled
       mat_MFG_Scrap_Recycled mat_MFG_Scrap_Recycled_Losses_Landfilled
       mat_MFG_Recycled_into_HQ mat_MFG_Recycled_into_OQ
       mat_MFG_Recycled_HQ_into_MFG mat_MFG_Recycled_HQ_into_OU].
  cbn [col_Area module_flow].
  assert (LA : length (map Area df) = n) by apply length_map.
  assert (LC : forall fld : MaterialRow -> R, length (map fld dm) = n)
    by (intros fld; rewrite length_map; exact Hlen).
  assert (LS : forall fld : MaterialRow -> R, length (vscale 0.01 (map fld dm)) = n)
    by (intros fld; auto with cols).
  assert (EA : nth y (map Area df) 0 = Area (iloc df y))
    by (apply column_nth; exact Hy).
  assert (E1 : nth y (vmul (map Area df) (map mat_massperm2 dm)) 0 = Manufactured).
  { rewrite vmul_nth by (rewrite ?LA, ?LC; exact Hy).
    rewrite EA, material_column_nth. reflexivity. }
  set (cM := vmul (map Area df) (map mat_massperm2 dm)) in *.
  assert (LM : length cM = n) by (unfold cM; auto with cols).
  assert (E2 : nth y (vdiv cM (vscale 0.01 (map material_MFG_eff dm))) 0 = Input).
  { rewrite vdiv_nth by (rewrite ?LM, ?LS; exact Hy).
    rewrite E1, material_rate_nth. reflexivity. }
  set (cI := vdiv cM (vscale 0.01 (map material_MFG_eff dm))) in *.
  assert (LI : length cI = n) by (unfold cI; auto with cols).
  assert (E3 : nth y (vsub cM cI) 0 = Scrap).
  { rewrite vsub_nth by (rewrite ?LM, ?LI; exact Hy). rewrite E1, E2. reflexivity. }
  set (cS := vsub cM cI) in *.
  assert (LSc : length cS = n) by (unfold cS; auto with cols).
  assert (E4 : nth y (vscale 0.01 (vmul cS (map mat_MFG_scrap_recycled dm))) 0 = Sent).
  { rewrite vscale_nth, vmul_nth by (rewrite ?LSc, ?LC; exact Hy).
    rewrite E3, material_column_nth. reflexivity. }
  set (cT := vscale 0.01 (vmul cS (map mat_MFG_scrap_recycled dm))) in *.
  assert (LT : length cT = n) by (unfold cT; auto with cols).
  assert (E5 : nth y (vscale 0.01 (vmul cT (map mat_MFG_scrap_recycling_eff dm))) 0
               = Recycled).
  { rewrite vscale_nth, vmul_nth by (rewrite ?LT, ?LC; exact Hy).
    rewrite E4, material_column_nth. reflexivity. }
  set (cR := vscale 0.01 (vmul cT (map mat_MFG_scrap_recycling_eff dm))) in *.
  assert (LR : length cR = n) by (unfold cR; auto with cols).
  assert (E6 : nth y (vscale 0.01 (vmul cR (map mat_MFG_scrap_Recycled_into_HQ dm))) 0
               = HQ).
  { rewrite vscale_nth, vmul_nth by (rewrite ?LR, ?LC; exact Hy).
    rewrite E5, material_column_nth. reflexivity. }
  set (cH := vscale 0.01 (vmul cR (map mat_MFG_scrap_Recycled_into_HQ dm))) in *.
  assert (LH : length cH = n) by (unfold cH; auto with cols).
  assert (E7 : nth y (vscale 0.01
                 (vmul cH (map mat_MFG_scrap_Recycled_into_HQ_Reused4MFG dm))) 0
               = HQ_MFG).
  { rewrite vscale_nth, vmul_nth by (rewrite ?LH, ?LC; exact Hy).
    rewrite E6, material_column_nth. reflexivity. }
  set (cU := vscale 0.01
               (vmul cH (map mat_MFG_scrap_Recycled_into_HQ_Reused4MFG dm))) in *.
  assert (LU : length cU = n) by (unfold cU; auto with cols).
  repeat split; try assumption;
    rewrite vsub_nth by lia; congruence.
Qed.

End MaterialCascade.

Section MaterialTotals.

Variable F : ModuleRow -> R -> R.
Variable df : list ModuleRow.
Variable dm : list MaterialRow.
Hypothesis Hlen : length dm = length df.
Variable y : nat.
Hypothesis Hy : (y < length df)%nat.

Local Abbreviation n := (length df).
Local Abbreviation mf := (module_flow F df).
Local Abbreviation mat := (material_flow (module_flow F df) dm).

(** The roll-up columns, year [y]. *)
Lemma totals_columns :
  nth y (mat_Total_EoL_Landfilled mat) 0
  = nth y (mat_modules_NotCollected mat) 0 + nth y (mat_modules_NotRecycled mat) 0
    + nth y (mat_EOL_NotRecycled_Landfilled mat) 0
    + nth y (mat_EOL_Recycled_Losses_Landfilled mat) 0 /\
  nth y (mat_Total_MFG_Landfilled mat) 0
  = nth y (mat_MFG_Scrap_Landfilled mat) 0
    + nth y (mat_MFG_Scrap_Recycled_Losses_Landfilled mat) 0 /\
  nth y (mat_Total_Landfilled mat) 0
  = nth y (mat_Total_EoL_Landfilled mat) 0 + nth y (mat_Total_MFG_Landfilled mat) 0 /\
  nth y (mat_Total_Recycled_OU mat) 0
  = nth y (mat_EoL_Recycled_into_OQ mat) 0 + nth y (mat_EOL_Recycled_HQ_into_OU mat) 0
    + nth y (mat_MFG_Recycled_into_OQ mat) 0 + nth y (mat_MFG_Recycled_HQ_into_OU mat) 0 /\
  nth y (mat_Virgin_Stock mat) 0
  = nth y (mat_Manufacturing_Input mat) 0 - nth y (mat_EoL_Recycled_HQ_into_MFG mat) 0
    - nth y (mat_MFG_Recycled_HQ_into_MFG mat) 0.
Proof.
  unfold material_flow.
  cbn [mat_Total_EoL_Landfilled mat_Total_MFG_Landfilled mat_Total_Landfilled
       mat_Total_Recycled_OU mat_Virgin_Stock mat_modules_NotCollected
       mat_modules_NotRecycled mat_EOL_NotRecycled_Landfilled
       mat_EOL_Recycled_Losses_Landfilled mat_MFG_Scrap_Landfilled
       mat_MFG_Scrap_Recycled_Losses_Landfilled mat_EoL_Recycled_into_OQ
       mat_EOL_Recycled_HQ_into_OU mat_MFG_Recycled_into_OQ
       mat_MFG_Recycled_HQ_into_OU mat_Manufacturing_Input
       mat_EoL_Recycled_HQ_into_MFG mat_MFG_Recycled_HQ_into_MFG].
  rewrite (col_Area_length F df).
  pose proof (EOL_Recycled_wf F df) as W1.
  pose proof (EOL_NotRecycled_Landfilled_wf F df) as W2.
  pose proof (landfill_Collection_wf F df) as W3.
  assert (LA : length (col_Area mf) = n) by apply col_Area_length.
  assert (LC : forall fld : MaterialRow -> R, length (map fld dm) = n)
    by (intros fld; rewrite length_map; exact Hlen).
  repeat split; repeat (rewrite vadd_nth || rewrite vsub_nth);
    try reflexivity;
    match goal with
    | |- (y < length ?c)%nat =>
        assert (L : length c = n) by auto 20 with cols; rewrite L; exact Hy
    end.
Qed.

End MaterialTotals.

(** C1 as stated fails on the first conjunct, whichever of the two
    not-recycled columns the five-term sum takes.  In the second year of
    [recycling_df] half of the collected modules go to recycling and half of
    their material is sent on: both [mat_modules_NotRecycled] and
    [mat_EOL_NotRecycled_Landfilled] are positive, and the total landfilled
    mass counts both. *)
Lemma landfilled_five_terms_counterexample :
  let m := calculate_material recycling_df recycling_dm in
  let at_ (c : list R) := nth 1 c 0 in
  at_ (mat_Total_Landfilled m)
  <> at_ (mat_modules_NotCollected m) + at_ (mat_modules_NotRecycled m)
     + at_ (mat_EOL_Recycled_Losses_Landfilled m)
     + at_ (mat_MFG_Scrap_Landfilled m)
     + at_ (mat_MFG_Scrap_Recycled_Losses_Landfilled m) /\
  at_ (mat_Total_Landfilled m)
  <> at_ (mat_modules_NotCollected m) + at_ (mat_EOL_NotRecycled_Landfilled m)
     + at_ (mat_EOL_Recycled_Losses_Landfilled m)
     + at_ (mat_MFG_Scrap_Landfilled m)
     + at_ (mat_MFG_Scrap_Recycled_Losses_Landfilled m).
Proof.
  intros m at_.
  assert (Hlen : length recycling_dm = length recycling_df) by reflexivity.
  assert (Hy : (1 < length recycling_df)%nat) by (simpl; lia).
  destruct (totals_columns row_cdf recycling_df recycling_dm Hlen 1 Hy)
    as (T1 & T2 & T3 & _).
  pose proof (modules_NotRecycled_eq row_cdf recycling_df recycling_dm 1 Hy) as NR.
  destruct (eol_network_columns row_cdf recycling_df recycling_dm Hlen 1 Hy)
    as (_ & NL & _).
  pose proof (recycled_mass_eq row_cdf recycling_df recycling_dm 1 Hy) as RM.
  (* the mass disposed in the second year is positive *)
  assert (HD : 0 < nth 1 (disposed_mass (module_flow row_cdf recycling_df) recycling_dm) 0).
  { unfold disposed_mass. rewrite (col_Area_length row_cdf recycling_df).
    rewrite column_sums_nth
      by (try apply multiply_index_wf; try apply EOL_wf; exact Hy).
    cbn [EOL module_flow].
    change (Generation_Disposed_byYear row_cdf recycling_df)
      with [zip_with Rplus
              (traj_failure (generation_trajectory (row_cdf recycling_row)
                               recycling_df 0 recycling_row))
              (traj_degradation (generation_trajectory (row_cdf recycling_row)
                                   recycling_df 0 recycling_row));
            zip_with Rplus
              (traj_failure (generation_trajectory (row_cdf recycling_row)
                               recycling_df 1 recycling_row))
              (traj_degradation (generation_trajectory (row_cdf recycling_row)
                                   recycling_df 1 recycling_row))].
    cbn [multiply_index zip_with map recycling_dm fold_right].
    assert (H0 : (0 < length recycling_df)%nat) by (simpl; lia).
    assert (Hz : row_cdf recycling_row 0 = 0) by (apply row_cdf_zero; simpl; lra).
    set (T0 := generation_trajectory (row_cdf recycling_row) recycling_df 0 recycling_row).
    set (T1' := generation_trajectory (row_cdf recycling_row) recycling_df 1 recycling_row).
    destruct (traj_lengths (row_cdf recycling_row) recycling_df 0 recycling_row H0)
      as (_ & L02 & L03 & _).
    destruct (traj_lengths (row_cdf recycling_row) recycling_df 1 recycling_row Hy)
      as (_ & L12 & L13 & _).
    fold T0 in L02, L03. fold T1' in L12, L13.
    change (length recycling_df) with 2%nat in L02, L03, L12, L13.
    rewrite !(column_nth (fun e => e * mat_massperm2 sample_material_row) _ 0)
      by (rewrite zip_with_length; lia).
    rewrite !zip_with_nth by lia.
    (* generation 1 has disposed nothing in its install year *)
    destruct (final_before_install (row_cdf recycling_row) recycling_df 1 recycling_row
                Hy Hz 1) as (_ & Z2 & Z3 & _); [lia|].
    unfold T1'.
    rewrite (traj_failure_eq _ _ _ _ Hy), (traj_degradation_eq _ _ _ _ Hy), Z2, Z3.
    (* generation 0 has lost the share F(1) of its 5000 m2 to failure *)
    destruct (cdf_nth_after (row_cdf recycling_row) recycling_df 0 1) as [E Q];
      try (simpl; lia).
    pose proof (row_cdf_live recycling_row _ Q) as Hlive.
    assert (Hnz : nth 1 (map (row_cdf recycling_row)
                           (clipped_ages (length recycling_df) 0)) 0 <> 0)
      by (rewrite E; lra).
    destruct (cohort_step_live recycling_df 0 recycling_row _ 1 Hnz)
      as (_ & _ & Hf & _ & Hd).
    destruct (loop_before_install (row_cdf recycling_row) recycling_df 0 recycling_row
                H0 Hz 1) as [A1 _]; try (simpl; lia).
    unfold T0.
    rewrite (traj_failure_eq _ _ _ _ H0), (traj_degradation_eq _ _ _ _ H0).
    change (length recycling_df) with 2%nat in *.
    rewrite Hf, Hd, A1, E.
    - assert (HA : Area recycling_row = 5000).
      { unfold Area, irradiance_stc, recycling_row.
        cbn [new_Installed_Capacity_MW mod_eff]. lra. }
      rewrite HA. set (c := row_cdf recycling_row (INR 1 - INR 0)) in *.
      unfold iloc, recycling_df, recycling_row, sample_material_row.
      cbn [nth mod_Repairing mat_massperm2]. lra.
    - unfold recycling_row. cbn [mod_lifetime]. simpl. lra. }
  fold (calculate_module recycling_df) in T1, T2, T3, NR, NL, RM, HD.
  fold (calculate_material recycling_df recycling_dm) in T1, T2, T3, NR, NL.
  fold m in T1, T2, T3, NR, NL.
  set (D := nth 1 (disposed_mass (calculate_module recycling_df) recycling_dm) 0) in *.
  assert (HNR : 0 < nth 1 (mat_modules_NotRecycled m) 0).
  { rewrite NR. unfold iloc, recycling_df, recycling_row.
    cbn [nth mod_EOL_collection_eff mod_EOL_collected_recycled]. lra. }
  assert (HNL : 0 < nth 1 (mat_EOL_NotRecycled_Landfilled m) 0).
  { rewrite NL, RM. fold D.
    unfold iloc, recycling_df, recycling_row, recycling_dm, sample_material_row.
    cbn [nth mod_EOL_collection_eff mod_EOL_collected_recycled
         mat_EOL_collected_Recycled]. lra. }
  unfold at_. rewrite T3, T1, T2. split; lra.
Qed.

(** C1, amended.  For every material and every year the total landfilled
    mass is the sum of six loss points (modules not collected, modules not
    recycled, material of recycled modules not sent on, end-of-life recycling
    losses, scrap landfilled, scrap recycling losses), and total landfilled
    plus everything returned to use (recycled into OQ, HQ reused in
    manufacturing and HQ into other use, of both networks) equals the disposed
    mass plus the mass in the column [mat_MFG_Scrap]. *)
Theorem material_mass_conservation :
  forall (df : list ModuleRow) (dm : list MaterialRow) (y : nat),
    length dm = length df -> (y < length df)%nat ->
    let m := calculate_material df dm in
    let at_ (c : list R) := nth y c 0 in
    at_ (mat_Total_Landfilled m)
    = at_ (mat_modules_NotCollected m) + at_ (mat_modules_NotRecycled m)
      + at_ (mat_EOL_NotRecycled_Landfilled m)
      + at_ (mat_EOL_Recycled_Losses_Landfilled m)
      + at_ (mat_MFG_Scrap_Landfilled m)
      + at_ (mat_MFG_Scrap_Recycled_Losses_Landfilled m) /\
    at_ (mat_Total_Landfilled m)
    + (at_ (mat_EoL_Recycled_into_OQ m) + at_ (mat_EoL_Recycled_HQ_into_MFG m)
       + at_ (mat_EOL_Recycled_HQ_into_OU m)
       + at_ (mat_MFG_Recycled_into_OQ m) + at_ (mat_MFG_Recycled_HQ_into_MFG m)
       + at_ (mat_MFG_Recycled_HQ_into_OU m))
    = at_ (disposed_mass (calculate_module df) dm) + at_ (mat_MFG_Scrap m).
Proof.
  intros df dm y Hlen Hy m at_. unfold at_, m, calculate_material, calculate_module.
  destruct (totals_columns row_cdf df dm Hlen y Hy) as (T1 & T2 & T3 & _).
  destruct (eol_network_columns row_cdf df dm Hlen y Hy)
    as (_ & E2 & _ & E4 & _ & E6 & E7 & E8).
  destruct (mfg_network_columns row_cdf df dm Hlen y Hy)
    as (_ & _ & M3 & _ & M5 & _ & M7 & _ & M9 & M10 & M11).
  pose proof (modules_NotCollected_eq row_cdf df dm y Hy) as NC.
  pose proof (modules_NotRecycled_eq row_cdf df dm y Hy) as NR.
  pose proof (recycled_mass_eq row_cdf df dm y Hy) as RM.
  split.
  - rewrite T3, T1, T2. ring.
  - rewrite T3, T1, T2, NC, NR, E2, E4, E6, E7, E8, RM, M3, M5, M7, M9, M10, M11.
    ring.
Qed.

Lemma material_mass_conservation_witness :
  let m := calculate_material sample_df sample_dm in
  nth 1 (mat_Total_Landfilled m) 0
  + (nth 1 (mat_EoL_Recycled_into_OQ m) 0 + nth 1 (mat_EoL_Recycled_HQ_into_MFG m) 0
     + nth 1 (mat_EOL_Recycled_HQ_into_OU m) 0
     + nth 1 (mat_MFG_Recycled_into_OQ m) 0 + nth 1 (mat_MFG_Recycled_HQ_into_MFG m) 0
     + nth 1 (mat_MFG_Recycled_HQ_into_OU m) 0)
  = nth 1 (disposed_mass (calculate_module sample_df) sample_dm) 0
    + nth 1 (mat_MFG_Scrap m) 0.
Proof.
  apply (material_mass_conservation sample_df sample_dm 1).
  - reflexivity.
  - simpl. lia.
Defined.

(** In the second year of [recycling_df] the modules sent to recycling carry
    a positive mass: generation 0 has lost the share F(1) of its 5000 m2 to
    failure, all of it is collected and half of it recycled. *)
Lemma recycling_disposed_mass_positive :
  0 < nth 1 (disposed_mass (module_flow row_cdf recycling_df) recycling_dm) 0.
Proof.
  assert (Hy : (1 < length recycling_df)%nat) by (simpl; lia).
  unfold disposed_mass. rewrite (col_Area_length row_cdf recycling_df).
  rewrite column_sums_nth
    by (try apply multiply_index_wf; try apply EOL_wf; exact Hy).
  cbn [EOL module_flow].
  change (Generation_Disposed_byYear row_cdf recycling_df)
    with [zip_with Rplus
            (traj_failure (generation_trajectory (row_cdf recycling_row)
                             recycling_df 0 recycling_row))
            (traj_degradation (generation_trajectory (row_cdf recycling_row)
                                 recycling_df 0 recycling_row));
          zip_with Rplus
            (traj_failure (generation_trajectory (row_cdf recycling_row)
                             recycling_df 1 recycling_row))
            (traj_degradation (generation_trajectory (row_cdf recycling_row)
                                 recycling_df 1 recycling_row))].
  cbn [multiply_index zip_with map recycling_dm fold_right].
  assert (H0 : (0 < length recycling_df)%nat) by (simpl; lia).
  assert (Hz : row_cdf recycling_row 0 = 0) by (apply row_cdf_zero; simpl; lra).
  set (T0 := generation_trajectory (row_cdf recycling_row) recycling_df 0 recycling_row).
  set (T1' := generation_trajectory (row_cdf recycling_row) recycling_df 1 recycling_row).
  destruct (traj_lengths (row_cdf recycling_row) recycling_df 0 recycling_row H0)
    as (_ & L02 & L03 & _).
  destruct (traj_lengths (row_cdf recycling_row) recycling_df 1 recycling_row Hy)
    as (_ & L12 & L13 & _).
  fold T0 in L02, L03. fold T1' in L12, L13.
  change (length recycling_df) with 2%nat in L02, L03, L12, L13.
  rewrite !(column_nth (fun e => e * mat_massperm2 sample_material_row) _ 0)
    by (rewrite zip_with_length; lia).
  rewrite !zip_with_nth by lia.
  destruct (final_before_install (row_cdf recycling_row) recycling_df 1 recycling_row
              Hy Hz 1) as (_ & Z2 & Z3 & _); [lia|].
  unfold T1'.
  rewrite (traj_failure_eq _ _ _ _ Hy), (traj_degradation_eq _ _ _ _ Hy), Z2, Z3.
  destruct (cdf_nth_after (row_cdf recycling_row) recycling_df 0 1) as [E Q];
    try (simpl; lia).
  pose proof (row_cdf_live recycling_row _ Q) as Hlive.
  assert (Hnz : nth 1 (map (row_cdf recycling_row)
                         (clipped_ages (length recycling_df) 0)) 0 <> 0)
    by (rewrite E; lra).
  destruct (cohort_step_live recycling_df 0 recycling_row _ 1 Hnz)
    as (_ & _ & Hf & _ & Hd).
  destruct (loop_before_install (row_cdf recycling_row) recycling_df 0 recycling_row
              H0 Hz 1) as [A1 _]; try (simpl; lia).
  unfold T0.
  rewrite (traj_failure_eq _ _ _ _ H0), (traj_degradation_eq _ _ _ _ H0).
  change (length recycling_df) with 2%nat in *.
  rewrite Hf, Hd, A1, E.
  - assert (HA : Area recycling_row = 5000).
    { unfold Area, irradiance_stc, recycling_row.
      cbn [new_Installed_Capacity_MW mod_eff]. lra. }
    rewrite HA. set (c := row_cdf recycling_row (INR 1 - INR 0)) in *.
    unfold iloc, recycling_df, recycling_row, sample_material_row.
    cbn [nth mod_Repairing mat_massperm2]. lra.
  - unfold recycling_row. cbn [mod_lifetime]. simpl. lra.
Qed.

Lemma recycling_recycled_mass_positive :
  0 < nth 1 (recycled_module_mass (calculate_module recycling_df) recycling_dm) 0.
Proof.
  assert (Hy : (1 < length recycling_df)%nat) by (simpl; lia).
  unfold calculate_module.
  rewrite (recycled_mass_eq row_cdf recycling_df recycling_dm 1 Hy).
  pose proof recycling_disposed_mass_positive as HD.
  set (D := nth 1 (disposed_mass (module_flow row_cdf recycling_df) recycling_dm) 0) in *.
  unfold iloc, recycling_df, recycling_row.
  cbn [nth mod_EOL_collection_eff mod_EOL_collected_recycled]. lra.
Qed.

(** C10. The split into material sent to recycling and the split into
    material recycled successfully read the same column
    [mat_EOL_collected_Recycled]: in every year the mass sent to recycling is
    the mass of the recycled modules times that rate, and the mass recycled
    successfully is the mass of the recycled modules times the square of that
    rate, each factor scaled by 0.01. *)
Theorem eol_recycled_rate_squared :
  forall (df : list ModuleRow) (dm : list MaterialRow) (y : nat),
    length dm = length df -> (y < length df)%nat ->
    let m := calculate_material df dm in
    let rate := mat_EOL_collected_Recycled (nth y dm zero_material_row) * 0.01 in
    let recycled_modules := nth y (recycled_module_mass (calculate_module df) dm) 0 in
    nth y (mat_EOL_sento_Recycling m) 0 = recycled_modules * rate /\
    nth y (mat_EOL_Recycled m) 0 = nth y (mat_EOL_sento_Recycling m) 0 * rate /\
    nth y (mat_EOL_Recycled m) 0 = recycled_modules * (rate * rate).
Proof.
  intros df dm y Hlen Hy m rate recycled_modules.
  destruct (eol_network_columns row_cdf df dm Hlen y Hy) as (E1 & _ & E3 & _).
  unfold m, rate, recycled_modules, calculate_material, calculate_module.
  rewrite E1, E3. repeat split; ring.
Qed.

Lemma eol_recycled_rate_squared_witness :
  let m := calculate_material recycling_df recycling_dm in
  let rate := mat_EOL_collected_Recycled (nth 1 recycling_dm zero_material_row) * 0.01 in
  let recycled_modules :=
    nth 1 (recycled_module_mass (calculate_module recycling_df) recycling_dm) 0 in
  0 < recycled_modules /\ rate = 0.5 /\
  nth 1 (mat_EOL_sento_Recycling m) 0 = recycled_modules * rate /\
  nth 1 (mat_EOL_Recycled m) 0 = nth 1 (mat_EOL_sento_Recycling m) 0 * rate /\
  nth 1 (mat_EOL_Recycled m) 0 = recycled_modules * (rate * rate).
Proof.
  intros m rate recycled_modules.
  split; [exact recycling_recycled_mass_positive|].
  split; [unfold rate, recycling_dm, sample_material_row;
          cbn [nth mat_EOL_collected_Recycled]; lra|].
  apply (eol_recycled_rate_squared recycling_df recycling_dm 1).
  - reflexivity.
  - simpl. lia.
Defined.

(** At a manufacturing efficiency of 100 the input equals the manufactured
    mass, and the scrap column and every column of the scrap cascade are 0,
    whatever the order of the subtraction. *)
Lemma mfg_full_efficiency (df : list ModuleRow) (dm : list MaterialRow) (y : nat) :
  length dm = length df -> (y < length df)%nat ->
  material_MFG_eff (nth y dm zero_material_row) = 100 ->
  let m := calculate_material df dm in
  nth y (mat_Manufacturing_Input m) 0 = nth y (mat_Manufactured m) 0 /\
  nth y (mat_MFG_Scrap m) 0 = 0 /\
  nth y (mat_MFG_Scrap_Sentto_Recycling m) 0 = 0 /\
  nth y (mat_MFG_Scrap_Landfilled m) 0 = 0 /\
  nth y (mat_MFG_Scrap_Recycled m) 0 = 0 /\
  nth y (mat_MFG_Scrap_Recycled_Losses_Landfilled m) 0 = 0 /\
  nth y (mat_MFG_Recycled_into_HQ m) 0 = 0 /\
  nth y (mat_MFG_Recycled_into_OQ m) 0 = 0 /\
  nth y (mat_MFG_Recycled_HQ_into_MFG m) 0 = 0 /\
  nth y (mat_MFG_Recycled_HQ_into_OU m) 0 = 0.
Proof.
  intros Hlen Hy Heff m. unfold m, calculate_material, calculate_module.
  destruct (mfg_network_columns row_cdf df dm Hlen y Hy)
    as (M1 & M2 & M3 & M4 & M5 & M6 & M7 & M8 & M9 & M10 & M11).
  rewrite M1, M2, M3, M4, M5, M6, M7, M8, M9, M10, M11, Heff.
  replace (100 * 0.01) with 1 by lra. unfold Rdiv. rewrite Rinv_1.
  repeat apply conj; ring.
Qed.

(** C2 at the first year of [sample_df] and [sample_dm] (5000 m2 at 2 kg per
    m2, manufacturing efficiency 50): the manufactured mass is 10 000, the
    manufacturing input 20 000, and the scrap column holds -10 000: the
    program subtracts the input from the manufactured mass, where the claim
    has input minus manufactured, 10 000. *)
Theorem mfg_scrap_is_negative :
  let m := calculate_material sample_df sample_dm in
  0 < material_MFG_eff (nth 0 sample_dm zero_material_row) <= 100 /\
  nth 0 (mat_Manufactured m) 0 = 10000 /\
  nth 0 (mat_Manufacturing_Input m) 0 = 20000 /\
  nth 0 (mat_MFG_Scrap m) 0 = -10000 /\
  nth 0 (mat_MFG_Scrap m) 0
  <> nth 0 (mat_Manufacturing_Input m) 0 - nth 0 (mat_Manufactured m) 0 /\
  ~ 0 <= nth 0 (mat_MFG_Scrap m) 0.
Proof.
  intros m.
  assert (Hlen : length sample_dm = length sample_df) by reflexivity.
  assert (Hy : (0 < length sample_df)%nat) by (simpl; lia).
  destruct (mfg_network_columns row_cdf sample_df sample_dm Hlen 0 Hy)
    as (M1 & M2 & M3 & _).
  fold (calculate_module sample_df) in M1, M2, M3.
  fold (calculate_material sample_df sample_dm) in M1, M2, M3. fold m in M1, M2, M3.
  change (iloc sample_df 0) with sample_row in M1, M2, M3.
  change (nth 0 sample_dm zero_material_row) with sample_material_row in *.
  rewrite sample_area in M1, M2, M3.
  unfold sample_material_row in *.
  cbn [mat_massperm2 material_MFG_eff] in *.
  rewrite M1, M2, M3. repeat split; lra.
Qed.

(** ** In-place assignment and the frame of an invocation *)

Lemma getitem_setitem_other (cols : list (string * list R)) (c c' : string) (v : list R) :
  c <> c' -> getitem (setitem_columns cols c v) c' = getitem cols c'.
Proof.
  intros Hne. induction cols as [|[k w] t IH]; simpl.
  - destruct (String.eqb_spec c c'); [contradiction|reflexivity].
  - destruct (String.eqb_spec k c) as [->|Hk]; simpl.
    + destruct (String.eqb_spec c c'); [contradiction|reflexivity].
    + destruct (String.eqb_spec k c'); [reflexivity|exact IH].
Qed.

Lemma getitem_setitem_same (cols : list (string * list R)) (c : string) (v : list R) :
  getitem (setitem_columns cols c v) c = Some v.
Proof.
  induction cols as [|[k w] t IH]; simpl.
  - rewrite String.eqb_refl. reflexivity.
  - destruct (String.eqb_spec k c) as [->|Hk]; simpl.
    + rewrite String.eqb_refl. reflexivity.
    + destruct (String.eqb_spec k c); [contradiction|exact IH].
Qed.

Lemma getitem_setitem_present (cols : list (string * list R)) (c c' : string) (v : list R) :
  getitem cols c' <> None -> getitem (setitem_columns cols c v) c' <> None.
Proof.
  intros H. destruct (string_dec c c') as [->|Hne].
  - rewrite getitem_setitem_same. discriminate.
  - rewrite getitem_setitem_other by exact Hne. exact H.
Qed.

Lemma assign_all_nrows (assignments : list (string * list R)) (df : DataFrame) :
  nrows (assign_all assignments df) = nrows df.
Proof.
  unfold assign_all. revert df.
  induction assignments as [|[c v] t IH]; intros df; simpl; [reflexivity|].
  rewrite IH. reflexivity.
Qed.

Lemma assign_all_other (assignments : list (string * list R)) (df : DataFrame) (c : string) :
  ~ In c (map fst assignments) ->
  getitem (columns (assign_all assignments df)) c = getitem (columns df) c.
Proof.
  unfold assign_all. revert df.
  induction assignments as [|[k v] t IH]; intros df Hc; simpl; [reflexivity|].
  rewrite IH by (intros H; apply Hc; right; exact H).
  simpl. apply getitem_setitem_other. intros E. apply Hc. left. exact E.
Qed.

Lemma assign_all_present (assignments : list (string * list R)) (df : DataFrame) (c : string) :
  getitem (columns df) c <> None ->
  getitem (columns (assign_all assignments df)) c <> None.
Proof.
  unfold assign_all. revert df.
  induction assignments as [|[k v] t IH]; intros df Hc; simpl; [exact Hc|].
  apply IH. simpl. apply getitem_setitem_present. exact Hc.
Qed.

Lemma assign_all_assigned (assignments : list (string * list R)) (df : DataFrame) (c : string) :
  In c (map fst assignments) ->
  getitem (columns (assign_all assignments df)) c <> None.
Proof.
  revert df.
  induction assignments as [|[k v] t IH]; intros df Hc; simpl in *; [contradiction|].
  destruct Hc as [->|Hc].
  - apply (assign_all_present t). simpl. rewrite getitem_setitem_same. discriminate.
  - apply (IH (setitem df k v) Hc).
Qed.

(** *** The store *)

Lemma nth_error_list_set_same {A : Type} (l : list A) (i : nat) (v : A) :
  (i < length l)%nat -> nth_error (list_set l i v) i = Some v.
Proof.
  revert i. induction l as [|a t IH]; intros [|i] H; simpl in *; try lia; auto.
  apply IH. lia.
Qed.

Lemma nth_error_list_set_other {A : Type} (l : list A) (i j : nat) (v : A) :
  i <> j -> nth_error (list_set l i v) j = nth_error l j.
Proof.
  revert i j. induction l as [|a t IH]; intros [|i] [|j] H; simpl; auto; try lia.
Qed.

Lemma preserved_refl (names : list string) (h : list DataFrame) : preserved names h h.
Proof. intros l df H. exists df. auto. Qed.

Lemma preserved_trans (names : list string) (h1 h2 h3 : list DataFrame) :
  preserved names h1 h2 -> preserved names h2 h3 -> preserved names h1 h3.
Proof.
  intros H12 H23 l df H.
  destruct (H12 l df H) as (df2 & E2 & N2 & V2 & P2).
  destruct (H23 l df2 E2) as (df3 & E3 & N3 & V3 & P3).
  exists df3. repeat split.
  - exact E3.
  - congruence.
  - intros c Hc. rewrite V3, V2 by exact Hc. reflexivity.
  - intros c Hc. apply P3, P2, Hc.
Qed.

(** Assigning columns named in [names] to one object, in place. *)
Lemma preserved_assign (names : list string) (h : list DataFrame) (l : nat)
    (df : DataFrame) (assignments : list (string * list R)) :
  nth_error h l = Some df ->
  (forall c, In c (map fst assignments) -> In c names) ->
  preserved names h (list_set h l (assign_all assignments df)).
Proof.
  intros Hl Hnames l' df' H'. destruct (Nat.eq_dec l l') as [<-|Hne].
  - assert (df' = df) by congruence. subst df'.
    exists (assign_all assignments df). repeat split.
    + apply nth_error_list_set_same. apply nth_error_Some. congruence.
    + apply assign_all_nrows.
    + intros c Hc. apply assign_all_other. intros Hin. apply Hc, Hnames, Hin.
    + intros c Hc. apply assign_all_present, Hc.
  - exists df'. rewrite nth_error_list_set_other by exact Hne. auto.
Qed.

(** Creating a new object. *)
Lemma preserved_alloc (names : list string) (h : list DataFrame) (df : DataFrame) :
  preserved names h (h ++ [df]).
Proof.
  intros l df' H. exists df'. repeat split; auto.
  rewrite nth_error_app1; [exact H|]. apply nth_error_Some. congruence.
Qed.

Lemma module_names_computed (rows : list ModuleRow) (mf : ModuleFlow) (c : string) :
  In c (map fst (module_assignments rows mf)) -> In c computed_columns.
Proof. intros H. unfold computed_columns. apply in_or_app. left. exact H. Qed.

Lemma material_names_computed (m : MaterialFlow) (c : string) :
  In c (map fst (material_assignments m)) -> In c computed_columns.
Proof. intros H. unfold computed_columns. apply in_or_app. right. exact H. Qed.

(** *** The material loop *)

Lemma material_pass_spec (mf : ModuleFlow) (w w' : World) (mat : string * nat) :
  material_pass mf w mat = Some w' ->
  preserved computed_columns (heap w) (heap w') /\
  length (heap w') = length (heap w) /\
  exists dm', nth_error (heap w') (snd mat) = Some dm' /\
    forall c, In c material_computed_columns ->
              getitem (columns dm') c <> None.
Proof.
  unfold material_pass. intros H.
  destruct (nth_error (heap w) (snd mat)) as [dm|] eqn:El; [|discriminate].
  destruct (read_material dm) as [mrows|]; [|discriminate].
  destruct (nrows dm =? length (col_Area mf))%nat; [|discriminate].
  injection H as <-.
  change (heap (mkWorld ?a ?b)) with a.
  set (dm' := assign_all (material_assignments (material_flow mf mrows)) dm).
  change (heap {| heap := list_set (heap w) (snd mat) dm';
                  stdout := stdout w ++ [append "==> Working on Material :  " (fst mat)] |})
    with (list_set (heap w) (snd mat) dm').
  split; [|split].
  - exact (preserved_assign computed_columns (heap w) (snd mat) dm
             (material_assignments (material_flow mf mrows)) El
             (material_names_computed (material_flow mf mrows))).
  - apply list_set_length.
  - exists dm'. split.
    + apply nth_error_list_set_same. apply nth_error_Some. congruence.
    + intros c Hc.
      exact (assign_all_assigned (material_assignments (material_flow mf mrows)) dm c Hc).
Qed.

Lemma material_loop_spec (mf : ModuleFlow) (mats : list (string * nat)) (w w' : World) :
  material_loop mf w mats = Some w' ->
  preserved computed_columns (heap w) (heap w') /\
  length (heap w') = length (heap w) /\
  forall mat, In mat mats ->
    exists dm', nth_error (heap w') (snd mat) = Some dm' /\
      forall c, In c material_computed_columns ->
                getitem (columns dm') c <> None.
Proof.
  revert w. induction mats as [|mat rest IH]; intros w H; simpl in H.
  - injection H as <-. split; [apply preserved_refl|]. split; [reflexivity|].
    intros mat [].
  - destruct (material_pass mf w mat) as [w1|] eqn:E1; [|discriminate].
    destruct (material_pass_spec mf w w1 mat E1) as (P1 & L1 & dm1 & N1 & C1).
    destruct (IH w1 H) as (P2 & L2 & A2).
    split; [eapply preserved_trans; eassumption|]. split; [congruence|].
    intros mat' [<-|Hin]; [|apply A2, Hin].
    destruct (P2 _ _ N1) as (dm2 & N2 & _ & _ & Pr2).
    exists dm2. split; [exact N2|]. intros c Hc. apply Pr2, C1, Hc.
Qed.

(** *** One scenario, and all of them *)

Lemma scenario_pass_spec (w w2 : World) (scen scen' : string * ScenarioObj) :
  scenario_pass w scen = Some (w2, scen') ->
  preserved computed_columns (heap w) (heap w2) /\
  length (heap w2) = S (length (heap w)) /\
  scen' = (fst scen, mkScenario (length (heap w)) (scen_material (snd scen))) /\
  (exists df', nth_error (heap w2) (scen_data (snd scen)) = Some df' /\
     forall c, In c module_computed_columns -> getitem (columns df') c <> None) /\
  (forall mat, In mat (scen_material (snd scen)) ->
     exists dm', nth_error (heap w2) (snd mat) = Some dm' /\
       forall c, In c material_computed_columns -> getitem (columns dm') c <> None).
Proof.
  unfold scenario_pass. intros H.
  destruct (nth_error (heap w) (scen_data (snd scen))) as [df|] eqn:El; [|discriminate].
  destruct (read_module df) as [rows|]; [|discriminate].
  set (mf := calculate_module rows) in *.
  set (df_in_place := assign_all (module_assignments rows mf) df) in *.
  set (heap1 := list_set (heap w) (scen_data (snd scen)) df_in_place) in *.
  match type of H with
  | match material_loop mf ?x _ with _ => _ end = _ => set (w1 := x) in *
  end.
  destruct (material_loop mf w1 (scen_material (snd scen))) as [w2'|] eqn:Em;
    [|discriminate].
  injection H as <- <-.
  destruct (material_loop_spec mf _ w1 w2' Em) as (Pm & Lm & Am).
  assert (L1 : length heap1 = length (heap w)) by apply list_set_length.
  assert (P1 : preserved computed_columns (heap w) heap1).
  { exact (preserved_assign computed_columns (heap w) (scen_data (snd scen)) df
             (module_assignments rows mf) El (module_names_computed rows mf)). }
  assert (Hw1 : exists x, heap w1 = heap1 ++ [x]) by (eexists; reflexivity).
  destruct Hw1 as (x & Hw1).
  assert (P01 : preserved computed_columns (heap w) (heap w1)).
  { rewrite Hw1. eapply preserved_trans; [exact P1|apply preserved_alloc]. }
  split; [eapply preserved_trans; eassumption|].
  split; [rewrite Lm, Hw1, length_app, L1; simpl; lia|].
  split; [rewrite L1; reflexivity|].
  split; [|exact Am].
  assert (N1 : nth_error (heap w1) (scen_data (snd scen)) = Some df_in_place).
  { rewrite Hw1, nth_error_app1.
    - apply nth_error_list_set_same. apply nth_error_Some. congruence.
    - rewrite L1. apply nth_error_Some. congruence. }
  destruct (Pm _ _ N1) as (df2 & N2 & _ & _ & Pr2).
  exists df2. split; [exact N2|]. intros c Hc. apply Pr2.
  exact (assign_all_assigned (module_assignments rows mf) df c Hc).
Qed.

Lemma preserved_length (names : list string) (h h' : list DataFrame) :
  preserved names h h' -> (length h <= length h')%nat.
Proof.
  intros P. destruct h as [|a t] using rev_ind; [simpl; lia|].
  destruct (P (length t) a) as (df' & N & _).
  - rewrite nth_error_app2, Nat.sub_diag by lia. reflexivity.
  - assert (length t < length h')%nat by (apply nth_error_Some; congruence).
    rewrite length_app. simpl. lia.
Qed.

Lemma inputs_not_computed (c : string) :
  In c module_input_columns \/ In c material_input_columns -> ~ In c computed_columns.
Proof.
  assert (H : forallb (fun i => negb (existsb (String.eqb i) computed_columns))
                (module_input_columns ++ material_input_columns) = true)
    by (vm_compute; reflexivity).
  intros Hin Hc. rewrite forallb_forall in H.
  specialize (H c (proj2 (in_app_iff _ _ c) Hin)).
  apply negb_true_iff in H.
  assert (E : existsb (String.eqb c) computed_columns = true).
  { apply existsb_exists. exists c. split; [exact Hc|apply String.eqb_refl]. }
  congruence.
Qed.

(** The invocation on [sample_world] completes. *)
Lemma sample_invocation_completes :
  calculateMassFlow sample_world sample_scenario <> None.
Proof.
  unfold calculateMassFlow, scenario_pass, sample_scenario.
  cbn [snd fst scen_data scen_material sample_world heap nth_error].
  change (read_module sample_module_frame)
    with (Some (map (fun i =>
                 let at_ c := cell (columns sample_module_frame) c i in
                 mkModuleRow (at_ "new_Installed_Capacity_[MW]") (at_ "mod_eff")
                   (at_ "mod_reliability_t50") (at_ "mod_reliability_t90")
                   (at_ "mod_lifetime") (at_ "mod_degradation")
                   (at_ "mod_Repairing") (at_ "mod_Repowering")
                   (at_ "mod_EOL_collection_eff") (at_ "mod_EOL_collected_recycled"))%string
              (seq 0 (nrows sample_module_frame)))).
  cbv beta iota zeta.
  unfold material_loop, material_pass.
  cbn [snd fst heap nth_error list_set sample_module_frame sample_material_frame app].
  change (read_material sample_material_frame)
    with (Some (map (fun i =>
               let at_ c := cell (columns sample_material_frame) c i in
               mkMaterialRow (at_ "mat_massperm2") (at_ "mat_EOL_collected_Recycled")
                 (at_ "mat_EOL_Recycled_into_HQ") (at_ "mat_EOL_RecycledHQ_Reused4MFG")
                 (at_ "material_MFG_eff") (at_ "mat_MFG_scrap_recycled")
                 (at_ "mat_MFG_scrap_recycling_eff")
                 (at_ "mat_MFG_scrap_Recycled_into_HQ")
                 (at_ "mat_MFG_scrap_Recycled_into_HQ_Reused4MFG"))%string
            (seq 0 (nrows sample_material_frame)))).
  cbv beta iota zeta.
  match goal with
  | |- context [(?a =? ?b)%nat] => change (a =? b)%nat with true
  end.
  discriminate.
Qed.


Lemma calculateMassFlow_single (w w' : World) (scen : string * ScenarioObj)
    (scenario' : list (string * ScenarioObj)) :
  calculateMassFlow w [scen] = Some (w', scenario') ->
  exists s1, scenario_pass w scen = Some (w', s1) /\ scenario' = [s1].
Proof.
  simpl. destruct (scenario_pass w scen) as [[w1 s1]|]; [|discriminate].
  intros H. injection H as <- <-. exists s1. auto.
Qed.

(** C9 as stated fails: on [sample_world] the invocation completes, and the
    table object the caller handed in as the module baseline (address 0),
    which had no column [Area], has one afterwards; likewise the material
    table (address 1) and [mat_Manufactured].  The scenario's [data] then
    refers to another object, created by the call. *)
Lemma calculateMassFlow_assigns_in_place :
  exists w' scen',
    calculateMassFlow sample_world sample_scenario = Some (w', scen') /\
    getitem (columns sample_module_frame) "Area" = None /\
    (exists df', nth_error (heap w') 0 = Some df' /\
                 getitem (columns df') "Area" <> None) /\
    getitem (columns sample_material_frame) "mat_Manufactured" = None /\
    (exists dm', nth_error (heap w') 1 = Some dm' /\
                 getitem (columns dm') "mat_Manufactured" <> None) /\
    map (fun s => scen_data (snd s)) scen' = [2%nat].
Proof.
  destruct (calculateMassFlow sample_world sample_scenario) as [[w' scen']|] eqn:E;
    [|exfalso; exact (sample_invocation_completes E)].
  exists w', scen'. split; [reflexivity|].
  destruct (calculateMassFlow_single _ _ _ _ E) as (s1 & E1 & ->).
  destruct (scenario_pass_spec _ _ _ _ E1) as (_ & _ & -> & (df' & N & C) & A).
  split; [reflexivity|]. split.
  { exists df'. split; [exact N|]. apply C. vm_compute. tauto. }
  split; [reflexivity|]. split; [|reflexivity].
  destruct (A ("glass"%string, 1%nat)) as (dm' & Nm & Cm); [left; reflexivity|].
  exists dm'. split; [exact Nm|]. apply Cm. vm_compute. tauto.
Qed.

Lemma calculateMassFlow_spec (scenario : list (string * ScenarioObj)) :
  forall (w w' : World) (scenario' : list (string * ScenarioObj)),
    calculateMassFlow w scenario = Some (w', scenario') ->
    preserved computed_columns (heap w) (heap w') /\
    (forall scen, In scen scenario ->
       (exists df', nth_error (heap w') (scen_data (snd scen)) = Some df' /\
          forall c, In c module_computed_columns -> getitem (columns df') c <> None) /\
       (forall mat, In mat (scen_material (snd scen)) ->
          exists dm', nth_error (heap w') (snd mat) = Some dm' /\
            forall c, In c material_computed_columns ->
                      getitem (columns dm') c <> None)) /\
    map fst scenario' = map fst scenario /\
    map (fun s => scen_material (snd s)) scenario'
    = map (fun s => scen_material (snd s)) scenario /\
    Forall (fun s => (length (heap w) <= scen_data (snd s))%nat) scenario'.
Proof.
  induction scenario as [|scen rest IH]; intros w w' scenario' H; simpl in H.
  - injection H as <- <-. split; [apply preserved_refl|].
    split; [intros scen []|]. auto.
  - destruct (scenario_pass w scen) as [[w1 s1]|] eqn:E1; [|discriminate].
    destruct (calculateMassFlow w1 rest) as [[w2 rest']|] eqn:E2; [|discriminate].
    injection H as <- <-.
    destruct (scenario_pass_spec _ _ _ _ E1) as (P1 & L1 & -> & (df1 & N1 & C1) & A1).
    destruct (IH _ _ _ E2) as (P2 & A2 & F2 & M2 & G2).
    split; [eapply preserved_trans; eassumption|]. split; [|split; [|split]].
    + intros scen0 [<-|Hin]; [|apply A2, Hin]. split.
      * destruct (P2 _ _ N1) as (df2 & N2 & _ & _ & Pr2).
        exists df2. split; [exact N2|]. intros c Hc. apply Pr2, C1, Hc.
      * intros mat Hm. destruct (A1 mat Hm) as (dm1 & Nm1 & Cm1).
        destruct (P2 _ _ Nm1) as (dm2 & Nm2 & _ & _ & Pr2).
        exists dm2. split; [exact Nm2|]. intros c Hc. apply Pr2, Cm1, Hc.
    + simpl. rewrite F2. reflexivity.
    + simpl. rewrite M2. reflexivity.
    + constructor; [simpl; lia|].
      eapply Forall_impl; [|exact G2]. intros s Hs. simpl in Hs. lia.
Qed.

(** C9, amended.  A completed invocation assigns its computed columns in place:
    the table each scenario's [data] referred to holds the nine computed module
    columns afterwards and every material table the twenty-six computed
    material columns; each scenario's [data] is bound to a frame created by the
    call, the materials stay bound to their tables, and the method returns
    nothing.  Every table that existed before the call is still at its address
    with the same number of rows, and every column of it whose name is not one
    of the computed names, the baseline columns among them, has the values it
    had. *)
Theorem calculateMassFlow_frame :
  forall (w w' : World) (scenario scenario' : list (string * ScenarioObj)),
    calculateMassFlow w scenario = Some (w', scenario') ->
    (forall l df, nth_error (heap w) l = Some df ->
       exists df',
         nth_error (heap w') l = Some df' /\ nrows df' = nrows df /\
         (forall c, ~ In c computed_columns ->
                    getitem (columns df') c = getitem (columns df) c) /\
         (forall c, In c module_input_columns \/ In c material_input_columns ->
                    getitem (columns df') c = getitem (columns df) c)) /\
    (forall scen, In scen scenario ->
       (exists df', nth_error (heap w') (scen_data (snd scen)) = Some df' /\
          forall c, In c module_computed_columns -> getitem (columns df') c <> None) /\
       (forall mat, In mat (scen_material (snd scen)) ->
          exists dm', nth_error (heap w') (snd mat) = Some dm' /\
            forall c, In c material_computed_columns ->
                      getitem (columns dm') c <> None)) /\
    map fst scenario' = map fst scenario /\
    map (fun s => scen_material (snd s)) scenario'
    = map (fun s => scen_material (snd s)) scenario /\
    Forall (fun s => (length (heap w) <= scen_data (snd s))%nat) scenario'.
Proof.
  intros w w' scenario scenario' H.
  destruct (calculateMassFlow_spec scenario w w' scenario' H) as (P & A & F & M & G).
  split; [|auto].
  intros l df Hl. destruct (P l df Hl) as (df' & N & R' & V & _).
  exists df'. repeat split; try assumption.
  intros c Hc. apply V, inputs_not_computed, Hc.
Qed.

Lemma calculateMassFlow_frame_witness :
  exists w' scen',
    calculateMassFlow sample_world sample_scenario = Some (w', scen') /\
    exists df',
      nth_error (heap w') 0 = Some df' /\ nrows df' = 2%nat /\
      getitem (columns df') "mod_eff" = Some [20; 20].
Proof.
  destruct (calculateMassFlow sample_world sample_scenario) as [[w' scen']|] eqn:E;
    [|exfalso; exact (sample_invocation_completes E)].
  exists w', scen'. split; [reflexivity|].
  destruct (calculateMassFlow_frame sample_world w' sample_scenario scen' E)
    as (Hframe & _).
  destruct (Hframe 0%nat sample_module_frame eq_refl) as (df' & N & R' & _ & V).
  exists df'. split; [exact N|]. split; [exact R'|].
  rewrite V; [reflexivity|]. left. vm_compute. tauto.
Defined.

(** * Further properties of the cohort loop *)

(** ** The trajectories of the program *)

Lemma active_entry (F : ModuleRow -> R -> R) (df : list ModuleRow) (g y : nat) :
  (g < length df)%nat ->
  nth y (nth g (Generation_Active_byYear F df) []) 0
  = nth y (traj_active (generation_trajectory (F (iloc df g)) df g (iloc df g))) 0.
Proof.
  intros Hg. unfold Generation_Active_byYear.
  rewrite (nth_indep _ [] (traj_active (mkTrajectory [] [] [] [] [])))
    by (rewrite length_map, trajectories_length; exact Hg).
  rewrite map_nth, trajectories_nth by exact Hg. reflexivity.
Qed.

Lemma power_entry (F : ModuleRow -> R -> R) (df : list ModuleRow) (g y : nat) :
  (g < length df)%nat ->
  nth y (nth g (Generation_Power_byYear F df) []) 0
  = nth y (traj_power (generation_trajectory (F (iloc df g)) df g (iloc df g))) 0.
Proof.
  intros Hg. unfold Generation_Power_byYear.
  rewrite (nth_indep _ [] (traj_power (mkTrajectory [] [] [] [] [])))
    by (rewrite length_map, trajectories_length; exact Hg).
  rewrite map_nth, trajectories_nth by exact Hg. reflexivity.
Qed.

Lemma disposed_row (F : ModuleRow -> R -> R) (df : list ModuleRow) (g : nat) :
  (g < length df)%nat ->
  nth g (Generation_Disposed_byYear F df) []
  = zip_with Rplus
      (traj_failure (generation_trajectory (F (iloc df g)) df g (iloc df g)))
      (traj_degradation (generation_trajectory (F (iloc df g)) df g (iloc df g))).
Proof.
  intros Hg. unfold Generation_Disposed_byYear.
  set (h := fun t => zip_with Rplus (traj_failure t) (traj_degradation t)).
  rewrite (nth_indep _ [] (h (mkTrajectory [] [] [] [] [])))
    by (rewrite length_map, trajectories_length; exact Hg).
  rewrite map_nth, trajectories_nth by exact Hg. reflexivity.
Qed.

Lemma row_cdf_nonzero (row : ModuleRow) (x : R) : 0 < x -> row_cdf row x <> 0.
Proof. intros Hx. pose proof (row_cdf_live row x Hx). lra. Qed.

(** The CDF of [sample_row] (t50 = 10, t90 = 20) lies in [0,1]. *)
Lemma sample_cdf_range (x : R) : 0 <= x -> 0 <= row_cdf sample_row x <= 1.
Proof.
  intros [Hx|<-].
  - pose proof (row_cdf_live sample_row x Hx). lra.
  - rewrite sample_cdf_zero. lra.
Qed.

Lemma area_nonneg (row : ModuleRow) :
  0 <= new_Installed_Capacity_MW row -> 0 < mod_eff row -> 0 <= Area row.
Proof.
  intros Hcap Heff. unfold Area, irradiance_stc.
  apply Rmult_le_pos; [|lra]. apply Rmult_le_pos; [lra|].
  left. apply Rinv_0_lt_compat. lra.
Qed.

(** X1. In no year other than the end-of-life year of a generation, the year
    whose index equals [mod_lifetime] of the install row plus the install
    index, does the generation dispose of area by degradation; this holds for
    every closure the loop evaluates the ages with. *)
Theorem degradation_only_at_end_of_life :
  forall (f : R -> R) (df : list ModuleRow) (g y : nat) (row : ModuleRow),
    (g < length df)%nat -> (y < length df)%nat ->
    INR y <> mod_lifetime row + INR g ->
    nth y (traj_degradation (generation_trajectory f df g row)) 0 = 0.
Proof.
  intros f df g y row Hg Hy Hne.
  rewrite traj_degradation_eq by exact Hg.
  destruct (cohort_loop_stable df g row (map f (clipped_ages (length df) g)) y (length df))
    as (_ & _ & S3 & _); [lia|].
  rewrite S3. apply loop_degradation_zero. exact Hne.
Qed.

Lemma degradation_only_at_end_of_life_witness :
  nth 1 (traj_degradation
           (generation_trajectory (row_cdf sample_row) sample_df 0 sample_row)) 0 = 0.
Proof.
  apply (degradation_only_at_end_of_life (row_cdf sample_row) sample_df 0 1 sample_row).
  - simpl. lia.
  - simpl. lia.
  - unfold sample_row. cbn [mod_lifetime]. simpl. lra.
Defined.

(** X2. In the end-of-life year of a generation whose closure is 0 at the
    clipped age 0: when the pass of that year finds a nonzero CDF value, and
    the year before is the install year or found a nonzero value as well,
    repowering keeps the share [mod_Repowering] (of that year) of the area
    that failure left and disposes of the rest by degradation; when the pass
    finds the CDF value 0, the end-of-life test is not reached and the year
    records no active area and no degradation disposal. *)
Theorem end_of_life_repowering :
  forall (f : R -> R) (df : list ModuleRow) (g y : nat) (row : ModuleRow),
    let T := generation_trajectory f df g row in
    (g < y)%nat -> (y < length df)%nat -> f 0 = 0 ->
    INR y = mod_lifetime row + INR g ->
    (cdf_at f df g y <> 0 ->
     (y = g + 1)%nat \/ cdf_at f df g (y - 1) <> 0 ->
     let survived := nth (y - 1) (traj_active T) 0 - nth y (traj_failure T) 0 in
     nth y (traj_active T) 0 = survived * mod_Repowering (iloc df y) /\
     nth y (traj_degradation T) 0 = survived * (1 - mod_Repowering (iloc df y))) /\
    (cdf_at f df g y = 0 ->
     nth y (traj_active T) 0 = 0 /\ nth y (traj_degradation T) 0 = 0).
Proof.
  intros f df g y row T Hg Hy Hz Heol.
  assert (Hgen : (g < length df)%nat) by lia.
  split.
  - intros Hnz Hprev.
    apply (live_end_of_life f df g row Hgen Hz y Hg Hy Heol Hnz Hprev).
  - intros Hidle.
    destruct (recorded_idle f df g row Hgen y Hy ltac:(lia) Hidle) as (A & _ & D & _).
    split; assumption.
Qed.

Lemma end_of_life_repowering_witness :
  let T := generation_trajectory (row_cdf eol_row) eol_df 0 eol_row in
  nth 1 (traj_active T) 0
  = (nth 0 (traj_active T) 0 - nth 1 (traj_failure T) 0) * mod_Repowering (iloc eol_df 1) /\
  nth 1 (traj_degradation T) 0
  = (nth 0 (traj_active T) 0 - nth 1 (traj_failure T) 0)
    * (1 - mod_Repowering (iloc eol_df 1)).
Proof.
  assert (Hz : row_cdf eol_row 0 = 0) by (apply row_cdf_zero; simpl; lra).
  assert (Hnz : cdf_at (row_cdf eol_row) eol_df 0 1 <> 0).
  { rewrite (cdf_at_after (row_cdf eol_row) eol_df 0 1) by (simpl; lia).
    apply row_cdf_nonzero. simpl. lra. }
  destruct (end_of_life_repowering (row_cdf eol_row) eol_df 0 1 eol_row) as [L _].
  - lia.
  - simpl. lia.
  - exact Hz.
  - simpl. lra.
  - apply L; [exact Hnz|left; reflexivity].
Defined.

(** X3. For a generation whose closure is 0 at the clipped age 0 and which is
    installed in the last year or whose pass of the last year finds a nonzero
    CDF value, the area it has disposed of over the whole horizon (its row of
    the disposal matrix) and the area still active in the last year add up to
    its initial area, whatever happened in the years between. *)
Theorem horizon_area_balance :
  forall (F : ModuleRow -> R -> R) (df : list ModuleRow) (g : nat),
    (g < length df)%nat ->
    F (iloc df g) 0 = 0 ->
    (length df - 1)%nat = g \/ cdf_at (F (iloc df g)) df g (length df - 1) <> 0 ->
    Rsum (nth g (EOL (module_flow F df)) [])
    + nth (length df - 1) (nth g (Generation_Active_byYear F df) []) 0
    = Area (iloc df g).
Proof.
  intros F df g Hg Hz Hlast.
  cbn [EOL module_flow].
  rewrite disposed_row, active_entry by exact Hg.
  apply (live_horizon_balance (F (iloc df g)) df g (iloc df g) Hg Hz Hlast).
Qed.

Lemma horizon_area_balance_witness :
  Rsum (nth 0 (EOL (module_flow row_cdf sample_df)) [])
  + nth 2 (nth 0 (Generation_Active_byYear row_cdf sample_df) []) 0
  = Area (iloc sample_df 0).
Proof.
  apply (horizon_area_balance row_cdf sample_df 0).
  - simpl. lia.
  - apply row_cdf_zero. simpl. lra.
  - right. change (cdf_at (row_cdf sample_row) sample_df 0 2 <> 0).
    rewrite (cdf_at_after (row_cdf sample_row) sample_df 0 2) by (simpl; lia).
    apply row_cdf_nonzero. simpl. lra.
Defined.

(** X4. In every year other than the install year whose pass finds a nonzero
    CDF value, the power is the active area of that year times efficiency (in
    percent) and irradiance, degraded once for every earlier pass that found
    a nonzero CDF value: the exponent counts those passes, not the years.
    When the closure is 0 at the clipped age 0 and every year between the
    install year and the year found a nonzero value, that count is the number
    of years since the first year after installation. *)
Theorem power_after_install :
  forall (f : R -> R) (df : list ModuleRow) (g y : nat) (row : ModuleRow),
    let T := generation_trajectory f df g row in
    (g < length df)%nat -> (y < length df)%nat -> y <> g ->
    cdf_at f df g y <> 0 ->
    nth y (traj_power T) 0
    = nth y (traj_active T) 0 * mod_eff row * 0.01 * irradiance_stc
      * (1 - mod_degradation row / 100) ^ live_passes f df g y /\
    (f 0 = 0 -> (g < y)%nat ->
     (forall k, (g < k < y)%nat -> cdf_at f df g k <> 0) ->
     live_passes f df g y = (y - g - 1)%nat).
Proof.
  intros f df g y row T Hg Hy Hne Hnz.
  split.
  - apply (live_power f df g row Hg y Hy Hne Hnz).
  - intros Hz Hlt Hall. apply (live_passes_all f df g Hg Hz y Hlt Hall).
Qed.

Lemma power_after_install_witness :
  let T := generation_trajectory (row_cdf sample_row) sample_df 0 sample_row in
  nth 2 (traj_power T) 0
  = nth 2 (traj_active T) 0 * mod_eff sample_row * 0.01 * irradiance_stc
    * (1 - mod_degradation sample_row / 100) ^ live_passes (row_cdf sample_row) sample_df 0 2 /\
  live_passes (row_cdf sample_row) sample_df 0 2 = 1%nat.
Proof.
  assert (Hz : row_cdf sample_row 0 = 0) by (apply row_cdf_zero; simpl; lra).
  assert (Hlive : forall k, (0 < k < 3)%nat ->
                            cdf_at (row_cdf sample_row) sample_df 0 k <> 0).
  { intros k Hk.
    rewrite (cdf_at_after (row_cdf sample_row) sample_df 0 k) by (simpl; lia).
    apply row_cdf_nonzero.
    assert (Hk' : (1 <= k)%nat) by lia. apply le_INR in Hk'. simpl in *. lra. }
  destruct (power_after_install (row_cdf sample_row) sample_df 0 2 sample_row)
    as [P C].
  - simpl. lia.
  - simpl. lia.
  - lia.
  - apply Hlive. lia.
  - split; [exact P|].
    rewrite C; [reflexivity|exact Hz|lia|].
    intros k Hk. apply Hlive. lia.
Defined.

(** X5. For a generation with keypoints 0 < t50 < t90, the active area and the
    power are 0 in every year before the install year, and the active area of
    the install year is the full initial area. *)
Theorem before_install_active_power :
  forall (df : list ModuleRow) (g y : nat),
    (g < length df)%nat -> (y <= g)%nat ->
    0 < mod_reliability_t50 (iloc df g) < mod_reliability_t90 (iloc df g) ->
    ((y < g)%nat ->
     nth y (nth g (Generation_Active_byYear row_cdf df) []) 0 = 0 /\
     nth y (nth g (Generation_Power_byYear row_cdf df) []) 0 = 0) /\
    nth g (nth g (Generation_Active_byYear row_cdf df) []) 0 = Area (iloc df g).
Proof.
  intros df g y Hg Hy Hkey.
  pose proof (row_cdf_zero (iloc df g) Hkey) as Hz.
  split.
  - intros Hlt. rewrite power_entry, active_entry by exact Hg.
    rewrite traj_active_other, traj_power_other by (assumption || lia).
    destruct (final_before_install (row_cdf (iloc df g)) df g (iloc df g) Hg Hz y)
      as (Z1 & _ & _ & Z4); [lia|]. auto.
  - rewrite active_entry by exact Hg.
    destruct (traj_install_fix (row_cdf (iloc df g)) df g (iloc df g) Hg) as [Fx _].
    destruct (final_before_install (row_cdf (iloc df g)) df g (iloc df g) Hg Hz g)
      as (Z1 & _); [lia|].
    rewrite Fx, Z1. ring.
Qed.

Lemma before_install_active_power_witness :
  nth 0 (nth 1 (Generation_Active_byYear row_cdf sample_df) []) 0 = 0 /\
  nth 1 (nth 1 (Generation_Active_byYear row_cdf sample_df) []) 0 = 5000.
Proof.
  destruct (before_install_active_power sample_df 1 0) as [B I].
  - simpl. lia.
  - lia.
  - simpl. lra.
  - split; [apply B; lia|]. rewrite I. apply sample_area.
Defined.

(** X6. For a generation whose closure is 0 at the clipped age 0, with no
    end-of-life event up to the year [g + m]: when the pass of that year
    finds a nonzero CDF value (or the year is the install year), the active
    area of that year is the initial area times the product, over the years
    [g + 1 .. g + m], of [1 - F(k - g) * (1 - mod_Repairing(k))].  The CDF
    value of every age is applied to what the earlier ages left, and a year
    whose CDF value is 0 contributes the factor 1. *)
Theorem active_area_survival :
  forall (f : R -> R) (df : list ModuleRow) (g m : nat) (row : ModuleRow),
    let T := generation_trajectory f df g row in
    (g + m < length df)%nat -> f 0 = 0 ->
    m = 0%nat \/ cdf_at f df g (g + m) <> 0 ->
    (forall k, (g < k <= g + m)%nat -> INR k <> mod_lifetime row + INR g) ->
    nth (g + m) (traj_active T) 0 = Area row * survival f df g m.
Proof.
  intros f df g m row T Hm Hz Hlast Hno.
  assert (Hg : (g < length df)%nat) by lia.
  destruct (Nat.eq_dec m 0) as [->|Hne].
  - rewrite Nat.add_0_r.
    destruct (recorded_install f df g row Hg Hz) as [A _].
    unfold T. rewrite A. simpl. ring.
  - destruct Hlast as [E|Hnz]; [contradiction|].
    unfold T. rewrite (recorded_live f df g row Hg (g + m)) by (lia || exact Hnz).
    apply (loop_survival f df g row Hg Hz m Hm Hno).
Qed.

Lemma active_area_survival_witness :
  nth 2 (traj_active (generation_trajectory (row_cdf sample_row) sample_df 0 sample_row)) 0
  = Area sample_row * survival (row_cdf sample_row) sample_df 0 2.
Proof.
  apply (active_area_survival (row_cdf sample_row) sample_df 0 2 sample_row).
  - simpl. lia.
  - apply row_cdf_zero. simpl. lra.
  - right. change (cdf_at (row_cdf sample_row) sample_df 0 2 <> 0).
    rewrite (cdf_at_after (row_cdf sample_row) sample_df 0 2) by (simpl; lia).
    apply row_cdf_nonzero. simpl. lra.
  - intros k Hk. unfold sample_row. cbn [mod_lifetime].
    assert (Hk' : (k <= 2)%nat) by lia. apply le_INR in Hk'. simpl in Hk'. simpl. lra.
Defined.

Lemma flows_nonneg_entries (F : ModuleRow -> R -> R) (df : list ModuleRow) (g y : nat) :
  (g < length df)%nat -> (y < length df)%nat ->
  (forall x, 0 <= x -> 0 <= F (iloc df g) x <= 1) ->
  (forall r, In r df -> 0 <= mod_Repairing r <= 1 /\ 0 <= mod_Repowering r <= 1) ->
  0 <= new_Installed_Capacity_MW (iloc df g) -> 0 < mod_eff (iloc df g) ->
  0 <= nth y (nth g (EOL (module_flow F df)) []) 0 <= Area (iloc df g) /\
  0 <= nth y (nth g (Generation_Active_byYear F df) []) 0.
Proof.
  intros Hg Hy Hcdf Hrates Hcap Heff.
  cbn [EOL module_flow].
  rewrite disposed_entry, active_entry by assumption.
  destruct (traj_entries_nonneg (F (iloc df g)) df g (iloc df g) Hg
              Hcdf Hrates (area_nonneg _ Hcap Heff) y Hy)
    as (N1 & N2 & N3 & N4).
  repeat split; lra.
Qed.

(** X7. When the closure of a generation returns values in [0,1] at the ages
    x >= 0, the repair and repowering fractions lie in [0,1], the installed
    capacity is non-negative and the module efficiency positive, every entry
    of the generation's row of the disposal matrix lies between 0 and its
    initial area, and every entry of its row of the active-area matrix is
    non-negative. *)
Theorem flows_nonnegative :
  forall (F : ModuleRow -> R -> R) (df : list ModuleRow) (g y : nat),
    (g < length df)%nat -> (y < length df)%nat ->
    (forall x, 0 <= x -> 0 <= F (iloc df g) x <= 1) ->
    (forall r, In r df -> 0 <= mod_Repairing r <= 1 /\ 0 <= mod_Repowering r <= 1) ->
    0 <= new_Installed_Capacity_MW (iloc df g) -> 0 < mod_eff (iloc df g) ->
    0 <= nth y (nth g (EOL (module_flow F df)) []) 0 <= Area (iloc df g) /\
    0 <= nth y (nth g (Generation_Active_byYear F df) []) 0.
Proof.
  intros F df g y Hg Hy Hcdf Hrates Hcap Heff.
  exact (flows_nonneg_entries F df g y Hg Hy Hcdf Hrates Hcap Heff).
Qed.

Lemma flows_nonnegative_witness :
  0 <= nth 1 (nth 0 (EOL (module_flow row_cdf sample_df)) []) 0 <= Area (iloc sample_df 0).
Proof.
  apply (flows_nonnegative row_cdf sample_df 0 1).
  - simpl. lia.
  - simpl. lia.
  - intros x Hx. apply sample_cdf_range, Hx.
  - intros r [<-|[<-|[<-|[]]]]; simpl; lra.
  - simpl. lra.
  - simpl. lra.
Defined.

(** ** The cumulative columns *)

Lemma cumulative_nth (n : nat) (seqs : list (list R)) (init : list R) (y : nat) :
  (forall s, In s seqs -> length s = n) -> length init = n -> (y < n)%nat ->
  nth y (fold_left vadd seqs init) 0
  = nth y init 0 + Rsum (map (fun s => nth y s 0) seqs).
Proof.
  revert init. induction seqs as [|s seqs IH]; intros init Hs Hi Hy; simpl.
  - unfold Rsum. simpl. ring.
  - rewrite IH; auto with cols.
    + rewrite vadd_nth by (rewrite ?Hi, ?(Hs s (or_introl eq_refl)); exact Hy).
      unfold Rsum. simpl. ring.
    + intros s' H'. apply Hs. right. exact H'.
    + apply vadd_length; [exact Hi|]. apply Hs. left. reflexivity.
Qed.

Lemma Rsum_map_plus {A : Type} (h1 h2 : A -> R) (l : list A) :
  Rsum (map (fun a => h1 a + h2 a) l) = Rsum (map h1 l) + Rsum (map h2 l).
Proof.
  unfold Rsum. induction l as [|a t IH]; simpl; [ring|]. rewrite IH. ring.
Qed.

Lemma Rsum_fold_nth (y : nat) (l : list (list R)) :
  fold_right (fun r acc => nth y r 0 + acc) 0 l = Rsum (map (fun r => nth y r 0) l).
Proof.
  unfold Rsum. induction l as [|a t IH]; simpl; [reflexivity|]. rewrite IH. reflexivity.
Qed.

(** X8. In every year the cumulative disposed area is the sum of the cumulative
    failure-disposed and degradation-disposed areas, and each of the five
    cumulative columns is the sum, over all generations, of that year's entry
    of the generation's sequence. *)
Theorem cumulative_columns :
  forall (df : list ModuleRow) (y : nat),
    (y < length df)%nat ->
    let mf := calculate_module df in
    let over (seq_of : Trajectory -> list R) :=
      Rsum (map (fun t => nth y (seq_of t) 0) (trajectories row_cdf df)) in
    nth y (Cumulative_Area_disposed mf) 0
    = nth y (Cumulative_Area_disposedby_Failure mf) 0
      + nth y (Cumulative_Area_disposedby_Degradation mf) 0 /\
    nth y (Cumulative_Area_disposedby_Failure mf) 0 = over traj_failure /\
    nth y (Cumulative_Area_disposedby_Degradation mf) 0 = over traj_degradation /\
    nth y (Cumulative_Active_Area mf) 0 = over traj_active /\
    nth y (Cumulative_Power_W mf) 0 = over traj_power.
Proof.
  intros df y Hy mf over.
  assert (Hcum : forall seq_of : Trajectory -> list R,
             (forall t, In t (trajectories row_cdf df) ->
                        length (seq_of t) = length df) ->
             nth y (cumulative (length df) (map seq_of (trajectories row_cdf df))) 0
             = over seq_of).
  { intros seq_of Hlen. unfold cumulative.
    rewrite cumulative_nth with (n := length df); try exact Hy.
    - rewrite nth_repeat, map_map. unfold over. ring.
    - intros s Hs. apply in_map_iff in Hs. destruct Hs as (t & <- & Ht).
      apply Hlen, Ht.
    - apply repeat_length. }
  assert (HF : nth y (Cumulative_Area_disposedby_Failure mf) 0 = over traj_failure).
  { apply Hcum. intros t Ht. apply (trajectories_wf row_cdf df t Ht). }
  assert (HD : nth y (Cumulative_Area_disposedby_Degradation mf) 0
               = over traj_degradation).
  { apply Hcum. intros t Ht. apply (trajectories_wf row_cdf df t Ht). }
  split; [|split; [exact HF|split; [exact HD|split]]].
  - rewrite HF, HD. unfold mf, calculate_module. cbn [Cumulative_Area_disposed module_flow].
    rewrite (cumulative_disposed_nth df); try exact Hy.
    + rewrite nth_repeat, Rsum_fold_nth, map_map. unfold over.
      rewrite <- Rsum_map_plus. rewrite Rplus_0_l. unfold Rsum. f_equal.
      apply map_ext_in. intros t Ht.
      destruct (trajectories_wf row_cdf df t Ht) as (_ & L2 & L3 & _).
      apply zip_with_nth; lia.
    + intros t Ht. destruct (trajectories_wf row_cdf df t Ht) as (_ & L2 & L3 & _). auto.
    + apply repeat_length.
  - apply Hcum. intros t Ht. apply (trajectories_wf row_cdf df t Ht).
  - apply Hcum. intros t Ht. apply (trajectories_wf row_cdf df t Ht).
Qed.

Lemma cumulative_columns_witness :
  nth 1 (Cumulative_Area_disposed (calculate_module sample_df)) 0
  = nth 1 (Cumulative_Area_disposedby_Failure (calculate_module sample_df)) 0
    + nth 1 (Cumulative_Area_disposedby_Degradation (calculate_module sample_df)) 0.
Proof.
  apply (cumulative_columns sample_df 1). simpl. lia.
Defined.

(** ** Further properties of the material loop *)

Lemma weighted_sum_rows (M : matrix) (s : list R) (y : nat) :
  length s = length M ->
  fold_right (fun r acc => nth y r 0 + acc) 0 (multiply_index M s)
  = Rsum (map (fun g => nth y (nth g M []) 0 * nth g s 0) (seq 0 (length M))).
Proof.
  unfold multiply_index. revert s.
  induction M as [|r M IH]; intros [|m s] Hs; simpl in *; try discriminate.
  - reflexivity.
  - rewrite IH by lia. rewrite <- seq_shift, map_map.
    change (map (fun e => e * m) r) with (vscale m r). rewrite vscale_nth.
    unfold Rsum. simpl. reflexivity.
Qed.

Lemma Rsum_nonneg {A : Type} (h : A -> R) (l : list A) :
  (forall a, In a l -> 0 <= h a) -> 0 <= Rsum (map h l).
Proof.
  unfold Rsum. induction l as [|a t IH]; intros H; simpl; [lra|].
  assert (0 <= h a) by (apply H; left; reflexivity).
  assert (0 <= fold_right Rplus 0 (map h t)) by (apply IH; intros; apply H; right; auto).
  lra.
Qed.

Lemma disposed_mass_sum_flow (F : ModuleRow -> R -> R) (df : list ModuleRow)
    (dm : list MaterialRow) (y : nat) :
  length dm = length df -> (y < length df)%nat ->
  nth y (disposed_mass (module_flow F df) dm) 0
  = Rsum (map (fun g => nth y (nth g (EOL (module_flow F df)) []) 0
                        * mat_massperm2 (nth g dm zero_material_row))
              (seq 0 (length df))).
Proof.
  intros Hlen Hy. unfold disposed_mass.
  rewrite (col_Area_length F df).
  pose proof (EOL_wf F df) as W.
  assert (LE : length (EOL (module_flow F df)) = length df).
  { cbn [EOL module_flow]. unfold Generation_Disposed_byYear.
    rewrite length_map. apply trajectories_length. }
  rewrite (column_sums_nth df) by (try apply multiply_index_wf; assumption).
  rewrite weighted_sum_rows by (rewrite length_map, LE; exact Hlen).
  rewrite LE. unfold Rsum. f_equal. apply map_ext_in. intros g Hg.
  apply in_seq in Hg.
  rewrite (column_nth _ _ zero_material_row) by lia. reflexivity.
Qed.

Lemma disposed_mass_sum (df : list ModuleRow) (dm : list MaterialRow) (y : nat) :
  length dm = length df -> (y < length df)%nat ->
  nth y (disposed_mass (calculate_module df) dm) 0
  = Rsum (map (fun g => nth y (nth g (EOL (calculate_module df)) []) 0
                        * mat_massperm2 (nth g dm zero_material_row))
              (seq 0 (length df))).
Proof. apply (disposed_mass_sum_flow row_cdf df dm y). Qed.

(** X9. The material left in modules that are not collected, or collected but not
    recycled, in year y weighs each generation's disposed area with the mass
    per square metre of that generation's install year, and applies the
    collection efficiency and recycling rate of the disposal year y. *)
Theorem material_weighted_by_install_year :
  forall (df : list ModuleRow) (dm : list MaterialRow) (y : nat),
    length dm = length df -> (y < length df)%nat ->
    let mass :=
      Rsum (map (fun g => nth y (nth g (EOL (calculate_module df)) []) 0
                          * mat_massperm2 (nth g dm zero_material_row))
                (seq 0 (length df))) in
    let c := mod_EOL_collection_eff (iloc df y) * 0.01 in
    let r := mod_EOL_collected_recycled (iloc df y) * 0.01 in
    nth y (mat_modules_NotCollected (calculate_material df dm)) 0 = mass * (1 - c) /\
    nth y (mat_modules_NotRecycled (calculate_material df dm)) 0 = mass * c * (1 - r).
Proof.
  intros df dm y Hlen Hy mass c r. unfold calculate_material, calculate_module.
  rewrite (modules_NotCollected_eq row_cdf df dm y Hy).
  rewrite (modules_NotRecycled_eq row_cdf df dm y Hy).
  fold (calculate_module df). rewrite (disposed_mass_sum df dm y Hlen Hy).
  split; reflexivity.
Qed.

Lemma material_weighted_by_install_year_witness :
  nth 1 (mat_modules_NotCollected (calculate_material sample_df sample_dm)) 0
  = Rsum (map (fun g => nth 1 (nth g (EOL (calculate_module sample_df)) []) 0
                        * mat_massperm2 (nth g sample_dm zero_material_row))
              (seq 0 (length sample_df)))
    * (1 - mod_EOL_collection_eff (iloc sample_df 1) * 0.01).
Proof.
  apply (material_weighted_by_install_year sample_df sample_dm 1).
  - reflexivity.
  - simpl. lia.
Defined.

(** X10. Every split of the end-of-life material network is exhaustive: the
    material sent to recycling is the sum of what is recycled and the
    recycling losses, the recycled material is the sum of the high-quality and
    the other-quality fractions, and the high-quality material is the sum of
    what is reused in manufacturing and what goes to other uses. *)
Theorem eol_material_splits :
  forall (df : list ModuleRow) (dm : list MaterialRow) (y : nat),
    length dm = length df -> (y < length df)%nat ->
    let mat := calculate_material df dm in
    nth y (mat_EOL_Recycled mat) 0 + nth y (mat_EOL_Recycled_Losses_Landfilled mat) 0
    = nth y (mat_EOL_sento_Recycling mat) 0 /\
    nth y (mat_EoL_Recycled_into_HQ mat) 0 + nth y (mat_EoL_Recycled_into_OQ mat) 0
    = nth y (mat_EOL_Recycled mat) 0 /\
    nth y (mat_EoL_Recycled_HQ_into_MFG mat) 0 + nth y (mat_EOL_Recycled_HQ_into_OU mat) 0
    = nth y (mat_EoL_Recycled_into_HQ mat) 0.
Proof.
  intros df dm y Hlen Hy mat. unfold mat, calculate_material, calculate_module.
  destruct (eol_network_columns row_cdf df dm Hlen y Hy)
    as (E1 & E2 & E3 & E4 & E5 & E6 & E7 & E8).
  rewrite E1, E3, E4, E5, E6, E7, E8. repeat split; ring.
Qed.

Lemma eol_material_splits_witness :
  nth 1 (mat_EOL_Recycled (calculate_material sample_df sample_dm)) 0
  + nth 1 (mat_EOL_Recycled_Losses_Landfilled (calculate_material sample_df sample_dm)) 0
  = nth 1 (mat_EOL_sento_Recycling (calculate_material sample_df sample_dm)) 0.
Proof.
  apply (eol_material_splits sample_df sample_dm 1).
  - reflexivity.
  - simpl. lia.
Defined.

(** X11. When the closure of every row returns values in [0,1] at the ages
    x >= 0, every percentage of the module and material tables lies in
    [0,100], the repair and repowering fractions lie in [0,1], the installed
    capacities are non-negative, the efficiencies positive and the masses per
    area non-negative, the ten end-of-life material columns are non-negative
    in every year. *)
Theorem eol_material_nonnegative :
  forall (F : ModuleRow -> R -> R) (df : list ModuleRow) (dm : list MaterialRow)
         (y : nat),
    length dm = length df -> (y < length df)%nat ->
    (forall r, In r df ->
       (forall x, 0 <= x -> 0 <= F r x <= 1) /\
       0 <= mod_Repairing r <= 1 /\ 0 <= mod_Repowering r <= 1 /\
       0 <= new_Installed_Capacity_MW r /\ 0 < mod_eff r /\
       0 <= mod_EOL_collection_eff r <= 100 /\
       0 <= mod_EOL_collected_recycled r <= 100) ->
    (forall m, In m dm ->
       0 <= mat_massperm2 m /\
       0 <= mat_EOL_collected_Recycled m <= 100 /\
       0 <= mat_EOL_Recycled_into_HQ m <= 100 /\
       0 <= mat_EOL_RecycledHQ_Reused4MFG m <= 100) ->
    let mat := material_flow (module_flow F df) dm in
    0 <= nth y (mat_modules_NotCollected mat) 0 /\
    0 <= nth y (mat_modules_NotRecycled mat) 0 /\
    0 <= nth y (mat_EOL_sento_Recycling mat) 0 /\
    0 <= nth y (mat_EOL_NotRecycled_Landfilled mat) 0 /\
    0 <= nth y (mat_EOL_Recycled mat) 0 /\
    0 <= nth y (mat_EOL_Recycled_Losses_Landfilled mat) 0 /\
    0 <= nth y (mat_EoL_Recycled_into_HQ mat) 0 /\
    0 <= nth y (mat_EoL_Recycled_into_OQ mat) 0 /\
    0 <= nth y (mat_EoL_Recycled_HQ_into_MFG mat) 0 /\
    0 <= nth y (mat_EOL_Recycled_HQ_into_OU mat) 0.
Proof.
  intros F df dm y Hlen Hy Hdf Hdm mat.
  assert (Hmass : 0 <= nth y (disposed_mass (module_flow F df) dm) 0).
  { rewrite (disposed_mass_sum_flow F df dm y Hlen Hy). apply Rsum_nonneg.
    intros g Hg. apply in_seq in Hg.
    assert (Hin : In (iloc df g) df) by (apply nth_In; lia).
    destruct (Hdf _ Hin) as (Hcdf & _ & _ & Hcap & Heff & _).
    destruct (flows_nonneg_entries F df g y) as [[N _] _]; try lia; try assumption.
    - intros r Hr. destruct (Hdf r Hr) as (_ & A & B & _). split; assumption.
    - assert (Hm : In (nth g dm zero_material_row) dm) by (apply nth_In; lia).
      destruct (Hdm _ Hm) as (M & _). apply Rmult_le_pos; assumption. }
  assert (Hrow : In (iloc df y) df) by (apply nth_In; exact Hy).
  destruct (Hdf _ Hrow) as (_ & _ & _ & _ & _ & Hc & Hr).
  assert (Hm : In (nth y dm zero_material_row) dm) by (apply nth_In; lia).
  destruct (Hdm _ Hm) as (_ & Hp & Hh & Hu).
  unfold mat.
  rewrite (modules_NotCollected_eq F df dm y Hy).
  rewrite (modules_NotRecycled_eq F df dm y Hy).
  destruct (eol_network_columns F df dm Hlen y Hy)
    as (E1 & E2 & E3 & E4 & E5 & E6 & E7 & E8).
  rewrite E1, E2, E3, E4, E5, E6, E7, E8.
  rewrite (recycled_mass_eq F df dm y Hy).
  set (D := nth y (disposed_mass (module_flow F df) dm) 0) in *.
  set (c := mod_EOL_collection_eff (iloc df y) * 0.01).
  set (r := mod_EOL_collected_recycled (iloc df y) * 0.01).
  set (p := mat_EOL_collected_Recycled (nth y dm zero_material_row) * 0.01).
  set (h := mat_EOL_Recycled_into_HQ (nth y dm zero_material_row) * 0.01).
  set (u := mat_EOL_RecycledHQ_Reused4MFG (nth y dm zero_material_row) * 0.01).
  assert (Bc : 0 <= c <= 1) by (unfold c; lra).
  assert (Br : 0 <= r <= 1) by (unfold r; lra).
  assert (Bp : 0 <= p <= 1) by (unfold p; lra).
  assert (Bh : 0 <= h <= 1) by (unfold h; lra).
  assert (Bu : 0 <= u <= 1) by (unfold u; lra).
  assert (P1 : 0 <= D * c) by (apply Rmult_le_pos; lra).
  assert (P2 : 0 <= D * c * r) by (apply Rmult_le_pos; lra).
  assert (P3 : 0 <= D * c * r * p) by (apply Rmult_le_pos; lra).
  assert (P4 : 0 <= D * c * r * p * p) by (apply Rmult_le_pos; lra).
  assert (P5 : 0 <= D * c * r * p * p * h) by (apply Rmult_le_pos; lra).
  repeat split; apply Rmult_le_pos; lra.
Qed.

Lemma eol_material_nonnegative_witness :
  0 <= nth 1 (mat_modules_NotCollected
                (material_flow (module_flow row_cdf recycling_df) recycling_dm)) 0 /\
  0 <= nth 1 (mat_EOL_Recycled
                (material_flow (module_flow row_cdf recycling_df) recycling_dm)) 0.
Proof.
  assert (Hrange : forall x, 0 <= x -> 0 <= row_cdf recycling_row x <= 1).
  { intros x [Hx|<-].
    - pose proof (row_cdf_live recycling_row x Hx). lra.
    - rewrite (row_cdf_zero recycling_row) by (simpl; lra). lra. }
  destruct (eol_material_nonnegative row_cdf recycling_df recycling_dm 1)
    as (N1 & _ & _ & _ & N5 & _).
  - reflexivity.
  - simpl. lia.
  - intros r [<-|[<-|[]]]; (split; [exact Hrange|simpl; lra]).
  - intros m [<-|[<-|[]]]; simpl; lra.
  - split; assumption.
Defined.

(** ** Further properties of the Weibull fit *)

Lemma loglog_increasing (c1 c2 : R) :
  0 < c1 < 1 -> 0 < c2 < 1 -> c1 < c2 ->
  ln (- ln (1 - c1)) < ln (- ln (1 - c2)).
Proof.
  intros H1 H2 Hlt.
  pose proof (ln_neg_of_prob c1 H1) as N1.
  assert (ln (1 - c2) < ln (1 - c1)) by (apply ln_increasing; lra).
  apply ln_increasing; lra.
Qed.

Lemma fitted_alpha_pos (t1 c1 t2 c2 : R) :
  0 < t1 < t2 -> 0 < c1 < 1 -> 0 < c2 < 1 -> c1 < c2 ->
  0 < alpha (weibull_params t1 c1 t2 c2).
Proof.
  intros Ht H1 H2 Hc.
  assert (Hln : ln t1 < ln t2) by (apply ln_increasing; lra).
  rewrite (weibull_alpha_value t1 c1 t2 c2 H1 H2) by lra.
  pose proof (loglog_increasing c1 c2 H1 H2 Hc) as Ha.
  replace ((ln (- ln (1 - c1)) - ln (- ln (1 - c2))) / (ln t1 - ln t2))
    with ((ln (- ln (1 - c2)) - ln (- ln (1 - c1))) * / (ln t2 - ln t1))
    by (field; lra).
  apply Rmult_lt_0_compat; [lra|]. apply Rinv_0_lt_compat. lra.
Qed.

Lemma weibull_cdf_at_zero (p : WeibullParams) :
  0 < alpha p -> weibull_cdf p 0 = 0.
Proof.
  intros Ha. unfold weibull_cdf, np_power.
  replace (0 / beta p) with 0 by (unfold Rdiv; ring).
  destruct (Req_dec_T 0 0) as [_|N]; [|contradiction].
  destruct (Rlt_dec 0 (alpha p)) as [_|N]; [|contradiction].
  simpl. rewrite Ropp_0, exp_0. ring.
Qed.

Lemma weibull_cdf_positive_age (p : WeibullParams) (x : R) :
  0 < beta p -> 0 < x ->
  weibull_cdf p x = 1 - exp (- Rpower (x / beta p) (alpha p)).
Proof.
  intros Hb Hx. unfold weibull_cdf, np_power.
  assert (0 < x / beta p) by (apply Rdiv_lt_0_compat; assumption).
  destruct (Req_dec_T (x / beta p) 0) as [E|_]; [lra|]. reflexivity.
Qed.

Lemma weibull_cdf_nondecreasing (p : WeibullParams) (x y : R) :
  0 < alpha p -> 0 < beta p -> 0 <= x <= y ->
  weibull_cdf p x <= weibull_cdf p y.
Proof.
  intros Ha Hb [Hx Hxy].
  destruct (Req_dec_T y 0) as [Ey|Ny].
  - assert (x = 0) by lra. subst. lra.
  - assert (Hy : 0 < y) by lra.
    rewrite (weibull_cdf_positive_age p y Hb Hy).
    destruct (Req_dec_T x 0) as [Ex|Nx].
    + subst x. rewrite (weibull_cdf_at_zero p Ha).
      assert (exp (- Rpower (y / beta p) (alpha p)) < exp 0).
      { apply exp_increasing. unfold Rpower. pose proof (exp_pos (alpha p * ln (y / beta p))). lra. }
      rewrite exp_0 in H. lra.
    + assert (Hx' : 0 < x) by lra.
      rewrite (weibull_cdf_positive_age p x Hb Hx').
      assert (Hpow : Rpower (x / beta p) (alpha p) <= Rpower (y / beta p) (alpha p)).
      { apply Rle_Rpower_l; [lra|]. split.
        - apply Rdiv_lt_0_compat; assumption.
        - unfold Rdiv. apply Rmult_le_compat_r; [|lra].
          left. apply Rinv_0_lt_compat. exact Hb. }
      assert (exp (- Rpower (y / beta p) (alpha p)) <= exp (- Rpower (x / beta p) (alpha p))).
      { destruct Hpow as [Hlt|Heq].
        - left. apply exp_increasing. lra.
        - rewrite Heq. lra. }
      lra.
Qed.

(** X12. The fit through two keypoints with 0 < t1 < t2 and probabilities
    0 < c1 < c2 < 1 has a positive shape and a positive scale; its CDF is 0
    at age 0, non-decreasing over the ages x >= 0 and stays below 1. *)
Theorem weibull_cdf_monotone :
  forall t1 c1 t2 c2 : R,
    0 < t1 < t2 -> 0 < c1 < 1 -> 0 < c2 < 1 -> c1 < c2 ->
    let p := weibull_params t1 c1 t2 c2 in
    0 < alpha p /\ 0 < beta p /\
    weibull_cdf p 0 = 0 /\
    (forall x y : R, 0 <= x <= y -> weibull_cdf p x <= weibull_cdf p y) /\
    (forall x : R, 0 <= x -> weibull_cdf p x < 1).
Proof.
  intros t1 c1 t2 c2 Ht H1 H2 Hc p.
  pose proof (fitted_alpha_pos t1 c1 t2 c2 Ht H1 H2 Hc) as Ha.
  pose proof (weibull_beta_pos t1 c1 t2 c2) as Hb.
  fold p in Ha, Hb.
  split; [exact Ha|]. split; [exact Hb|].
  split; [apply weibull_cdf_at_zero; exact Ha|].
  split.
  - intros x y Hxy. apply weibull_cdf_nondecreasing; assumption.
  - intros x Hx. destruct (Req_dec_T x 0) as [E|N].
    + subst x. rewrite (weibull_cdf_at_zero p Ha). lra.
    + rewrite (weibull_cdf_positive_age p x Hb) by lra.
      pose proof (exp_pos (- Rpower (x / beta p) (alpha p))). lra.
Qed.

Lemma weibull_cdf_monotone_witness :
  weibull_cdf (weibull_params 10 0.5 20 0.9) 0 = 0.
Proof.
  apply (weibull_cdf_monotone 10 0.5 20 0.9); lra.
Defined.

(** X13. The fit does not depend on the order in which the two keypoints are
    given: for distinct positive ages and distinct probabilities in (0,1),
    swapping the keypoints gives the same shape and the same scale. *)
Theorem weibull_fit_symmetric :
  forall t1 c1 t2 c2 : R,
    0 < t1 -> 0 < t2 -> t1 <> t2 -> 0 < c1 < 1 -> 0 < c2 < 1 -> c1 <> c2 ->
    weibull_params t1 c1 t2 c2 = weibull_params t2 c2 t1 c1.
Proof.
  intros t1 c1 t2 c2 Ht1 Ht2 Hne H1 H2 Hc.
  assert (Hln : ln t1 <> ln t2) by (intros E; apply Hne; apply ln_inv; assumption).
  assert (Ha : ln (- ln (1 - c1)) <> ln (- ln (1 - c2))).
  { intros E. apply ln_inv in E.
    - assert (E' : ln (1 - c1) = ln (1 - c2)) by lra.
      apply ln_inv in E'; lra.
    - pose proof (ln_neg_of_prob c1 H1). lra.
    - pose proof (ln_neg_of_prob c2 H2). lra. }
  assert (EA : alpha (weibull_params t1 c1 t2 c2) = alpha (weibull_params t2 c2 t1 c1)).
  { rewrite (weibull_alpha_value t1 c1 t2 c2 H1 H2 Hln).
    rewrite (weibull_alpha_value t2 c2 t1 c1 H2 H1) by (intros E; apply Hln; symmetry; exact E).
    field. split; lra. }
  assert (EB : beta (weibull_params t1 c1 t2 c2) = beta (weibull_params t2 c2 t1 c1)).
  { rewrite (weibull_beta_value t1 c1 t2 c2 H1 H2 Ha).
    rewrite (weibull_beta_value t2 c2 t1 c1 H2 H1) by (intros E; apply Ha; symmetry; exact E).
    f_equal. field. split; lra. }
  destruct (weibull_params t1 c1 t2 c2) as [a b], (weibull_params t2 c2 t1 c1) as [a' b'].
  simpl in EA, EB. subst. reflexivity.
Qed.

Lemma weibull_fit_symmetric_witness :
  weibull_params 10 0.5 20 0.9 = weibull_params 20 0.9 10 0.5.
Proof.
  apply (weibull_fit_symmetric 10 0.5 20 0.9); lra.
Defined.

(** X14. For a positive scale and a positive age the value [weibull_pdf] returns
    is the derivative of [weibull_cdf] with the same parameters at that age,
    and it is non-negative when the shape is; at age 0 it returns no number. *)
Theorem weibull_pdf_is_cdf_derivative :
  forall (p : WeibullParams) (x : R),
    0 < beta p -> 0 < x ->
    exists d : R,
      weibull_pdf p x = Some d /\
      derivable_pt_lim (weibull_cdf p) x d /\
      (0 <= alpha p -> 0 <= d) /\
      weibull_pdf p 0 = None.
Proof.
  intros p x Hb Hx.
  assert (Hq : 0 < x / beta p) by (apply Rdiv_lt_0_compat; assumption).
  set (P := Rpower (x / beta p) (alpha p)).
  exists (alpha p / x * P * exp (- P)).
  split; [|split; [|split]].
  - unfold weibull_pdf, np_power.
    destruct (Req_dec_T x 0) as [E|_]; [lra|].
    destruct (Req_dec_T (x / beta p) 0) as [E|_]; [lra|]. reflexivity.
  - apply (derivable_pt_lim_locally_ext
             (fun z => 1 - exp (- exp (alpha p * ln (z * / beta p))))
             (weibull_cdf p) x (x / 2) (x + 1)).
    + lra.
    + intros z Hz. rewrite (weibull_cdf_positive_age p z Hb) by lra.
      reflexivity.
    + assert (D1 : derivable_pt_lim (fun z => z * / beta p) x (1 * / beta p)).
      { exact (derivable_pt_lim_scal_right id x 1 (/ beta p) (derivable_pt_lim_id x)). }
      assert (D2 : derivable_pt_lim (fun z => ln (z * / beta p)) x
                     (/ (x * / beta p) * (1 * / beta p))).
      { exact (derivable_pt_lim_comp (fun z => z * / beta p) ln x _ _ D1
                 (derivable_pt_lim_ln (x * / beta p) Hq)). }
      assert (D3 : derivable_pt_lim (fun z => alpha p * ln (z * / beta p)) x
                     (alpha p * (/ (x * / beta p) * (1 * / beta p)))).
      { exact (derivable_pt_lim_scal (fun z => ln (z * / beta p)) (alpha p) x _ D2). }
      assert (D4 : derivable_pt_lim (fun z => exp (alpha p * ln (z * / beta p))) x
                     (exp (alpha p * ln (x * / beta p))
                      * (alpha p * (/ (x * / beta p) * (1 * / beta p))))).
      { exact (derivable_pt_lim_comp
                 (fun z => alpha p * ln (z * / beta p)) exp x _ _ D3
                 (derivable_pt_lim_exp _)). }
      assert (D5 : derivable_pt_lim (fun z => - exp (alpha p * ln (z * / beta p))) x
                     (- (exp (alpha p * ln (x * / beta p))
                         * (alpha p * (/ (x * / beta p) * (1 * / beta p)))))).
      { exact (derivable_pt_lim_opp
                 (fun z => exp (alpha p * ln (z * / beta p))) x _ D4). }
      assert (D6 : derivable_pt_lim
                     (fun z => exp (- exp (alpha p * ln (z * / beta p)))) x
                     (exp (- exp (alpha p * ln (x * / beta p)))
                      * (- (exp (alpha p * ln (x * / beta p))
                            * (alpha p * (/ (x * / beta p) * (1 * / beta p))))))).
      { exact (derivable_pt_lim_comp
                 (fun z => - exp (alpha p * ln (z * / beta p))) exp x _ _ D5
                 (derivable_pt_lim_exp _)). }
      assert (D7 : derivable_pt_lim
                     (fun z => 1 - exp (- exp (alpha p * ln (z * / beta p)))) x
                     (0 - exp (- exp (alpha p * ln (x * / beta p)))
                          * (- (exp (alpha p * ln (x * / beta p))
                                * (alpha p * (/ (x * / beta p) * (1 * / beta p))))))).
      { exact (derivable_pt_lim_minus (fct_cte 1)
                 (fun z => exp (- exp (alpha p * ln (z * / beta p)))) x _ _
                 (derivable_pt_lim_const 1 x) D6). }
      replace (alpha p / x * P * exp (- P))
        with (0 - exp (- exp (alpha p * ln (x * / beta p)))
                  * (- (exp (alpha p * ln (x * / beta p))
                        * (alpha p * (/ (x * / beta p) * (1 * / beta p))))));
        [exact D7|].
      unfold P, Rpower, Rdiv. field. split; lra.
  - intros Ha. apply Rmult_le_pos; [|left; apply exp_pos].
    apply Rmult_le_pos; [|left; unfold P, Rpower; apply exp_pos].
    unfold Rdiv. apply Rmult_le_pos; [exact Ha|]. left. apply Rinv_0_lt_compat. exact Hx.
  - unfold weibull_pdf. destruct (Req_dec_T 0 0) as [_|N]; [reflexivity|contradiction].
Qed.

Lemma weibull_pdf_is_cdf_derivative_witness :
  exists d : R,
    weibull_pdf (mkParams 2 1) 1 = Some d /\
    derivable_pt_lim (weibull_cdf (mkParams 2 1)) 1 d /\
    (0 <= alpha (mkParams 2 1) -> 0 <= d) /\
    weibull_pdf (mkParams 2 1) 0 = None.
Proof.
  apply (weibull_pdf_is_cdf_derivative (mkParams 2 1) 1); simpl; lra.
Defined.

(** ** [_modDict] and [calculateLCA] *)

Lemma dict_get_set_same {V : Type} (d : dict V) (k : string) (v : V) :
  dict_get (dict_set d k v) k = Some v.
Proof.
  induction d as [|[k' w] t IH]; simpl.
  - rewrite String.eqb_refl. reflexivity.
  - destruct (String.eqb k' k) eqn:E; simpl; rewrite E; auto.
Qed.

Lemma dict_get_set_other {V : Type} (d : dict V) (k k' : string) (v : V) :
  k <> k' -> dict_get (dict_set d k v) k' = dict_get d k'.
Proof.
  intros Hne. induction d as [|[k0 w] t IH]; simpl.
  - destruct (String.eqb k k') eqn:E; [apply String.eqb_eq in E; contradiction|reflexivity].
  - destruct (String.eqb k0 k) eqn:E; simpl.
    + apply String.eqb_eq in E. subst k0.
      destruct (String.eqb k k') eqn:E'; [apply String.eqb_eq in E'; contradiction|reflexivity].
    + destruct (String.eqb k0 k'); auto.
Qed.

Lemma dict_get_absent {V : Type} (d : dict V) (k : string) :
  ~ In k (map fst d) -> dict_get d k = None.
Proof.
  induction d as [|[k' w] t IH]; simpl; intros H; [reflexivity|].
  destruct (String.eqb k' k) eqn:E.
  - apply String.eqb_eq in E. exfalso. apply H. left. exact E.
  - apply IH. intros Hin. apply H. right. exact Hin.
Qed.

Lemma dict_get_present {V : Type} (d : dict V) (k : string) :
  In k (map fst d) -> dict_get d k <> None.
Proof.
  induction d as [|[k' w] t IH]; simpl; intros H; [contradiction|].
  destruct (String.eqb k' k) eqn:E; [discriminate|].
  apply IH. destruct H as [H|H]; [|exact H].
  apply String.eqb_neq in E. contradiction.
Qed.

Lemma modDict_cons {V : Type} (o m : dict V) (k : string) (v : V) :
  _modDict o ((k, v) :: m) = _modDict (dict_set o k v) m.
Proof. reflexivity. Qed.

Lemma modDict_get {V : Type} (o m : dict V) (k : string) :
  NoDup (map fst m) ->
  dict_get (_modDict o m) k
  = match dict_get m k with
    | Some v => Some v
    | None => dict_get o k
    end.
Proof.
  revert o. induction m as [|[k0 v0] m IH]; intros o Hnd.
  - reflexivity.
  - rewrite modDict_cons. simpl in Hnd. inversion Hnd as [|? ? Hnotin Hnd']; subst.
    rewrite (IH _ Hnd'). simpl.
    destruct (String.eqb k0 k) eqn:E.
    + apply String.eqb_eq in E. subst k0.
      rewrite (dict_get_absent m k Hnotin). apply dict_get_set_same.
    + apply String.eqb_neq in E.
      rewrite (dict_get_set_other o k0 k v0 E). reflexivity.
Qed.

Lemma has_key_In {V : Type} (d : dict V) (k : string) :
  has_key d k = true <-> In k (map fst d).
Proof.
  unfold has_key. rewrite existsb_exists. split.
  - intros (x & Hin & E). apply String.eqb_eq in E. subst. exact Hin.
  - intros Hin. exists k. split; [exact Hin|apply String.eqb_refl].
Qed.

Lemma dict_set_keys {V : Type} (d : dict V) (k : string) (v : V) :
  map fst (dict_set d k v)
  = if has_key d k then map fst d else map fst d ++ [k].
Proof.
  unfold has_key. induction d as [|[k' w] t IH]; simpl.
  - reflexivity.
  - rewrite (String.eqb_sym k k').
    destruct (String.eqb k' k) eqn:E; simpl.
    + reflexivity.
    + rewrite IH. destruct (existsb (String.eqb k) (map fst t)); reflexivity.
Qed.

Lemma has_key_app_new {V : Type} (d : dict V) (k k' : string) (v : V) :
  k <> k' -> has_key (dict_set d k v) k' = has_key d k'.
Proof.
  intros Hne. unfold has_key. rewrite dict_set_keys.
  destruct (has_key d k); [reflexivity|].
  rewrite map_app || idtac. rewrite existsb_app. simpl.
  destruct (String.eqb k' k) eqn:E.
  - apply String.eqb_eq in E. subst. contradiction.
  - rewrite !orb_false_r. reflexivity.
Qed.

(** X15. The dict [_modDict] returns is the right-biased union of its arguments:
    a key of [moddict] has the value [moddict] gives it, whether or not
    [originaldict] had the key, and every other key keeps the value (or the
    absence) it had in [originaldict]. *)
Theorem modDict_lookup :
  forall (V : Type) (originaldict moddict : dict V) (k : string),
    NoDup (map fst moddict) ->
    dict_get (_modDict originaldict moddict) k
    = match dict_get moddict k with
      | Some v => Some v
      | None => dict_get originaldict k
      end.
Proof.
  intros V o m k Hnd. exact (modDict_get o m k Hnd).
Qed.

Lemma modDict_lookup_witness :
  dict_get (_modDict sample_original sample_moddict) "z"
  = match dict_get sample_moddict "z" with
    | Some v => Some v
    | None => dict_get sample_original "z"
    end.
Proof.
  apply (modDict_lookup nat sample_original sample_moddict "z"%string).
  repeat constructor; simpl; intuition discriminate.
Defined.

(** X16. The keys of the dict [_modDict] returns are the keys of [originaldict]
    in their order, followed by the keys of [moddict] that [originaldict]
    did not have, in the order of [moddict]; no key occurs twice. *)
Theorem modDict_keys :
  forall (V : Type) (originaldict moddict : dict V),
    NoDup (map fst originaldict) -> NoDup (map fst moddict) ->
    map fst (_modDict originaldict moddict)
    = map fst originaldict
      ++ filter (fun k => negb (has_key originaldict k)) (map fst moddict) /\
    NoDup (map fst (_modDict originaldict moddict)).
Proof.
  intros V o m Ho Hm.
  assert (Hkeys : forall o : dict V,
             map fst (_modDict o m)
             = map fst o ++ filter (fun k => negb (has_key o k)) (map fst m)).
  { clear o Ho. induction m as [|[k0 v0] m IH]; intros o.
    - simpl. rewrite app_nil_r. reflexivity.
    - rewrite modDict_cons. simpl in Hm. inversion Hm as [|? ? Hnotin Hnd']; subst.
      rewrite (IH Hnd'). rewrite dict_set_keys. simpl.
      assert (Hf : filter (fun k => negb (has_key (dict_set o k0 v0) k)) (map fst m)
                   = filter (fun k => negb (has_key o k)) (map fst m)).
      { apply filter_ext_in. intros k Hk. f_equal. apply has_key_app_new.
        intros E. subst. contradiction. }
      rewrite Hf. destruct (has_key o k0); simpl.
      + reflexivity.
      + rewrite <- app_assoc. reflexivity. }
  split; [apply Hkeys|].
  rewrite Hkeys. clear Hkeys.
  assert (Hnd : NoDup (filter (fun k => negb (has_key o k)) (map fst m)))
    by (apply NoDup_filter; exact Hm).
  revert Hnd.
  assert (Hdisj : forall k, In k (filter (fun k => negb (has_key o k)) (map fst m)) ->
                            ~ In k (map fst o)).
  { intros k Hk Hin. apply filter_In in Hk. destruct Hk as [_ Hk].
    apply has_key_In in Hin. rewrite Hin in Hk. discriminate. }
  revert Hdisj. generalize (filter (fun k => negb (has_key o k)) (map fst m)) as new.
  intros new Hdisj Hnd. induction Ho as [|k ks Hk Hks IH]; simpl.
  - exact Hnd.
  - constructor.
    + intros Hin. apply in_app_or in Hin. destruct Hin as [Hin|Hin]; [contradiction|].
      apply (Hdisj k Hin). left. reflexivity.
    + apply IH. intros k' Hk' Hin. apply (Hdisj k' Hk'). right. exact Hin.
Qed.

Lemma modDict_keys_witness :
  map fst (_modDict sample_original sample_moddict)
  = map fst sample_original
    ++ filter (fun k => negb (has_key sample_original k)) (map fst sample_moddict) /\
  NoDup (map fst (_modDict sample_original sample_moddict)).
Proof.
  apply (modDict_keys nat sample_original sample_moddict);
    repeat constructor; simpl; intuition discriminate.
Defined.

(** *** [calculateLCA] *)

Lemma impact_of_modified (m : dict Impact) (c : string) (d : Impact) (A : R) :
  NoDup (map fst m) -> dict_get impacts c = Some d ->
  impact_of (_modDict impacts m) c A
  = Some (Result (match dict_get m c with Some i => i | None => d end) * A).
Proof.
  intros Hnd Hd. unfold impact_of. rewrite (modDict_get impacts m c Hnd), Hd.
  destruct (dict_get m c); reflexivity.
Qed.

(** X17. Whatever [modified_impacts] holds, [calculateLCA] completes, and every
    entry of its tuple is the ['Result'] of the category, taken from
    [modified_impacts] when it has the category and from the default table
    otherwise, times the area; entries of [modified_impacts] under other
    names have no effect. *)
Theorem calculateLCA_values :
  forall (PVarea : R) (modified_impacts : dict Impact),
    NoDup (map fst modified_impacts) ->
    exists r : LCA,
      calculateLCA PVarea (Some modified_impacts) = Some r /\
      lca_values r
      = map (fun kv =>
               Result (match dict_get modified_impacts (fst kv) with
                       | Some i => i
                       | None => snd kv
                       end) * PVarea)
            impacts.
Proof.
  intros A m Hnd. unfold calculateLCA.
  rewrite (impact_of_modified m "Acidification" _ A Hnd eq_refl).
  rewrite (impact_of_modified m "Carcinogenics" _ A Hnd eq_refl).
  rewrite (impact_of_modified m "Ecotoxicity" _ A Hnd eq_refl).
  rewrite (impact_of_modified m "Eutrophication" _ A Hnd eq_refl).
  rewrite (impact_of_modified m "Fossil fuel depletion" _ A Hnd eq_refl).
  rewrite (impact_of_modified m "Global warming" _ A Hnd eq_refl).
  rewrite (impact_of_modified m "Non carcinogenics" _ A Hnd eq_refl).
  rewrite (impact_of_modified m "Ozone depletion" _ A Hnd eq_refl).
  rewrite (impact_of_modified m "Respiratory effects" _ A Hnd eq_refl).
  rewrite (impact_of_modified m "Smog" _ A Hnd eq_refl).
  eexists. split; [reflexivity|]. reflexivity.
Qed.

Lemma calculateLCA_values_witness :
  exists r : LCA,
    calculateLCA 2 (Some sample_modified_impacts) = Some r /\
    lca_values r
    = map (fun kv =>
             Result (match dict_get sample_modified_impacts (fst kv) with
                     | Some i => i
                     | None => snd kv
                     end) * 2)
          impacts.
Proof.
  apply (calculateLCA_values 2 sample_modified_impacts).
  repeat constructor; simpl; intuition.
Defined.

Lemma modDict_get_total {V : Type} (o m : dict V) (k : string) (d : V) :
  dict_get o k = Some d -> exists d', dict_get (_modDict o m) k = Some d'.
Proof.
  revert o d. induction m as [|[k0 v0] m IH]; intros o d Hd.
  - exists d. exact Hd.
  - rewrite modDict_cons. destruct (String.eqb k0 k) eqn:E.
    + apply String.eqb_eq in E. subst k0.
      apply (IH _ v0). apply dict_get_set_same.
    + apply String.eqb_neq in E. apply (IH _ d).
      rewrite (dict_get_set_other o k0 k v0 E). exact Hd.
Qed.

(** X18. [calculateLCA] completes whatever [modified_impacts] is, and the impacts
    are proportional to the area: the tuple for the area [k * A] is [k]
    times the tuple for [A], and the tuple for [A + B] is the sum of the
    tuples for [A] and [B]. *)
Theorem calculateLCA_linear :
  forall (modified_impacts : option (dict Impact)) (A B k : R),
    exists ra rb rs rk : LCA,
      calculateLCA A modified_impacts = Some ra /\
      calculateLCA B modified_impacts = Some rb /\
      calculateLCA (A + B) modified_impacts = Some rs /\
      calculateLCA (k * A) modified_impacts = Some rk /\
      lca_values rs = zip_with Rplus (lca_values ra) (lca_values rb) /\
      lca_values rk = map (Rmult k) (lca_values ra).
Proof.
  intros m A B k. unfold calculateLCA. cbv zeta.
  set (t := match m with Some m0 => _modDict impacts m0 | None => impacts end).
  assert (Ht : forall c d, dict_get impacts c = Some d ->
                           exists d', dict_get t c = Some d').
  { intros c d H. unfold t. destruct m as [m0|].
    - apply (modDict_get_total impacts m0 c d H).
    - exists d. exact H. }
  destruct (Ht "Acidification"%string _ eq_refl) as [e1 E1].
  destruct (Ht "Carcinogenics"%string _ eq_refl) as [e2 E2].
  destruct (Ht "Ecotoxicity"%string _ eq_refl) as [e3 E3].
  destruct (Ht "Eutrophication"%string _ eq_refl) as [e4 E4].
  destruct (Ht "Fossil fuel depletion"%string _ eq_refl) as [e5 E5].
  destruct (Ht "Global warming"%string _ eq_refl) as [e6 E6].
  destruct (Ht "Non carcinogenics"%string _ eq_refl) as [e7 E7].
  destruct (Ht "Ozone depletion"%string _ eq_refl) as [e8 E8].
  destruct (Ht "Respiratory effects"%string _ eq_refl) as [e9 E9].
  destruct (Ht "Smog"%string _ eq_refl) as [e10 E10].
  unfold impact_of. rewrite E1, E2, E3, E4, E5, E6, E7, E8, E9, E10.
  do 4 eexists. repeat (split; [reflexivity|]).
  unfold lca_values.
  cbn [acidification carcinogenics ecotoxicity eutrophication
       fossil_fuel_depletion global_warming non_carcinogenics ozone_depletion
       respiratory_effects smog zip_with map].
  split; repeat (apply (f_equal2 (@cons R)); [ring|]); reflexivity.
Qed.

(** ** [sens_StageImprovement] and [sens_StageEfficiency] *)

Lemma zip_with_nth_gen {A B D : Type} (f : A -> B -> D) (l1 : list A) (l2 : list B)
    (da : A) (db : B) (dd : D) (i : nat) :
  (i < length l1)%nat -> (i < length l2)%nat ->
  nth i (zip_with f l1 l2) dd = f (nth i l1 da) (nth i l2 db).
Proof.
  revert l2 i. induction l1 as [|a t IH]; intros [|b l2] i H1 H2; simpl in *; try lia.
  destruct i; [reflexivity|]. apply IH; lia.
Qed.

Lemma setitem_columns_twice (cols : list (string * list R)) (c : string) (v v' : list R) :
  setitem_columns (setitem_columns cols c v) c v' = setitem_columns cols c v'.
Proof.
  induction cols as [|[k w] t IH]; simpl.
  - rewrite String.eqb_refl. reflexivity.
  - destruct (String.eqb k c) eqn:E; simpl; rewrite E; [reflexivity|].
    rewrite IH. reflexivity.
Qed.

Lemma setitem_columns_names (cols : list (string * list R)) (c : string) (v : list R) :
  getitem cols c <> None ->
  map fst (setitem_columns cols c v) = map fst cols.
Proof.
  induction cols as [|[k w] t IH]; simpl; intros H.
  - contradiction.
  - destruct (String.eqb k c) eqn:E; simpl; [reflexivity|].
    rewrite IH by exact H. reflexivity.
Qed.

Lemma zip_with_improve_twice (s : Z) (k1 k2 : R) (idx : list Z) (col : list R) :
  zip_with (improve s k2) idx (zip_with (improve s k1) idx col)
  = zip_with (improve s (k1 * k2)) idx col.
Proof.
  revert col. induction idx as [|y idx IH]; intros [|x col]; simpl; try reflexivity.
  rewrite IH. f_equal. unfold improve. destruct (s <? y)%Z; [ring|reflexivity].
Qed.

(** X19. [sens_StageImprovement] fails exactly when the stage is not a column of
    the table.  Otherwise it keeps the index, the number of rows, the names
    and order of the columns and every other column; in the stage column the
    rows of the years after the start year are multiplied by the improvement
    and the rows up to and including the start year keep their values. *)
Theorem sens_StageImprovement_effect :
  forall (now : Z) (df : IndexedFrame) (stage : string) (improvement : R)
         (start_year : option Z),
    (getitem (columns (table df)) stage = None ->
     sens_StageImprovement now df stage improvement start_year = None) /\
    (forall col : list R,
        getitem (columns (table df)) stage = Some col ->
        length col = length (df_index df) ->
        exists (df' : IndexedFrame) (col' : list R),
          sens_StageImprovement now df stage improvement start_year = Some df' /\
          df_index df' = df_index df /\
          nrows (table df') = nrows (table df) /\
          map fst (columns (table df')) = map fst (columns (table df)) /\
          getitem (columns (table df')) stage = Some col' /\
          length col' = length col /\
          (forall i : nat,
              (i < length col)%nat ->
              nth i col' 0
              = if (start_year_or_now now start_year <? nth i (df_index df) 0%Z)%Z
                then nth i col 0 * improvement
                else nth i col 0) /\
          (forall c : string,
              c <> stage ->
              getitem (columns (table df')) c = getitem (columns (table df)) c)).
Proof.
  intros now df stage k s. split.
  - intros Hnone. unfold sens_StageImprovement. rewrite Hnone. reflexivity.
  - intros col Hcol Hlen. unfold sens_StageImprovement. rewrite Hcol.
    eexists. eexists. split; [reflexivity|]. cbn [df_index table setitem nrows columns].
    split; [reflexivity|]. split; [reflexivity|].
    split; [apply setitem_columns_names; rewrite Hcol; discriminate|].
    split; [apply getitem_setitem_same|].
    split; [rewrite zip_with_length, Hlen; apply Nat.min_id|].
    split.
    + intros i Hi.
      rewrite (zip_with_nth_gen (improve (start_year_or_now now s) k) (df_index df) col
                 0%Z 0 0 i) by lia.
      reflexivity.
    + intros c Hc. apply getitem_setitem_other. intros E. apply Hc. symmetry. exact E.
Qed.

Lemma sens_StageImprovement_effect_witness :
  exists (df' : IndexedFrame) (col' : list R),
    sens_StageImprovement 2030 sample_indexed "mod_eff" 2 (Some 2021%Z) = Some df' /\
    getitem (columns (table df')) "mod_eff" = Some col' /\
    nth 1 col' 0 = 10 /\ nth 2 col' 0 = 10 * 2.
Proof.
  destruct (proj2 (sens_StageImprovement_effect 2030 sample_indexed "mod_eff" 2
                     (Some 2021%Z)) [10; 10; 10; 10; 10] eq_refl eq_refl)
    as (df' & col' & E & _ & _ & _ & G & _ & V & _).
  exists df', col'. split; [exact E|]. split; [exact G|].
  split; [apply (V 1%nat); simpl; lia|apply (V 2%nat); simpl; lia].
Defined.

(** X20. Two improvements of the same stage from the same start year compose to
    one improvement by the product of the factors; when the stage is missing
    both ways fail. *)
Theorem sens_StageImprovement_compose :
  forall (now : Z) (df : IndexedFrame) (stage : string) (k1 k2 : R)
         (start_year : option Z),
    match sens_StageImprovement now df stage k1 start_year with
    | Some df1 =>
        sens_StageImprovement now df1 stage k2 start_year
        = sens_StageImprovement now df stage (k1 * k2) start_year
    | None => sens_StageImprovement now df stage (k1 * k2) start_year = None
    end.
Proof.
  intros now df stage k1 k2 s. unfold sens_StageImprovement.
  destruct (getitem (columns (table df)) stage) as [col|] eqn:Hcol; [|reflexivity].
  cbn [table df_index setitem columns nrows].
  rewrite getitem_setitem_same. unfold setitem. cbn [columns nrows].
  rewrite setitem_columns_twice, zip_with_improve_twice.
  reflexivity.
Qed.

(** *** Interpolation *)

Lemma interpolate_from_length (l : list (option R)) :
  forall prev, length (interpolate_from prev l) = length l.
Proof.
  induction l as [|[v|] t IH]; intros prev; simpl; [reflexivity|auto|].
  destruct prev as [[a d]|]; simpl; auto.
Qed.

Lemma interpolate_from_cons (prev : option (R * nat)) (x : option R) (t : list (option R)) :
  exists y prev', interpolate_from prev (x :: t) = y :: interpolate_from prev' t.
Proof.
  destruct x as [v|]; simpl; [eauto|].
  destruct prev as [[a d]|]; eauto.
Qed.

Lemma interpolate_from_keeps (l : list (option R)) :
  forall prev i v,
    nth_error l i = Some (Some v) ->
    nth_error (interpolate_from prev l) i = Some (Some v).
Proof.
  induction l as [|x t IH]; intros prev [|i] v H; simpl in H; try discriminate.
  - injection H as ->. reflexivity.
  - destruct (interpolate_from_cons prev x t) as (y & prev' & ->). simpl.
    apply IH. exact H.
Qed.

Lemma interpolate_from_leading (l : list (option R)) :
  forall i,
    (forall q, (q <= i)%nat -> nth_error l q = Some None) ->
    nth_error (interpolate_from None l) i = Some None.
Proof.
  induction l as [|x t IH]; intros i H.
  - specialize (H 0%nat ltac:(lia)). discriminate.
  - assert (x = None) by (specialize (H 0%nat ltac:(lia)); simpl in H; congruence).
    subst x. simpl. destruct i as [|i]; [reflexivity|]. simpl.
    apply IH. intros q Hq. apply (H (S q)). lia.
Qed.

Lemma next_valid_run (t : list (option R)) :
  forall j b,
    (forall q, (q < j)%nat -> nth_error t q = Some None) ->
    nth_error t j = Some (Some b) ->
    next_valid t = Some (j, b).
Proof.
  induction t as [|x t IH]; intros [|j] b Hrun Hj; simpl in Hj; try discriminate.
  - injection Hj as ->. reflexivity.
  - assert (x = None) by (specialize (Hrun 0%nat ltac:(lia)); simpl in Hrun; congruence).
    subst x. simpl. rewrite (IH j b); [reflexivity| |exact Hj].
    intros q Hq. apply (Hrun (S q)). lia.
Qed.

Lemma next_valid_none (t : list (option R)) :
  (forall q, (q < length t)%nat -> nth_error t q = Some None) ->
  next_valid t = None.
Proof.
  induction t as [|x t IH]; intros H; [reflexivity|].
  assert (x = None) by (specialize (H 0%nat ltac:(simpl; lia)); simpl in H; congruence).
  subst x. simpl. rewrite IH; [reflexivity|].
  intros q Hq. apply (H (S q)). simpl. lia.
Qed.

Lemma interpolate_from_run (t : list (option R)) :
  forall a d j k b,
    (forall q, (q < j)%nat -> nth_error t q = Some None) ->
    nth_error t j = Some (Some b) ->
    (k < j)%nat ->
    nth_error (interpolate_from (Some (a, d)) t) k
    = Some (Some (a + (b - a) * INR (d + k) / INR (d + j))).
Proof.
  induction t as [|x t IH]; intros a d [|j] k b Hrun Hj Hk; simpl in Hj;
    try discriminate; try lia.
  assert (x = None) by (specialize (Hrun 0%nat ltac:(lia)); simpl in Hrun; congruence).
  subst x.
  assert (Hrun' : forall q, (q < j)%nat -> nth_error t q = Some None)
    by (intros q Hq; apply (Hrun (S q)); lia).
  simpl. rewrite (next_valid_run t j b Hrun' Hj).
  destruct k as [|k]; simpl.
  - replace (d + j + 1)%nat with (d + S j)%nat by lia.
    replace (d + 0)%nat with d by lia. reflexivity.
  - rewrite (IH a (S d) j k b Hrun' Hj) by lia.
    replace (S d + k)%nat with (d + S k)%nat by lia.
    replace (S d + j)%nat with (d + S j)%nat by lia. reflexivity.
Qed.

Lemma interpolate_from_tail (t : list (option R)) :
  forall a d k,
    (forall q, (q < length t)%nat -> nth_error t q = Some None) ->
    (k < length t)%nat ->
    nth_error (interpolate_from (Some (a, d)) t) k = Some (Some a).
Proof.
  induction t as [|x t IH]; intros a d k Hrun Hk; simpl in Hk; [lia|].
  assert (x = None) by (specialize (Hrun 0%nat ltac:(simpl; lia)); simpl in Hrun; congruence).
  subst x.
  assert (Hrun' : forall q, (q < length t)%nat -> nth_error t q = Some None)
    by (intros q Hq; apply (Hrun (S q)); simpl; lia).
  simpl. rewrite (next_valid_none t Hrun').
  destruct k as [|k]; simpl; [reflexivity|].
  apply IH; [exact Hrun'|lia].
Qed.

Lemma interpolate_from_between (l : list (option R)) :
  forall prev i j k a b,
    nth_error l i = Some (Some a) ->
    (forall q, (i < q < j)%nat -> nth_error l q = Some None) ->
    nth_error l j = Some (Some b) ->
    (i < k < j)%nat ->
    nth_error (interpolate_from prev l) k
    = Some (Some (a + (b - a) * INR (k - i) / INR (j - i))).
Proof.
  induction l as [|x t IH]; intros prev i j k a b Hi Hrun Hj Hk.
  - destruct i; discriminate.
  - destruct j as [|j]; [lia|]. destruct k as [|k]; [lia|].
    destruct i as [|i].
    + simpl in Hi. injection Hi as ->. simpl.
      rewrite (interpolate_from_run t a 1 j k b); try lia.
      * replace (1 + k)%nat with (S k - 0)%nat by lia.
        replace (1 + j)%nat with (S j - 0)%nat by lia. reflexivity.
      * intros q Hq. apply (Hrun (S q)). lia.
      * exact Hj.
    + destruct (interpolate_from_cons prev x t) as (y & prev' & ->). simpl.
      rewrite (IH prev' i j k a b); try lia.
      * reflexivity.
      * exact Hi.
      * intros q Hq. apply (Hrun (S q)). lia.
      * exact Hj.
Qed.

Lemma interpolate_from_after (l : list (option R)) :
  forall prev i k a,
    nth_error l i = Some (Some a) ->
    (forall q, (i < q < length l)%nat -> nth_error l q = Some None) ->
    (i < k < length l)%nat ->
    nth_error (interpolate_from prev l) k = Some (Some a).
Proof.
  induction l as [|x t IH]; intros prev i k a Hi Hrun Hk.
  - destruct i; discriminate.
  - destruct k as [|k]; [lia|]. simpl in Hk.
    destruct i as [|i].
    + simpl in Hi. injection Hi as ->. simpl.
      apply interpolate_from_tail; [|lia].
      intros q Hq. apply (Hrun (S q)). simpl. lia.
    + destruct (interpolate_from_cons prev x t) as (y & prev' & ->). simpl.
      apply (IH prev' i k a); try lia.
      * exact Hi.
      * intros q Hq. apply (Hrun (S q)). simpl. lia.
Qed.

(** *** [sens_StageEfficiency] *)

Lemma scale_target_range (t : R) :
  (~ 100 < scale_target t /\ ~ scale_target t < 0) <-> 0 <= t <= 100.
Proof.
  unfold scale_target, Rabs.
  destruct (Rcase_abs t) as [Hneg|Hpos];
    repeat match goal with
           | |- context [Rlt_dec ?a ?b] => destruct (Rlt_dec a b)
           end; split; intros; lra.
Qed.

Lemma dict_get_na_copy (cols : list (string * list R)) (c : string) :
  dict_get (map (fun kv => (fst kv, map Some (snd kv))) cols) c
  = option_map (map Some) (getitem cols c).
Proof.
  induction cols as [|[k w] t IH]; simpl; [reflexivity|].
  destruct (String.eqb k c); [reflexivity|exact IH].
Qed.

(** X21. [sens_StageEfficiency] returns a frame exactly when the start year is not
    after the goal year, the target lies in [0,100] and the stage is a column
    of the table; in every other case it returns None.  A target strictly
    between 0 and 1 is accepted and read as a fraction; a negative target,
    even one above -1, is refused. *)
Theorem sens_StageEfficiency_accepts :
  forall (now : Z) (df : IndexedFrame) (stage : string) (target_eff : R)
         (start_year : option Z) (goal_year : Z),
    fst (sens_StageEfficiency now df stage target_eff start_year goal_year) <> None
    <-> ((start_year_or_now now start_year <= goal_year)%Z /\
         0 <= target_eff <= 100 /\
         getitem (columns (table df)) stage <> None).
Proof.
  intros now df stage t s goal. unfold sens_StageEfficiency.
  pose proof (scale_target_range t) as Hr.
  destruct (Z.ltb_spec goal (start_year_or_now now s)) as [Hlt|Hge].
  - simpl. split; [intros H; congruence|intros (H & _); lia].
  - destruct (Rlt_dec 100 (scale_target t)) as [H100|H100].
    + simpl. split; [intros H; congruence|]. intros (_ & Ht & _).
      apply Hr in Ht. destruct Ht. contradiction.
    + destruct (Rlt_dec (scale_target t) 0) as [H0|H0].
      * simpl. split; [intros H; congruence|]. intros (_ & Ht & _).
        apply Hr in Ht. destruct Ht. contradiction.
      * destruct (getitem (columns (table df)) stage) as [col|] eqn:Hcol; simpl.
        -- split; [|discriminate]. intros _. split; [lia|]. split; [|discriminate].
           apply Hr. split; assumption.
        -- split; [intros H; congruence|]. intros (_ & _ & H). congruence.
Qed.

Lemma sens_StageEfficiency_accepts_witness :
  fst (sens_StageEfficiency 2030 sample_indexed "mod_eff" 0.5 (Some 2021%Z) 2023) <> None.
Proof.
  apply (proj2 (sens_StageEfficiency_accepts 2030 sample_indexed "mod_eff" 0.5
                  (Some 2021%Z) 2023)).
  split; [simpl; lia|]. split; [lra|]. simpl. discriminate.
Defined.

Section Efficiency.

Variable now : Z.
Variable df : IndexedFrame.
Variable stage : string.
Variable target_eff : R.
Variable start_year : option Z.
Variable goal_year : Z.
Variable col : list R.

Hypothesis Hstage : getitem (columns (table df)) stage = Some col.
Hypothesis Hlen : length col = length (df_index df).
Hypothesis Htarget : 0 <= target_eff <= 100.
Hypothesis Horder : (start_year_or_now now start_year <= goal_year)%Z.

Local Abbreviation start := (start_year_or_now now start_year).
Local Abbreviation masked :=
  (zip_with (mask_stage (start_year_or_now now start_year) goal_year
               (scale_target target_eff))
     (df_index df) col).

Lemma efficiency_result :
  fst (sens_StageEfficiency now df stage target_eff start_year goal_year)
  = Some (mkNaFrame (df_index df) (nrows (table df))
            (dict_set (na_columns (na_copy df)) stage (interpolate masked))).
Proof.
  clear Hlen. unfold sens_StageEfficiency.
  destruct (Z.ltb_spec goal_year start) as [Hlt|_]; [lia|].
  destruct (proj2 (scale_target_range target_eff) Htarget) as [H100 H0].
  destruct (Rlt_dec 100 (scale_target target_eff)) as [H|_]; [contradiction|].
  destruct (Rlt_dec (scale_target target_eff) 0) as [H|_]; [contradiction|].
  rewrite Hstage. reflexivity.
Qed.

Lemma masked_nth_error (i : nat) :
  (i < length col)%nat ->
  nth_error masked i
  = Some (mask_stage start goal_year (scale_target target_eff)
            (nth i (df_index df) 0%Z) (nth i col 0)).
Proof.
  clear Hstage Htarget Horder. intros Hi.
  assert (L : length masked = length col)
    by (rewrite zip_with_length, Hlen; apply Nat.min_id).
  rewrite (nth_error_nth' masked None) by lia. f_equal.
  apply (zip_with_nth_gen (mask_stage start goal_year (scale_target target_eff))
           (df_index df) col 0%Z 0 None i); lia.
Qed.

Lemma interpolated_length : length (interpolate masked) = length col.
Proof.
  clear Hstage Htarget Horder.
  unfold interpolate. rewrite interpolate_from_length, zip_with_length, Hlen.
  apply Nat.min_id.
Qed.

End Efficiency.

(** X22. When [sens_StageEfficiency] returns a frame, the frame has the index and
    the number of rows of the table, every other column with its values, and
    a stage column of the same length in which the rows of the years from the
    goal year on hold the target (a fraction having been multiplied by 100)
    and the rows of the years up to and including the start year keep their
    values. *)
Theorem sens_StageEfficiency_values :
  forall (now : Z) (df : IndexedFrame) (stage : string) (target_eff : R)
         (start_year : option Z) (goal_year : Z) (col : list R),
    getitem (columns (table df)) stage = Some col ->
    length col = length (df_index df) ->
    0 <= target_eff <= 100 ->
    (start_year_or_now now start_year <= goal_year)%Z ->
    exists (df2 : NaFrame) (col2 : list (option R)),
      fst (sens_StageEfficiency now df stage target_eff start_year goal_year) = Some df2 /\
      na_index df2 = df_index df /\ na_nrows df2 = nrows (table df) /\
      dict_get (na_columns df2) stage = Some col2 /\
      length col2 = length col /\
      (forall i : nat,
          (i < length col)%nat -> (goal_year <= nth i (df_index df) 0%Z)%Z ->
          nth_error col2 i = Some (Some (scale_target target_eff))) /\
      (forall i : nat,
          (i < length col)%nat ->
          (nth i (df_index df) 0%Z <= start_year_or_now now start_year)%Z ->
          (nth i (df_index df) 0%Z < goal_year)%Z ->
          nth_error col2 i = Some (Some (nth i col 0))) /\
      (forall c : string,
          c <> stage ->
          dict_get (na_columns df2) c
          = option_map (map Some) (getitem (columns (table df)) c)).
Proof.
  intros now df stage t s goal col Hstage Hlen Ht Horder.
  eexists. eexists.
  split; [apply (efficiency_result now df stage t s goal col Hstage Ht Horder)|].
  cbn [na_index na_nrows na_columns].
  split; [reflexivity|]. split; [reflexivity|].
  split; [apply dict_get_set_same|].
  split; [apply (interpolated_length now df t s goal col Hlen)|].
  split; [|split].
  - intros i Hi Hyear. unfold interpolate. apply interpolate_from_keeps.
    rewrite (masked_nth_error now df t s goal col Hlen i Hi). f_equal.
    unfold mask_stage.
    destruct (Z.ltb_spec (nth i (df_index df) 0%Z) goal); [lia|]. simpl.
    destruct (Z.leb_spec goal (nth i (df_index df) 0%Z)); [reflexivity|lia].
  - intros i Hi Hyear Hgoal. unfold interpolate. apply interpolate_from_keeps.
    rewrite (masked_nth_error now df t s goal col Hlen i Hi). f_equal.
    unfold mask_stage.
    destruct (Z.ltb_spec (start_year_or_now now s) (nth i (df_index df) 0%Z)); [lia|].
    rewrite andb_false_r.
    destruct (Z.leb_spec goal (nth i (df_index df) 0%Z)); [lia|reflexivity].
  - intros c Hc. rewrite dict_get_set_other by (intros E; apply Hc; symmetry; exact E).
    unfold na_copy. cbn [na_columns]. apply dict_get_na_copy.
Qed.

Lemma sens_StageEfficiency_values_witness :
  exists (df2 : NaFrame) (col2 : list (option R)),
    fst (sens_StageEfficiency 2030 sample_indexed "mod_eff" 0.5 (Some 2021%Z) 2023) = Some df2 /\
    dict_get (na_columns df2) "mod_eff" = Some col2 /\
    nth_error col2 4 = Some (Some (scale_target 0.5)).
Proof.
  destruct (sens_StageEfficiency_values 2030 sample_indexed "mod_eff" 0.5
              (Some 2021%Z) 2023 [10; 10; 10; 10; 10] eq_refl eq_refl
              ltac:(lra) ltac:(simpl; lia))
    as (df2 & col2 & E & _ & _ & G & _ & V & _).
  exists df2, col2. split; [exact E|]. split; [exact G|].
  apply (V 4%nat); simpl; lia.
Defined.

(** X23. On a table of consecutive years that holds both the start year and the
    goal year, the stage runs on a straight line from its value in the start
    year to the target in the goal year: the row k years after the start
    year, before the goal year, holds the start value plus k/(goal - start)
    of the difference to the target. *)
Theorem sens_StageEfficiency_ramp :
  forall (now : Z) (df : IndexedFrame) (stage : string) (target_eff : R)
         (start_year : option Z) (goal_year : Z) (col : list R)
         (y0 : Z) (i k j : nat),
    getitem (columns (table df)) stage = Some col ->
    length col = length (df_index df) ->
    (forall q : nat, (q < length col)%nat ->
                     nth q (df_index df) 0%Z = (y0 + Z.of_nat q)%Z) ->
    0 <= target_eff <= 100 ->
    start_year_or_now now start_year = (y0 + Z.of_nat i)%Z ->
    goal_year = (y0 + Z.of_nat j)%Z ->
    (i < k < j)%nat -> (j < length col)%nat ->
    exists (df2 : NaFrame) (col2 : list (option R)),
      fst (sens_StageEfficiency now df stage target_eff start_year goal_year) = Some df2 /\
      dict_get (na_columns df2) stage = Some col2 /\
      nth_error col2 k
      = Some (Some (nth i col 0
                    + (scale_target target_eff - nth i col 0)
                      * INR (k - i) / INR (j - i))).
Proof.
  intros now df stage t s goal col y0 i k j Hstage Hlen Hidx Ht Hs Hg Hk Hj.
  assert (Horder : (start_year_or_now now s <= goal)%Z) by lia.
  eexists. eexists.
  split; [apply (efficiency_result now df stage t s goal col Hstage Ht Horder)|].
  cbn [na_columns].
  split; [apply dict_get_set_same|].
  unfold interpolate. apply interpolate_from_between.
  - rewrite (masked_nth_error now df t s goal col Hlen i) by lia. f_equal.
    unfold mask_stage. rewrite (Hidx i) by lia. rewrite Hs.
    rewrite Z.ltb_irrefl, andb_false_r.
    destruct (Z.leb_spec goal (y0 + Z.of_nat i)); [lia|reflexivity].
  - intros q Hq.
    rewrite (masked_nth_error now df t s goal col Hlen q) by lia. f_equal.
    unfold mask_stage. rewrite (Hidx q) by lia. rewrite Hs.
    destruct (Z.ltb_spec (y0 + Z.of_nat q) goal); [|lia].
    destruct (Z.ltb_spec (y0 + Z.of_nat i) (y0 + Z.of_nat q)); [reflexivity|lia].
  - rewrite (masked_nth_error now df t s goal col Hlen j) by lia. f_equal.
    unfold mask_stage. rewrite (Hidx j) by lia.
    destruct (Z.ltb_spec (y0 + Z.of_nat j) goal); [lia|]. simpl.
    destruct (Z.leb_spec goal (y0 + Z.of_nat j)); [reflexivity|lia].
  - exact Hk.
Qed.

Lemma sens_StageEfficiency_ramp_witness :
  exists (df2 : NaFrame) (col2 : list (option R)),
    fst (sens_StageEfficiency 2030 sample_indexed "mod_eff" 50 (Some 2021%Z) 2023) = Some df2 /\
    dict_get (na_columns df2) "mod_eff" = Some col2 /\
    nth_error col2 2
    = Some (Some (nth 1 [10; 10; 10; 10; 10] 0
                  + (scale_target 50 - nth 1 [10; 10; 10; 10; 10] 0)
                    * INR (2 - 1) / INR (3 - 1))).
Proof.
  apply (sens_StageEfficiency_ramp 2030 sample_indexed "mod_eff" 50 (Some 2021%Z) 2023
           [10; 10; 10; 10; 10] 2020 1 2 3).
  - reflexivity.
  - reflexivity.
  - intros [|[|[|[|[|q]]]]] Hq; simpl in *; try reflexivity; lia.
  - lra.
  - reflexivity.
  - reflexivity.
  - lia.
  - simpl. lia.
Defined.

(** X24. At the edges of a table of consecutive years the stage is not ramped.
    When the start year is before the first year of the table, the rows
    before the goal year come out as NaN; when the goal year is after the
    last year of the table, the rows after the start year repeat the value of
    the start year and the target is not reached. *)
Theorem sens_StageEfficiency_edges :
  forall (now : Z) (df : IndexedFrame) (stage : string) (target_eff : R)
         (start_year : option Z) (goal_year : Z) (col : list R) (y0 : Z) (k : nat),
    getitem (columns (table df)) stage = Some col ->
    length col = length (df_index df) ->
    (forall q : nat, (q < length col)%nat ->
                     nth q (df_index df) 0%Z = (y0 + Z.of_nat q)%Z) ->
    0 <= target_eff <= 100 ->
    (start_year_or_now now start_year <= goal_year)%Z ->
    (k < length col)%nat ->
    exists (df2 : NaFrame) (col2 : list (option R)),
      fst (sens_StageEfficiency now df stage target_eff start_year goal_year) = Some df2 /\
      dict_get (na_columns df2) stage = Some col2 /\
      ((start_year_or_now now start_year < y0)%Z ->
       (y0 + Z.of_nat k < goal_year)%Z ->
       nth_error col2 k = Some None) /\
      (forall i : nat,
          start_year_or_now now start_year = (y0 + Z.of_nat i)%Z ->
          (i < k)%nat -> (y0 + Z.of_nat (length col) <= goal_year)%Z ->
          nth_error col2 k = Some (Some (nth i col 0))).
Proof.
  intros now df stage t s goal col y0 k Hstage Hlen Hidx Ht Horder Hk.
  eexists. eexists.
  split; [apply (efficiency_result now df stage t s goal col Hstage Ht Horder)|].
  cbn [na_columns].
  split; [apply dict_get_set_same|].
  split.
  - intros Hbefore Hgoal. unfold interpolate. apply interpolate_from_leading.
    intros q Hq.
    rewrite (masked_nth_error now df t s goal col Hlen q) by lia. f_equal.
    unfold mask_stage. rewrite (Hidx q) by lia.
    destruct (Z.ltb_spec (y0 + Z.of_nat q) goal); [|lia].
    destruct (Z.ltb_spec (start_year_or_now now s) (y0 + Z.of_nat q)); [reflexivity|lia].
  - intros i Hs Hik Hgoal. unfold interpolate.
    assert (L : length (zip_with (mask_stage (start_year_or_now now s) goal (scale_target t))
                          (df_index df) col) = length col)
      by (rewrite zip_with_length, Hlen; apply Nat.min_id).
    apply (interpolate_from_after _ None i k (nth i col 0)).
    + rewrite (masked_nth_error now df t s goal col Hlen i) by lia. f_equal.
      unfold mask_stage. rewrite (Hidx i) by lia. rewrite Hs.
      rewrite Z.ltb_irrefl, andb_false_r.
      destruct (Z.leb_spec goal (y0 + Z.of_nat i)); [lia|reflexivity].
    + intros q Hq. rewrite L in Hq.
      rewrite (masked_nth_error now df t s goal col Hlen q) by lia. f_equal.
      unfold mask_stage. rewrite (Hidx q) by lia. rewrite Hs.
      destruct (Z.ltb_spec (y0 + Z.of_nat q) goal); [|lia].
      destruct (Z.ltb_spec (y0 + Z.of_nat i) (y0 + Z.of_nat q)); [reflexivity|lia].
    + rewrite L. lia.
Qed.

Lemma sens_StageEfficiency_edges_witness :
  exists (df2 : NaFrame) (col2 : list (option R)),
    fst (sens_StageEfficiency 2030 sample_indexed "mod_eff" 50 (Some 2010%Z) 2023) = Some df2 /\
    dict_get (na_columns df2) "mod_eff" = Some col2 /\
    nth_error col2 1 = Some None.
Proof.
  destruct (sens_StageEfficiency_edges 2030 sample_indexed "mod_eff" 50 (Some 2010%Z) 2023
              [10; 10; 10; 10; 10] 2020 1 eq_refl eq_refl) as (df2 & col2 & E & G & V & _).
  - intros [|[|[|[|[|q]]]]] Hq; simpl in *; try reflexivity; lia.
  - lra.
  - simpl. lia.
  - simpl. lia.
  - exists df2, col2. split; [exact E|]. split; [exact G|].
    apply V; simpl; lia.
Defined.

(** ** The frame an invocation binds to a scenario *)

Lemma string_of_nat_inj (a b : nat) : string_of_nat a = string_of_nat b -> a = b.
Proof.
  unfold string_of_nat. intros H.
  apply (f_equal NilEmpty.uint_of_string) in H.
  rewrite !NilEmpty.usu in H. injection H as H.
  rewrite <- (DecimalNat.Unsigned.of_to a), <- (DecimalNat.Unsigned.of_to b), H.
  reflexivity.
Qed.

Lemma append_inj (p s1 s2 : string) : append p s1 = append p s2 -> s1 = s2.
Proof.
  induction p as [|a p IH]; simpl; intros H; [exact H|].
  injection H as H. apply IH, H.
Qed.

Lemma prefix_append (p s : string) : prefix p (append p s) = true.
Proof.
  induction p as [|a p IH]; simpl; [destruct s; reflexivity|].
  destruct (ascii_dec a a) as [_|N]; [exact IH|contradiction].
Qed.

Lemma contains_append (p s : string) : contains p (append p s) = true.
Proof.
  pose proof (prefix_append p s) as H.
  destruct (append p s); unfold contains; fold contains; rewrite H; reflexivity.
Qed.

Lemma getitem_app (a b : list (string * list R)) (c : string) :
  getitem (a ++ b) c
  = match getitem a c with
    | Some v => Some v
    | None => getitem b c
    end.
Proof.
  induction a as [|[k v] t IH]; simpl; [reflexivity|].
  destruct (String.eqb k c); [reflexivity|exact IH].
Qed.

Lemma getitem_filter_keep (P : string -> bool) (cols : list (string * list R)) (c : string) :
  P c = true -> getitem (filter (fun kv => P (fst kv)) cols) c = getitem cols c.
Proof.
  intros Hc. induction cols as [|[k v] t IH]; simpl; [reflexivity|].
  destruct (String.eqb_spec k c) as [->|Hne].
  - rewrite Hc. simpl. rewrite String.eqb_refl. reflexivity.
  - destruct (P k); simpl; [|exact IH].
    destruct (String.eqb_spec k c); [contradiction|exact IH].
Qed.

Lemma getitem_filter_drop (P : string -> bool) (cols : list (string * list R)) (c : string) :
  P c = false -> getitem (filter (fun kv => P (fst kv)) cols) c = None.
Proof.
  intros Hc. induction cols as [|[k v] t IH]; simpl; [reflexivity|].
  destruct (P k) eqn:Hk; simpl; [|exact IH].
  destruct (String.eqb_spec k c) as [->|Hne]; [congruence|exact IH].
Qed.

Lemma getitem_absent (cols : list (string * list R)) (c : string) :
  ~ In c (map fst cols) -> getitem cols c = None.
Proof.
  induction cols as [|[k v] t IH]; simpl; intros H; [reflexivity|].
  destruct (String.eqb_spec k c) as [->|Hne].
  - exfalso. apply H. left. reflexivity.
  - apply IH. intros Hin. apply H. right. exact Hin.
Qed.

Lemma getitem_year_columns (col : nat -> list R) (y a n : nat) :
  (a <= y < a + n)%nat ->
  getitem (map (fun y => (append "EOL_on_Year_" (string_of_nat y), col y)) (seq a n))
    (append "EOL_on_Year_" (string_of_nat y))
  = Some (col y).
Proof.
  revert a. induction n as [|n IH]; intros a Hy; [lia|].
  cbn [seq map getitem].
  destruct (String.eqb_spec (append "EOL_on_Year_" (string_of_nat a))
              (append "EOL_on_Year_" (string_of_nat y))) as [E|Hne].
  - apply append_inj, string_of_nat_inj in E. subst. reflexivity.
  - apply IH. destruct (Nat.eq_dec a y) as [->|]; [contradiction|lia].
Qed.

Lemma getitem_Failuredisposal (n : nat) (M : matrix) (y : nat) :
  (y < n)%nat ->
  getitem (FailuredisposalbyYear n M) (append "EOL_on_Year_" (string_of_nat y))
  = Some (map (fun row => nth y row 0) M).
Proof.
  intros Hy. unfold FailuredisposalbyYear.
  apply (getitem_year_columns (fun y => map (fun row => nth y row 0) M) y 0 n). lia.
Qed.

Lemma getitem_Failuredisposal_other (n : nat) (M : matrix) (c : string) :
  contains "EOL_on_Year_" c = false -> getitem (FailuredisposalbyYear n M) c = None.
Proof.
  intros Hc. apply getitem_absent. unfold FailuredisposalbyYear.
  rewrite map_map. cbn [fst]. intros Hin. apply in_map_iff in Hin.
  destruct Hin as (y & <- & _). rewrite contains_append in Hc. discriminate.
Qed.

Lemma getitem_drop_EOL_keep (df : DataFrame) (c : string) :
  contains "EOL_on_Year_" c = false ->
  getitem (columns (drop_EOL_columns df)) c = getitem (columns df) c.
Proof.
  intros Hc. unfold drop_EOL_columns. cbn [columns].
  apply (getitem_filter_keep (fun k => negb (contains "EOL_on_Year_" k))).
  rewrite Hc. reflexivity.
Qed.

Lemma getitem_drop_EOL_drop (df : DataFrame) (c : string) :
  contains "EOL_on_Year_" c = true ->
  getitem (columns (drop_EOL_columns df)) c = None.
Proof.
  intros Hc. unfold drop_EOL_columns. cbn [columns].
  apply (getitem_filter_drop (fun k => negb (contains "EOL_on_Year_" k))).
  rewrite Hc. reflexivity.
Qed.

(** The frame lines 241-279 build from the table [df] and its rows. *)
Lemma new_frame_year_column (df : DataFrame) (rows : list ModuleRow) (y : nat) :
  (y < nrows df)%nat ->
  let mf := calculate_module rows in
  getitem
    (columns
       (assign_all (eol_assignments mf)
          (join (drop_EOL_columns (assign_all (module_assignments rows mf) df))
             (FailuredisposalbyYear (nrows df) (EOL mf)))))
    (append "EOL_on_Year_" (string_of_nat y))
  = Some (map (fun row => nth y row 0) (EOL mf)).
Proof.
  intros Hy mf.
  rewrite assign_all_other.
  - unfold join. cbn [columns]. rewrite getitem_app.
    rewrite getitem_drop_EOL_drop by apply contains_append.
    apply getitem_Failuredisposal, Hy.
  - cbn [eol_assignments map fst]. cbn [append].
    intros [H|[H|[H|[H|[]]]]]; discriminate H.
Qed.

Lemma new_frame_other_column (df : DataFrame) (rows : list ModuleRow) (c : string) :
  contains "EOL_on_Year_" c = false ->
  ~ In c (map fst (eol_assignments (calculate_module rows))) ->
  ~ In c module_computed_columns ->
  let mf := calculate_module rows in
  getitem
    (columns
       (assign_all (eol_assignments mf)
          (join (drop_EOL_columns (assign_all (module_assignments rows mf) df))
             (FailuredisposalbyYear (nrows df) (EOL mf)))))
    c
  = getitem (columns df) c.
Proof.
  intros Hc Heol Hmod mf.
  rewrite assign_all_other by exact Heol.
  unfold join. cbn [columns]. rewrite getitem_app.
  rewrite getitem_drop_EOL_keep by exact Hc.
  rewrite assign_all_other by exact Hmod.
  rewrite getitem_Failuredisposal_other by exact Hc.
  destruct (getitem (columns df) c); reflexivity.
Qed.

Lemma new_frame_eol_columns (df0 : DataFrame) (mf : ModuleFlow) :
  let df_new := assign_all (eol_assignments mf) df0 in
  getitem (columns df_new) "EoL_Collected" = Some (EoL_Collected mf) /\
  getitem (columns df_new) "EoL_NotCollected" = Some (EoL_NotCollected mf) /\
  getitem (columns df_new) "EoL_Recycled" = Some (EoL_Recycled mf) /\
  getitem (columns df_new) "EoL_NotRecycled_Landfilled"
  = Some (EoL_NotRecycled_Landfilled mf).
Proof.
  unfold assign_all, eol_assignments. cbn [fold_left fst snd setitem columns nrows].
  repeat split.
  - rewrite !getitem_setitem_other by discriminate. apply getitem_setitem_same.
  - rewrite !getitem_setitem_other by discriminate. apply getitem_setitem_same.
  - rewrite !getitem_setitem_other by discriminate. apply getitem_setitem_same.
  - apply getitem_setitem_same.
Qed.

Lemma forallb_pointwise {A : Type} (f g : A -> bool) (l : list A) :
  (forall a, In a l -> f a = g a) -> forallb f l = forallb g l.
Proof.
  induction l as [|a t IH]; intros H; simpl; [reflexivity|].
  rewrite (H a (or_introl eq_refl)), IH; [reflexivity|].
  intros b Hb. apply H. right. exact Hb.
Qed.

Lemma read_module_ext (d1 d2 : DataFrame) :
  nrows d1 = nrows d2 ->
  (forall c, In c module_input_columns ->
             getitem (columns d1) c = getitem (columns d2) c) ->
  read_module d1 = read_module d2.
Proof.
  intros Hn Hc. unfold read_module.
  assert (Hh : has_columns (columns d1) module_input_columns
               = has_columns (columns d2) module_input_columns).
  { unfold has_columns. apply forallb_pointwise.
    intros c Hin. rewrite (Hc c Hin). reflexivity. }
  rewrite Hh, Hn.
  assert (Hcell : forall c i, In c module_input_columns ->
                              cell (columns d1) c i = cell (columns d2) c i).
  { intros c i Hin. unfold cell. rewrite (Hc c Hin). reflexivity. }
  destruct (has_columns (columns d2) module_input_columns); [|reflexivity].
  f_equal. apply map_ext. intros i. cbv zeta.
  rewrite !(Hcell _ i) by (cbn [module_input_columns In]; tauto).
  reflexivity.
Qed.

Lemma year_names_not_computed (s : string) :
  ~ In (append "EOL_on_Year_" s) computed_columns.
Proof.
  cbn [append]. intros H.
  repeat (destruct H as [H|H]; [discriminate H|]). exact H.
Qed.

Lemma eol_names_not_computed (mf : ModuleFlow) (c : string) :
  In c (map fst (eol_assignments mf)) -> ~ In c computed_columns.
Proof.
  cbn [eol_assignments map fst]. intros [<-|[<-|[<-|[<-|[]]]]] H;
    repeat (destruct H as [H|H]; [discriminate H|]); exact H.
Qed.

Lemma inputs_not_year_columns (c : string) :
  In c module_input_columns -> contains "EOL_on_Year_" c = false.
Proof.
  cbn [module_input_columns In].
  intros [<-|[<-|[<-|[<-|[<-|[<-|[<-|[<-|[<-|[<-|[]]]]]]]]]]]; reflexivity.
Qed.

Lemma inputs_not_eol_columns (mf : ModuleFlow) (c : string) :
  In c module_input_columns -> ~ In c (map fst (eol_assignments mf)).
Proof.
  cbn [module_input_columns eol_assignments map fst In].
  intros [<-|[<-|[<-|[<-|[<-|[<-|[<-|[<-|[<-|[<-|[]]]]]]]]]]] H;
    repeat (destruct H as [H|H]; [discriminate H|]); exact H.
Qed.

(** What a completed pass leaves at the address it binds to [data]. *)
Lemma scenario_pass_new_frame (w w2 : World) (scen scen' : string * ScenarioObj)
    (df : DataFrame) (rows : list ModuleRow) :
  scenario_pass w scen = Some (w2, scen') ->
  nth_error (heap w) (scen_data (snd scen)) = Some df ->
  read_module df = Some rows ->
  let mf := calculate_module rows in
  exists df_new,
    nth_error (heap w2) (scen_data (snd scen')) = Some df_new /\
    scen_data (snd scen') = length (heap w) /\
    nrows df_new = nrows df /\
    forall c, ~ In c computed_columns ->
      getitem (columns df_new) c
      = getitem
          (columns
             (assign_all (eol_assignments mf)
                (join (drop_EOL_columns (assign_all (module_assignments rows mf) df))
                   (FailuredisposalbyYear (nrows df) (EOL mf)))))
          c.
Proof.
  intros H Hdf Hrows mf. unfold scenario_pass in H.
  rewrite Hdf, Hrows in H.
  fold mf in H.
  set (df_in_place := assign_all (module_assignments rows mf) df) in *.
  set (heap1 := list_set (heap w) (scen_data (snd scen)) df_in_place) in *.
  set (df_new0 := assign_all (eol_assignments mf)
                    (join (drop_EOL_columns df_in_place)
                       (FailuredisposalbyYear (nrows df) (EOL mf)))) in *.
  match type of H with
  | match material_loop mf ?x _ with _ => _ end = _ => set (w1 := x) in *
  end.
  destruct (material_loop mf w1 (scen_material (snd scen))) as [w2'|] eqn:Em;
    [|discriminate].
  injection H as <- <-.
  destruct (material_loop_spec mf _ w1 w2' Em) as (Pm & _ & _).
  assert (L1 : length heap1 = length (heap w)) by apply list_set_length.
  assert (N1 : nth_error (heap w1) (length heap1) = Some df_new0).
  { change (heap w1) with (heap1 ++ [df_new0]).
    rewrite nth_error_app2, Nat.sub_diag by lia. reflexivity. }
  destruct (Pm _ _ N1) as (df2 & N2 & R2 & V2 & _).
  exists df2. cbn [snd scen_data].
  split; [exact N2|]. split; [exact L1|]. split.
  - rewrite R2. unfold df_new0. rewrite assign_all_nrows. cbn [join nrows drop_EOL_columns].
    unfold df_in_place. apply assign_all_nrows.
  - exact V2.
Qed.

Lemma scenario_pass_reads (w : World) (scen : string * ScenarioObj)
    (r : World * (string * ScenarioObj)) :
  scenario_pass w scen = Some r ->
  exists df rows,
    nth_error (heap w) (scen_data (snd scen)) = Some df /\ read_module df = Some rows.
Proof.
  unfold scenario_pass. intros H.
  destruct (nth_error (heap w) (scen_data (snd scen))) as [df|] eqn:Hdf; [|discriminate].
  destruct (read_module df) as [rows|] eqn:Hrows; [|discriminate].
  exists df, rows. split; [reflexivity|exact Hrows].
Qed.

Lemma scenario_pass_none (w : World) (scen : string * ScenarioObj) :
  scenario_pass w scen = None -> calculateMassFlow w [scen] = None.
Proof. intros H. cbn [calculateMassFlow]. rewrite H. reflexivity. Qed.

Lemma sample_pass_completes :
  scenario_pass sample_world ("standard"%string, mkScenario 0 [("glass"%string, 1%nat)])
  <> None.
Proof.
  intros H. apply sample_invocation_completes.
  exact (scenario_pass_none sample_world _ H).
Qed.

(** X25. After a completed pass over a scenario, the frame the scenario's [data]
    refers to is a new object with as many rows as the table; for every year
    y it holds, under the name EOL_on_Year_y, that year's column of the
    disposal matrix computed by this pass, also when the table already had a
    column of that name; and its four EoL_* columns are the yearly sums this
    pass computed. *)
Theorem scenario_pass_results :
  forall (w w2 : World) (scen scen' : string * ScenarioObj)
         (df : DataFrame) (rows : list ModuleRow),
    scenario_pass w scen = Some (w2, scen') ->
    nth_error (heap w) (scen_data (snd scen)) = Some df ->
    read_module df = Some rows ->
    let mf := calculate_module rows in
    exists df_new,
      nth_error (heap w2) (scen_data (snd scen')) = Some df_new /\
      scen_data (snd scen') = length (heap w) /\
      nrows df_new = nrows df /\
      (forall y, (y < nrows df)%nat ->
         getitem (columns df_new) (append "EOL_on_Year_" (string_of_nat y))
         = Some (map (fun row => nth y row 0) (EOL mf))) /\
      getitem (columns df_new) "EoL_Collected" = Some (EoL_Collected mf) /\
      getitem (columns df_new) "EoL_NotCollected" = Some (EoL_NotCollected mf) /\
      getitem (columns df_new) "EoL_Recycled" = Some (EoL_Recycled mf) /\
      getitem (columns df_new) "EoL_NotRecycled_Landfilled"
      = Some (EoL_NotRecycled_Landfilled mf).
Proof.
  intros w w2 scen scen' df rows H Hdf Hrows mf.
  destruct (scenario_pass_new_frame w w2 scen scen' df rows H Hdf Hrows)
    as (df_new & N & A & R' & V).
  fold mf in V.
  exists df_new. split; [exact N|]. split; [exact A|]. split; [exact R'|].
  destruct (new_frame_eol_columns
              (join (drop_EOL_columns (assign_all (module_assignments rows mf) df))
                 (FailuredisposalbyYear (nrows df) (EOL mf))) mf)
    as (E1 & E2 & E3 & E4).
  split.
  - intros y Hy. rewrite V by apply year_names_not_computed.
    apply (new_frame_year_column df rows y Hy).
  - assert (Hn : forall c, In c (map fst (eol_assignments mf)) -> ~ In c computed_columns)
      by apply eol_names_not_computed.
    repeat split.
    + rewrite V by (apply Hn; cbn; tauto). exact E1.
    + rewrite V by (apply Hn; cbn; tauto). exact E2.
    + rewrite V by (apply Hn; cbn; tauto). exact E3.
    + rewrite V by (apply Hn; cbn; tauto). exact E4.
Qed.

Lemma scenario_pass_results_witness :
  exists w2 scen' rows df_new,
    scenario_pass sample_world ("standard"%string, mkScenario 0 [("glass"%string, 1%nat)])
    = Some (w2, scen') /\
    read_module sample_module_frame = Some rows /\
    nth_error (heap w2) (scen_data (snd scen')) = Some df_new /\
    getitem (columns df_new) "EoL_Collected"
    = Some (EoL_Collected (calculate_module rows)).
Proof.
  destruct (scenario_pass sample_world
              ("standard"%string, mkScenario 0 [("glass"%string, 1%nat)]))
    as [[w2 scen']|] eqn:E; [|exfalso; exact (sample_pass_completes E)].
  destruct (scenario_pass_reads _ _ _ E) as (df & rows & Hdf & Hrows).
  cbn [snd scen_data sample_world heap nth_error] in Hdf.
  injection Hdf as <-.
  destruct (scenario_pass_results sample_world w2 _ scen' sample_module_frame rows
              E eq_refl Hrows) as (df_new & N & _ & _ & _ & E1 & _).
  exists w2, scen', rows, df_new. repeat split; assumption.
Defined.

(** X26. A completed pass leaves the baseline where a later invocation reads it:
    the table the pass started from, updated in place, and the new frame the
    scenario's [data] refers to afterwards both yield the same baseline rows
    as the table did before the pass, so a repeated invocation computes the
    same flows. *)
Theorem scenario_pass_keeps_baseline :
  forall (w w2 : World) (scen scen' : string * ScenarioObj) (df : DataFrame),
    scenario_pass w scen = Some (w2, scen') ->
    nth_error (heap w) (scen_data (snd scen)) = Some df ->
    exists df_old df_new,
      nth_error (heap w2) (scen_data (snd scen)) = Some df_old /\
      nth_error (heap w2) (scen_data (snd scen')) = Some df_new /\
      read_module df_old = read_module df /\
      read_module df_new = read_module df.
Proof.
  intros w w2 scen scen' df H Hdf.
  destruct (scenario_pass_reads _ _ _ H) as (df0 & rows & Hdf0 & Hrows).
  assert (df0 = df) by congruence. subst df0.
  destruct (scenario_pass_spec w w2 scen scen' H) as (P & _).
  destruct (P _ _ Hdf) as (df_old & No & Ro & Vo & _).
  destruct (scenario_pass_new_frame w w2 scen scen' df rows H Hdf Hrows)
    as (df_new & N & _ & R' & V).
  exists df_old, df_new. split; [exact No|]. split; [exact N|]. split.
  - apply read_module_ext; [exact Ro|].
    intros c Hc. apply Vo, inputs_not_computed. left. exact Hc.
  - apply read_module_ext; [exact R'|].
    intros c Hc.
    assert (Hnc : ~ In c computed_columns) by (apply inputs_not_computed; left; exact Hc).
    rewrite V by exact Hnc.
    apply new_frame_other_column.
    + apply inputs_not_year_columns, Hc.
    + apply inputs_not_eol_columns, Hc.
    + intros Hin. apply Hnc. unfold computed_columns. apply in_or_app. left. exact Hin.
Qed.

Lemma scenario_pass_keeps_baseline_witness :
  exists w2 scen' df_new,
    scenario_pass sample_world ("standard"%string, mkScenario 0 [("glass"%string, 1%nat)])
    = Some (w2, scen') /\
    nth_error (heap w2) (scen_data (snd scen')) = Some df_new /\
    read_module df_new = read_module sample_module_frame.
Proof.
  destruct (scenario_pass sample_world
              ("standard"%string, mkScenario 0 [("glass"%string, 1%nat)]))
    as [[w2 scen']|] eqn:E; [|exfalso; exact (sample_pass_completes E)].
  destruct (scenario_pass_keeps_baseline sample_world w2 _ scen' sample_module_frame
              E eq_refl) as (df_old & df_new & _ & N & _ & Rn).
  exists w2, scen', df_new. repeat split; assumption.
Defined.

(** *** Column lengths *)

Lemma setitem_wf (df : DataFrame) (c : string) (v : list R) :
  wf_frame df -> length v = nrows df -> wf_frame (setitem df c v).
Proof.
  unfold wf_frame, setitem. cbn [columns nrows]. intros H Hv.
  induction H as [|[k w] t Hk Ht IH]; simpl.
  - constructor; [exact Hv|constructor].
  - destruct (String.eqb k c); constructor; auto.
Qed.

Lemma assign_all_wf (assignments : list (string * list R)) (df : DataFrame) :
  wf_frame df ->
  Forall (fun kv => length (snd kv) = nrows df) assignments ->
  wf_frame (assign_all assignments df).
Proof.
  unfold assign_all. revert df.
  induction assignments as [|[c v] t IH]; intros df Hdf Ha; simpl; [exact Hdf|].
  inversion Ha as [|? ? Hv Ht]; subst. apply IH.
  - apply setitem_wf; assumption.
  - exact Ht.
Qed.

Lemma drop_EOL_columns_wf (df : DataFrame) : wf_frame df -> wf_frame (drop_EOL_columns df).
Proof.
  unfold wf_frame, drop_EOL_columns. cbn [columns nrows]. intros H.
  apply Forall_forall. intros kv Hin. apply filter_In in Hin.
  rewrite Forall_forall in H. apply H, Hin.
Qed.

Lemma join_wf (df : DataFrame) (other : list (string * list R)) :
  wf_frame df -> Forall (fun kv => length (snd kv) = nrows df) other ->
  wf_frame (join df other).
Proof.
  unfold wf_frame, join. cbn [columns nrows]. intros H Ho.
  apply Forall_app. split; assumption.
Qed.

Lemma read_module_length (df : DataFrame) (rows : list ModuleRow) :
  read_module df = Some rows -> length rows = nrows df.
Proof.
  unfold read_module. destruct (has_columns (columns df) module_input_columns);
    [|discriminate].
  intros H. injection H as <-. rewrite length_map, length_seq. reflexivity.
Qed.

Lemma read_material_length (dm : DataFrame) (mrows : list MaterialRow) :
  read_material dm = Some mrows -> length mrows = nrows dm.
Proof.
  unfold read_material. destruct (has_columns (columns dm) material_input_columns);
    [|discriminate].
  intros H. injection H as <-. rewrite length_map, length_seq. reflexivity.
Qed.

Lemma fold_vadd_length (n : nat) (seqs : list (list R)) (init : list R) :
  (forall s, In s seqs -> length s = n) -> length init = n ->
  length (fold_left vadd seqs init) = n.
Proof.
  revert init. induction seqs as [|s seqs IH]; intros init Hs Hi; simpl; [exact Hi|].
  apply IH.
  - intros s' H'. apply Hs. right. exact H'.
  - apply vadd_length; [exact Hi|]. apply Hs. left. reflexivity.
Qed.

Lemma cumulative_length (n : nat) (seqs : list (list R)) :
  (forall s, In s seqs -> length s = n) -> length (cumulative n seqs) = n.
Proof.
  intros Hs. unfold cumulative. apply fold_vadd_length; [exact Hs|apply repeat_length].
Qed.

Lemma cumulative_disposed_length (n : nat) (ts : list Trajectory) (init : list R) :
  (forall t, In t ts -> length (traj_failure t) = n /\ length (traj_degradation t) = n) ->
  length init = n ->
  length (fold_left (fun acc t => vadd (vadd acc (traj_failure t)) (traj_degradation t))
            ts init) = n.
Proof.
  revert init. induction ts as [|t ts IH]; intros init Hts Hi; simpl; [exact Hi|].
  destruct (Hts t (or_introl eq_refl)) as [L1 L2].
  apply IH.
  - intros t' H'. apply Hts. right. exact H'.
  - apply vadd_length; [apply vadd_length|]; assumption.
Qed.

Lemma module_assignments_lengths (rows : list ModuleRow) :
  Forall (fun kv => length (snd kv) = length rows)
    (module_assignments rows (calculate_module rows)).
Proof.
  assert (Hseq : forall seq_of : Trajectory -> list R,
             (forall t, In t (trajectories row_cdf rows) ->
                        length (seq_of t) = length rows) ->
             length (cumulative (length rows) (map seq_of (trajectories row_cdf rows)))
             = length rows).
  { intros seq_of H. apply cumulative_length. intros s Hs.
    apply in_map_iff in Hs. destruct Hs as (t & <- & Ht). apply H, Ht. }
  unfold module_assignments, calculate_module.
  cbn [col_Area Cumulative_Area_disposedby_Failure Cumulative_Area_disposedby_Degradation
       Cumulative_Area_disposed Cumulative_Active_Area Cumulative_Power_W module_flow].
  repeat constructor; cbn [snd]; try apply length_map.
  - apply Hseq. intros t Ht. apply (trajectories_wf row_cdf rows t Ht).
  - apply Hseq. intros t Ht. apply (trajectories_wf row_cdf rows t Ht).
  - apply cumulative_disposed_length; [|apply repeat_length].
    intros t Ht. destruct (trajectories_wf row_cdf rows t Ht) as (_ & L2 & L3 & _). auto.
  - apply Hseq. intros t Ht. apply (trajectories_wf row_cdf rows t Ht).
  - apply Hseq. intros t Ht. apply (trajectories_wf row_cdf rows t Ht).
Qed.

Lemma eol_assignments_lengths (rows : list ModuleRow) :
  Forall (fun kv => length (snd kv) = length rows)
    (eol_assignments (calculate_module rows)).
Proof.
  pose proof (EOL_Collected_wf row_cdf rows) as W1.
  pose proof (landfill_Collection_wf row_cdf rows) as W2.
  pose proof (EOL_Recycled_wf row_cdf rows) as W3.
  pose proof (EOL_NotRecycled_Landfilled_wf row_cdf rows) as W4.
  unfold eol_assignments, calculate_module.
  cbn [EoL_Collected EoL_NotCollected EoL_Recycled EoL_NotRecycled_Landfilled module_flow].
  cbn [EOL_Collected landfill_Collection EOL_Recycled EOL_NotRecycled_Landfilled
       module_flow] in W1, W2, W3, W4.
  repeat constructor; cbn [snd]; apply column_sums_length; assumption.
Qed.

Lemma Failuredisposal_lengths (n : nat) (M : matrix) :
  Forall (fun kv => length (snd kv) = length M) (FailuredisposalbyYear n M).
Proof.
  unfold FailuredisposalbyYear. apply Forall_forall. intros kv Hin.
  apply in_map_iff in Hin. destruct Hin as (y & <- & _). cbn [snd]. apply length_map.
Qed.

Lemma EOL_length (rows : list ModuleRow) :
  length (EOL (calculate_module rows)) = length rows.
Proof.
  unfold calculate_module. cbn [EOL module_flow]. unfold Generation_Disposed_byYear.
  rewrite length_map. apply trajectories_length.
Qed.

Lemma material_assignments_lengths (rows : list ModuleRow) (mrows : list MaterialRow) :
  length mrows = length rows ->
  Forall (fun kv => length (snd kv) = length rows)
    (material_assignments (calculate_material rows mrows)).
Proof.
  intros Hlen.
  pose proof (EOL_Recycled_wf row_cdf rows) as W1.
  pose proof (EOL_NotRecycled_Landfilled_wf row_cdf rows) as W2.
  pose proof (landfill_Collection_wf row_cdf rows) as W3.
  pose proof (col_Area_length row_cdf rows) as LA.
  assert (LC : forall fld : MaterialRow -> R, length (map fld mrows) = length rows)
    by (intros fld; rewrite length_map; exact Hlen).
  assert (LS : forall fld : MaterialRow -> R,
             length (vscale 0.01 (map fld mrows)) = length rows)
    by (intros fld; auto with cols).
  assert (LV : forall fld : MaterialRow -> R,
             length (vcompl (vscale 0.01 (map fld mrows))) = length rows)
    by (intros fld; auto with cols).
  unfold material_assignments, calculate_material, calculate_module, material_flow.
  cbn [mat_modules_NotRecycled mat_modules_NotCollected mat_EOL_sento_Recycling
       mat_EOL_NotRecycled_Landfilled mat_EOL_Recycled mat_EOL_Recycled_Losses_Landfilled
       mat_EoL_Recycled_into_HQ mat_EoL_Recycled_into_OQ mat_EoL_Recycled_HQ_into_MFG
       mat_EOL_Recycled_HQ_into_OU mat_Manufactured mat_Manufacturing_Input mat_MFG_Scrap
       mat_MFG_Scrap_Sentto_Recycling mat_MFG_Scrap_Landfilled mat_MFG_Scrap_Recycled
       mat_MFG_Scrap_Recycled_Losses_Landfilled mat_MFG_Recycled_into_HQ
       mat_MFG_Recycled_into_OQ mat_MFG_Recycled_HQ_into_MFG mat_MFG_Recycled_HQ_into_OU
       mat_Virgin_Stock mat_Total_EoL_Landfilled mat_Total_MFG_Landfilled
       mat_Total_Landfilled mat_Total_Recycled_OU].
  rewrite LA.
  repeat constructor; cbn [snd]; auto 30 with cols.
Qed.

Lemma Forall_list_set {A : Type} (P : A -> Prop) (l : list A) (i : nat) (v : A) :
  Forall P l -> P v -> Forall P (list_set l i v).
Proof.
  intros H Hv. revert i. induction H as [|a t Ha Ht IH]; intros [|i]; simpl;
    constructor; auto.
Qed.

Lemma material_pass_wf (rows : list ModuleRow) (w w' : World) (mat : string * nat) :
  material_pass (calculate_module rows) w mat = Some w' ->
  Forall wf_frame (heap w) -> Forall wf_frame (heap w').
Proof.
  unfold material_pass. intros H Hw.
  destruct (nth_error (heap w) (snd mat)) as [dm|] eqn:El; [|discriminate].
  destruct (read_material dm) as [mrows|] eqn:Er; [|discriminate].
  destruct (Nat.eqb_spec (nrows dm) (length (col_Area (calculate_module rows))))
    as [En|]; [|discriminate].
  injection H as <-. cbn [heap].
  unfold calculate_module in En. rewrite (col_Area_length row_cdf rows) in En.
  pose proof (read_material_length dm mrows Er) as Lm.
  assert (Wdm : wf_frame dm).
  { rewrite Forall_forall in Hw. apply Hw. eapply nth_error_In, El. }
  assert (Hl : Forall (fun kv => length (snd kv) = nrows dm)
                 (material_assignments (calculate_material rows mrows))).
  { rewrite En. apply (material_assignments_lengths rows mrows). congruence. }
  exact (Forall_list_set wf_frame (heap w) (snd mat) _ Hw
           (assign_all_wf (material_assignments (calculate_material rows mrows)) dm
              Wdm Hl)).
Qed.

Lemma material_loop_wf (rows : list ModuleRow) (mats : list (string * nat)) (w w' : World) :
  material_loop (calculate_module rows) w mats = Some w' ->
  Forall wf_frame (heap w) -> Forall wf_frame (heap w').
Proof.
  revert w. induction mats as [|mat rest IH]; intros w H Hw; simpl in H.
  - injection H as <-. exact Hw.
  - destruct (material_pass (calculate_module rows) w mat) as [w1|] eqn:E1; [|discriminate].
    apply (IH w1 H). apply (material_pass_wf rows w w1 mat E1 Hw).
Qed.

(** X27. A completed pass keeps the invariant of the frames: when every column of
    every table of the store has one entry per row before the pass, the same
    holds afterwards, for the tables assigned in place and for the new frame.
    Every list the pass assigns as a column has the length of the table. *)
Theorem scenario_pass_keeps_frames_well_formed :
  forall (w w2 : World) (scen scen' : string * ScenarioObj),
    scenario_pass w scen = Some (w2, scen') ->
    Forall wf_frame (heap w) ->
    Forall wf_frame (heap w2) /\ length (heap w2) = S (length (heap w)).
Proof.
  intros w w2 scen scen' H Hw.
  split; [|apply (scenario_pass_spec w w2 scen scen' H)].
  destruct (scenario_pass_reads _ _ _ H) as (df & rows & Hdf & Hrows).
  unfold scenario_pass in H. rewrite Hdf, Hrows in H.
  pose proof (read_module_length df rows Hrows) as Ln.
  set (mf := calculate_module rows) in *.
  set (df_in_place := assign_all (module_assignments rows mf) df) in *.
  set (heap1 := list_set (heap w) (scen_data (snd scen)) df_in_place) in *.
  match type of H with
  | match material_loop mf ?x _ with _ => _ end = _ => set (w1 := x) in *
  end.
  destruct (material_loop mf w1 (scen_material (snd scen))) as [w2'|] eqn:Em;
    [|discriminate].
  injection H as <- _.
  apply (material_loop_wf rows _ w1 w2' Em).
  assert (Wdf : wf_frame df).
  { rewrite Forall_forall in Hw. apply Hw. eapply nth_error_In, Hdf. }
  assert (Hl1 : Forall (fun kv => length (snd kv) = nrows df)
                  (module_assignments rows mf)).
  { rewrite <- Ln. apply module_assignments_lengths. }
  assert (W1 : wf_frame df_in_place)
    by exact (assign_all_wf (module_assignments rows mf) df Wdf Hl1).
  assert (N1 : nrows df_in_place = nrows df) by apply assign_all_nrows.
  change (heap w1) with (heap1 ++ [assign_all (eol_assignments mf)
                                     (join (drop_EOL_columns df_in_place)
                                        (FailuredisposalbyYear (nrows df) (EOL mf)))]).
  assert (Hl2 : Forall (fun kv => length (snd kv) = nrows (drop_EOL_columns df_in_place))
                  (FailuredisposalbyYear (nrows df) (EOL mf))).
  { cbn [drop_EOL_columns nrows]. rewrite N1, <- Ln, <- (EOL_length rows).
    apply Failuredisposal_lengths. }
  assert (W2 : wf_frame (join (drop_EOL_columns df_in_place)
                           (FailuredisposalbyYear (nrows df) (EOL mf))))
    by exact (join_wf _ _ (drop_EOL_columns_wf df_in_place W1) Hl2).
  assert (Hl3 : Forall (fun kv => length (snd kv)
                                  = nrows (join (drop_EOL_columns df_in_place)
                                             (FailuredisposalbyYear (nrows df) (EOL mf))))
                  (eol_assignments mf)).
  { cbn [join drop_EOL_columns nrows]. rewrite N1, <- Ln.
    apply eol_assignments_lengths. }
  apply Forall_app. split.
  - exact (Forall_list_set wf_frame (heap w) (scen_data (snd scen)) df_in_place Hw W1).
  - constructor; [|constructor].
    exact (assign_all_wf (eol_assignments mf) _ W2 Hl3).
Qed.

Lemma scenario_pass_keeps_frames_well_formed_witness :
  exists w2 scen',
    scenario_pass sample_world ("standard"%string, mkScenario 0 [("glass"%string, 1%nat)])
    = Some (w2, scen') /\
    Forall wf_frame (heap w2) /\ length (heap w2) = S (length (heap sample_world)).
Proof.
  destruct (scenario_pass sample_world
              ("standard"%string, mkScenario 0 [("glass"%string, 1%nat)]))
    as [[w2 scen']|] eqn:E; [|exfalso; exact (sample_pass_completes E)].
  exists w2, scen'. split; [reflexivity|].
  apply (scenario_pass_keeps_frames_well_formed sample_world w2 _ scen' E).
  repeat constructor.
Defined.

(** *** What a pass prints *)

Lemma concat_repeat_nil {A : Type} (k : nat) : concat (repeat (@nil A) k) = [].
Proof. induction k as [|k IH]; simpl; auto. Qed.

Lemma module_printed_once (rows : list ModuleRow) :
  module_printed (calculate_module rows)
  = if (length rows =? 0)%nat then [] else [finished_message].
Proof.
  unfold calculate_module. cbn [module_printed module_flow].
  destruct (Nat.eqb_spec (length rows) 0) as [E|N].
  - destruct rows; [reflexivity|discriminate].
  - assert (Hm : map traj_printed (trajectories row_cdf rows)
                 = repeat [] (length rows - 1) ++ [[finished_message]]).
    { apply (nth_ext _ _ [] []).
      - rewrite length_map, trajectories_length, length_app, repeat_length. simpl. lia.
      - intros g Hg. rewrite length_map, trajectories_length in Hg.
        rewrite (nth_indep _ [] (traj_printed (mkTrajectory [] [] [] [] [])))
          by (rewrite length_map, trajectories_length; exact Hg).
        rewrite map_nth, trajectories_nth by exact Hg.
        rewrite (generation_trajectory_eq (row_cdf (iloc rows g)) rows g (iloc rows g) Hg).
        cbn [traj_printed].
        destruct (Nat.eqb_spec (length rows) (g + 1)) as [E|Hne].
        + rewrite app_nth2 by (rewrite repeat_length; lia).
          rewrite repeat_length.
          replace (g - (length rows - 1))%nat with 0%nat by lia. reflexivity.
        + rewrite app_nth1 by (rewrite repeat_length; lia).
          rewrite nth_repeat. reflexivity. }
    rewrite Hm, concat_app, concat_repeat_nil. reflexivity.
Qed.

Lemma material_loop_stdout (mf : ModuleFlow) (mats : list (string * nat)) (w w' : World) :
  material_loop mf w mats = Some w' ->
  stdout w'
  = stdout w ++ map (fun mat => append "==> Working on Material :  " (fst mat)) mats.
Proof.
  revert w. induction mats as [|mat rest IH]; intros w H; simpl in H.
  - injection H as <-. simpl. rewrite app_nil_r. reflexivity.
  - destruct (material_pass mf w mat) as [w1|] eqn:E1; [|discriminate].
    rewrite (IH w1 H). unfold material_pass in E1.
    destruct (nth_error (heap w) (snd mat)) as [dm|]; [|discriminate].
    destruct (read_material dm) as [mrows|]; [|discriminate].
    destruct (nrows dm =? length (col_Area mf))%nat; [|discriminate].
    injection E1 as <-. cbn [stdout map]. rewrite <- app_assoc. reflexivity.
Qed.

(** X28. A completed pass over a scenario prints, in this order: the line naming
    the scenario, a line of twenty asterisks, the line "Finished Area+Power
    Generation Calculations" exactly once when the table has rows (and not at
    all when it is empty), and one line naming each material, in the order of
    the scenario's materials. *)
Theorem scenario_pass_prints :
  forall (w w2 : World) (scen scen' : string * ScenarioObj)
         (df : DataFrame),
    scenario_pass w scen = Some (w2, scen') ->
    nth_error (heap w) (scen_data (snd scen)) = Some df ->
    stdout w2
    = stdout w
      ++ [append "Working on Scenario:  " (fst scen); "********************"%string]
      ++ (if (nrows df =? 0)%nat then [] else [finished_message])
      ++ map (fun mat => append "==> Working on Material :  " (fst mat))
           (scen_material (snd scen)).
Proof.
  intros w w2 scen scen' df H Hdf.
  destruct (scenario_pass_reads _ _ _ H) as (df0 & rows & Hdf0 & Hrows).
  assert (df0 = df) by congruence. subst df0.
  unfold scenario_pass in H. rewrite Hdf, Hrows in H.
  match type of H with
  | match material_loop ?mf ?x _ with _ => _ end = _ =>
      destruct (material_loop mf x (scen_material (snd scen))) as [w2'|] eqn:Em;
        [|discriminate]
  end.
  injection H as <- _.
  rewrite (material_loop_stdout _ _ _ _ Em). cbn [stdout].
  rewrite module_printed_once, (read_module_length df rows Hrows).
  rewrite <- !app_assoc. reflexivity.
Qed.

Lemma scenario_pass_prints_witness :
  exists w2 scen',
    scenario_pass sample_world ("standard"%string, mkScenario 0 [("glass"%string, 1%nat)])
    = Some (w2, scen') /\
    stdout w2
    = ["Working on Scenario:  standard"; "********************";
       "Finished Area+Power Generation Calculations";
       "==> Working on Material :  glass"]%string.
Proof.
  destruct (scenario_pass sample_world
              ("standard"%string, mkScenario 0 [("glass"%string, 1%nat)]))
    as [[w2 scen']|] eqn:E; [|exfalso; exact (sample_pass_completes E)].
  exists w2, scen'. split; [reflexivity|].
  rewrite (scenario_pass_prints sample_world w2 _ scen' sample_module_frame E eq_refl).
  reflexivity.
Defined.
